(** * Processor composition layer: retry, rate_limit, mapping, mutation,
      sync_response, and the resource manager's label registry.

    The development embeds the Go sources of the processors
    ([retryProc.dispatchMessage], [rateLimitProc.Process],
    [mappingProc.ProcessBatch], [mutationProc.ProcessBatch],
    [syncResponseProc.ProcessBatch], [processor.MarkErr]) over an explicit
    store of message parts, and states the properties of the specification
    about them. *)

From Stdlib Require Import ZArith Lia.
From Stdlib Require Strings.Byte.
From stdpp Require Import base option list gmap strings.

Local Open Scope Z_scope.

(** ** Go values shared by every component *)

(** A Go [error] value.  [context.Canceled] and [context.DeadlineExceeded]
    are the two values [ctx.Err()] can take; [component.ErrTypeClosed] is the
    lifecycle sentinel; every other error is identified by its message. *)
Inductive error : Type :=
| Canceled
| DeadlineExceeded
| ErrTypeClosed
| Errorf (msg : string).

Global Instance error_eq_dec : EqDecision error.
Proof. solve_decision. Defined.

(** Go's [(T, error)] result pair with a non-nil error in the [Err] case. *)
Inductive result (A : Type) : Type :=
| Ok (a : A)
| Err (e : error).
Arguments Ok {A} a.
Arguments Err {A} e.

(** [time.Duration] and [int] are 64-bit signed integers; arithmetic on them
    wraps around. *)
Definition wrap64 (z : Z) : Z := (z + 2 ^ 63) mod 2 ^ 64 - 2 ^ 63.

Abbreviation Duration := Z (only parsing).
Definition Millisecond : Duration := 1000000.
Definition Second : Duration := 1000000000.

(** An entry of a component's logger ([log.Modular], [service.Logger]): the
    level and the formatted message. *)
Inductive Level : Type :=
| DEBUG
| ERROR.

Abbreviation LogEntry := (Level * string)%type (only parsing).

(** The line feed that ends the format string of some log entries. *)
Definition LF : string := String (Ascii.ascii_of_nat 10) EmptyString.

(** ** message: parts, batches and the copy-on-write metadata layer *)

Module message.

(** Values stored in metadata ([any] in Go); the processors below store an
    [int] and a [time.Duration]. *)
Inductive value : Type :=
| VInt (n : Z)
| VDuration (d : Duration)
| VString (s : string).

Global Instance value_eq_dec : EqDecision value.
Proof. solve_decision. Defined.

(** [*message.Part] is an address into the part table of the store; a
    metadata map is an address into the table of maps. *)
Abbreviation Part := nat (only parsing).
Abbreviation mapref := nat (only parsing).
Abbreviation Batch := (list nat) (only parsing).

(** Modelled from the spec: the [message] package is not under src/.  A part
    is "an opaque byte payload, a mutable metadata mapping from string keys to
    arbitrary values, and an optional error tag"; a shallow copy shares the
    metadata map with its original, and the [readOnlyMeta] flag is the
    copy-on-write layer in front of that shared map. *)
Record messageData : Type := {
  rawBytes : list Byte.byte;
  err : option error;
  readOnlyMeta : bool;
  metadata : mapref;
}.

Record Store : Type := {
  parts : list messageData;
  metas : list (gmap string value);
}.

Definition emptyStore : Store := {| parts := []; metas := [] |}.

Definition metaOf (st : Store) (d : messageData) : gmap string value :=
  default ∅ (metas st !! metadata d).

(** What a reader of the part can see: payload, metadata set, error tag. *)
Record View : Type := {
  v_bytes : list Byte.byte;
  v_meta : gmap string value;
  v_err : option error;
}.

Definition observe (st : Store) (p : Part) : option View :=
  d ← parts st !! p;
  Some {| v_bytes := rawBytes d; v_meta := metaOf st d; v_err := err d |}.

(** Modelled from the spec: [message.NewPart]. *)
Definition NewPart (b : list Byte.byte) (st : Store) : Part * Store :=
  (length (parts st),
   {| parts := parts st ++ [{| rawBytes := b; err := None;
                               readOnlyMeta := false;
                               metadata := length (metas st) |}];
      metas := metas st ++ [∅] |}).

(** Modelled from the spec: [Part.ShallowCopy].  Both the original and the
    copy are flagged read-only for metadata and keep referring to the same
    map; payload and error tag are copied.  An address outside the table does
    not occur in a Go program; the store is then left as it is. *)
Definition ShallowCopy (p : Part) (st : Store) : Part * Store :=
  match parts st !! p with
  | Some d =>
      let d' := {| rawBytes := rawBytes d; err := err d;
                   readOnlyMeta := true; metadata := metadata d |} in
      (length (parts st),
       {| parts := <[p := d']> (parts st) ++ [d']; metas := metas st |})
  | None => (p, st)
  end.

(** Modelled from the spec: [Part.AsBytes] and [Part.SetBytes]; the
    payload is replaced, never written in place. *)
Definition AsBytes (p : Part) (st : Store) : list Byte.byte :=
  from_option rawBytes [] (parts st !! p).

Definition SetBytes (p : Part) (b : list Byte.byte) (st : Store) : Store :=
  match parts st !! p with
  | Some d =>
      {| parts := <[p := {| rawBytes := b; err := err d;
                            readOnlyMeta := readOnlyMeta d;
                            metadata := metadata d |}]> (parts st);
         metas := metas st |}
  | None => st
  end.

(** Modelled from the spec: [Part.ErrorGet] and [Part.ErrorSet]. *)
Definition ErrorGet (p : Part) (st : Store) : option error :=
  d ← parts st !! p; err d.

Definition ErrorSet (p : Part) (e : option error) (st : Store) : Store :=
  match parts st !! p with
  | Some d =>
      {| parts := <[p := {| rawBytes := rawBytes d; err := e;
                            readOnlyMeta := readOnlyMeta d;
                            metadata := metadata d |}]> (parts st);
         metas := metas st |}
  | None => st
  end.

(** Modelled from the spec: [Part.MetaGetMut]. *)
Definition MetaGetMut (p : Part) (k : string) (st : Store) : option value :=
  d ← parts st !! p; metaOf st d !! k.

(** Modelled from the spec: metadata writes "go through a copy-on-write
    layer".  A part flagged read-only first clones the shared map into a map
    of its own and clears the flag; otherwise the map is updated in place. *)
Definition metaWrite (f : gmap string value → gmap string value)
    (p : Part) (st : Store) : Store :=
  match parts st !! p with
  | Some d =>
      if readOnlyMeta d then
        {| parts := <[p := {| rawBytes := rawBytes d; err := err d;
                              readOnlyMeta := false;
                              metadata := length (metas st) |}]> (parts st);
           metas := metas st ++ [f (metaOf st d)] |}
      else
        {| parts := parts st;
           metas := <[metadata d := f (metaOf st d)]> (metas st) |}
  | None => st
  end.

Definition MetaSetMut (p : Part) (k : string) (v : value) (st : Store) : Store :=
  metaWrite (λ m, <[k := v]> m) p st.

Definition MetaDelete (p : Part) (k : string) (st : Store) : Store :=
  metaWrite (λ m, delete k m) p st.

(** The copy-on-write discipline seen from one part [p]: [p] is in the table,
    its metadata map exists, and every other part that refers to the same map
    is flagged read-only. *)
Definition isolated (st : Store) (p : Part) : Prop :=
  ∃ d, parts st !! p = Some d
       ∧ (metadata d < length (metas st))%nat
       ∧ ∀ q d', q ≠ p → parts st !! q = Some d' →
                 metadata d' = metadata d → readOnlyMeta d' = true.

(** Every part of the table refers to a metadata map of the table. *)
Definition wellFormed (st : Store) : Prop :=
  ∀ q d, parts st !! q = Some d → (metadata d < length (metas st))%nat.

(** The view of a part once its error tag is cleared. *)
Definition cleared (v : View) : View :=
  {| v_bytes := v_bytes v; v_meta := v_meta v; v_err := None |}.

(** [keeps p st st']: going from [st] to [st'] changes neither what [p] shows
    nor its isolation. *)
Definition keeps (p : Part) (st st' : Store) : Prop :=
  ∀ v, isolated st p → observe st p = Some v →
       isolated st' p ∧ observe st' p = Some v
       ∧ (length (parts st) ≤ length (parts st'))%nat.

End message.

(** ** processor: opaque processors, error marking *)

Module processor.
Import message.

(** The child processors of [retry] and the expression executor of
    [mapping]/[mutation] are opaque code.  Such code reaches the store only
    through the methods of the parts it holds a pointer to; [Prog A] is a
    program over those methods that ends with a value of type [A]. *)
Inductive Prog (A : Type) : Type :=
| Ret (a : A)
| DoAsBytes (p : Part) (k : list Byte.byte → Prog A)
| DoSetBytes (p : Part) (b : list Byte.byte) (k : Prog A)
| DoMetaGet (p : Part) (key : string) (k : option value → Prog A)
| DoMetaSet (p : Part) (key : string) (v : value) (k : Prog A)
| DoMetaDelete (p : Part) (key : string) (k : Prog A)
| DoErrorGet (p : Part) (k : option error → Prog A)
| DoErrorSet (p : Part) (e : option error) (k : Prog A)
| DoShallowCopy (p : Part) (k : Part → Prog A)
| DoNewPart (b : list Byte.byte) (k : Part → Prog A).
Arguments Ret {A} a.
Arguments DoAsBytes {A} p k.
Arguments DoSetBytes {A} p b k.
Arguments DoMetaGet {A} p key k.
Arguments DoMetaSet {A} p key v k.
Arguments DoMetaDelete {A} p key k.
Arguments DoErrorGet {A} p k.
Arguments DoErrorSet {A} p e k.
Arguments DoShallowCopy {A} p k.
Arguments DoNewPart {A} b k.

(** The store together with the pointers the opaque code holds: the parts it
    was handed and the parts it created.  Go pointers cannot be forged, so a
    method call through an address that is not held has no effect. *)
Record Heap : Type := {
  store : Store;
  held : list Part;
}.

Definition holds (h : Heap) (p : Part) : bool := bool_decide (p ∈ held h).

Definition onStore (f : Store → Store) (h : Heap) : Heap :=
  {| store := f (store h); held := held h |}.

Definition hand (p : Part) (h : Heap) : Heap :=
  {| store := store h; held := p :: held h |}.

Definition alloc (r : Part * Store) (h : Heap) : Part * Heap :=
  (r.1, {| store := r.2; held := r.1 :: held h |}).

Fixpoint run {A : Type} (c : Prog A) (h : Heap) : A * Heap :=
  match c with
  | Ret a => (a, h)
  | DoAsBytes p k =>
      run (k (if holds h p then AsBytes p (store h) else [])) h
  | DoSetBytes p b k =>
      run k (if holds h p then onStore (SetBytes p b) h else h)
  | DoMetaGet p key k =>
      run (k (if holds h p then MetaGetMut p key (store h) else None)) h
  | DoMetaSet p key v k =>
      run k (if holds h p then onStore (MetaSetMut p key v) h else h)
  | DoMetaDelete p key k =>
      run k (if holds h p then onStore (MetaDelete p key) h else h)
  | DoErrorGet p k =>
      run (k (if holds h p then ErrorGet p (store h) else None)) h
  | DoErrorSet p e k =>
      run k (if holds h p then onStore (ErrorSet p e) h else h)
  | DoShallowCopy p k =>
      if holds h p then
        let '(c', h') := alloc (ShallowCopy p (store h)) h in run (k c') h'
      else run (k p) h
  | DoNewPart b k =>
      let '(c', h') := alloc (NewPart b (store h)) h in run (k c') h'
  end.

(** Events of the tracing span of a part, as [MarkErr] emits them. *)
Inductive SpanEvent : Type :=
| SetTag (span : nat) (key val : string)
| LogKV (span : nat) (kvs : list (string * string)).

Definition errorString (e : error) : string :=
  match e with
  | Canceled => "context canceled"
  | DeadlineExceeded => "context deadline exceeded"
  | ErrTypeClosed => "type was closed"
  | Errorf msg => msg
  end.

(** [MarkErr] (internal/component/processor/error.go).  [part] and [span] may
    be nil; [active] stands for [tracing.GetActiveSpan], which is not under
    src/.  The result is the store and the span events emitted. *)
Definition MarkErr (active : Part → option nat)
    (part : option Part) (span : option nat) (err : option error)
    (st : Store) : Store * list SpanEvent :=
  match err with
  | None => (st, [])
  | Some e =>
      let st := match part with
                | Some p => ErrorSet p (Some e) st
                | None => st
                end in
      let span := match span, part with
                  | None, Some p => active p
                  | _, _ => span
                  end in
      match span with
      | Some s =>
          (st, [SetTag s "error" "true";
                LogKV s [("event", "error"); ("type", errorString e)]])
      | None => (st, [])
      end
  end.

End processor.

(** ** retry: [retryProc.dispatchMessage] and [retryProc.ProcessBatch] *)

Module retry.
Import message processor.

(** [backoff.Stop] of github.com/cenkalti/backoff/v4, an external dependency:
    [const Stop time.Duration = -1], the value [NextBackOff] returns when no
    more retries should be made. *)
Definition Stop : Duration := -1.

Section dispatch.

(** State of the child processors between two executions (counters,
    connections, pointers kept from earlier calls). *)
Context {ChildSt : Type}.

(** [processor.ExecuteAll(ctx, r.children, batch)]: neither that function nor
    the children are under src/; the call is an opaque program that ends with
    the new state of the children and the [(batches, err)] pair. *)
Variable ExecuteAll : ChildSt → Batch → Prog (ChildSt * result (list Batch)).

(** [r.maxRetries]. *)
Variable maxRetries : Z.

(** [boff.NextBackOff()] on the reset copy of [r.boff]: the value returned by
    the call made in iteration [k] of the loop (the library draws it from the
    clock and a random factor). *)
Variable NextBackOff : nat → Duration.

(** The [select] of iteration [k]: [None] when [time.After(nextSleep)] fires,
    [Some e] when [ctx.Done()] fires first, with [e = ctx.Err()]. *)
Variable ctxDone : nat → option error.

Record World : Type := {
  heap : Heap;
  children : ChildSt;
  log : list LogEntry;
}.

Definition logDebug (msg : string) (w : World) : World :=
  {| heap := heap w; children := children w; log := log w ++ [(DEBUG, msg)] |}.

(** The local variables of [dispatchMessage] that live across iterations. *)
Record Vars : Type := {
  world : World;
  retries : Z;
  backoffDuration : Duration;
}.

Inductive Step : Type :=
| Continue (v : Vars)
| Return (v : Vars) (resBatches : list Batch) (err : option error).

(** The [errorChecks] loop. *)
Definition hasFailed (st : Store) (resBatches : list Batch) : bool :=
  existsb (λ b, existsb (λ m, bool_decide (ErrorGet m st ≠ None)) b)
          resBatches.

(** One execution of the children on [message.Batch{p.ShallowCopy()}]. *)
Definition executeChildren (p : Part) (w : World)
    : World * result (list Batch) :=
  let '(c, st) := ShallowCopy p (store (heap w)) in
  let h := hand c {| store := st; held := held (heap w) |} in
  let '((cs, res), h') := run (ExecuteAll (children w) [c]) h in
  ({| heap := h'; children := cs; log := log w |}, res).

(** The body of the [for] loop, iteration [k] (counted from 0). *)
Definition iteration (p : Part) (k : nat) (v : Vars) : Step :=
  let '(w, res) := executeChildren p (world v) in
  match res with
  | Err e =>
      Return {| world := w; retries := retries v;
                backoffDuration := backoffDuration v |} [] (Some e)
  | Ok resBatches =>
      if negb (hasFailed (store (heap w)) resBatches) then
        Return {| world := w; retries := retries v;
                  backoffDuration := backoffDuration v |} resBatches None
      else
        let retries := wrap64 (retries v + 1) in
        if retries =? maxRetries then
          Return {| world := logDebug "Error occurred and maximum number of retries was reached." w;
                    retries := retries;
                    backoffDuration := backoffDuration v |} resBatches None
        else
          let nextSleep := NextBackOff k in
          let backoffDuration := wrap64 (backoffDuration v + nextSleep) in
          if nextSleep =? Stop then
            Return {| world := logDebug "Error occurred and maximum wait period was reached." w;
                      retries := retries;
                      backoffDuration := backoffDuration |} resBatches None
          else
            let w := logDebug "Error occurred, sleeping for next backoff period." w in
            let v' := {| world := w; retries := retries;
                         backoffDuration := backoffDuration |} in
            match ctxDone k with
            | None => Continue v'
            | Some e => Return v' [] (Some e)
            end
  end.

(** The [for] loop; [None] when [fuel] iterations were not enough. *)
Fixpoint loop (fuel : nat) (p : Part) (k : nat) (v : Vars) : option Step :=
  match fuel with
  | O => None
  | S fuel' =>
      match iteration p k v with
      | Continue v' => loop fuel' p (S k) v'
      | ret => Some ret
      end
  end.

(** The deferred function: every part of [resBatches] is stamped. *)
Definition stampPart (retries : Z) (backoffDuration : Duration)
    (st : Store) (m : Part) : Store :=
  MetaSetMut m "backoff_duration" (VDuration backoffDuration)
    (MetaSetMut m "retry_count" (VInt retries) st).

Definition stamp (retries : Z) (backoffDuration : Duration)
    (resBatches : list Batch) (st : Store) : Store :=
  foldl (λ st b, foldl (stampPart retries backoffDuration) st b) st resBatches.

(** The variables before the first iteration: [retries := 0], the zero
    [backoffDuration], and [p.ErrorSet(nil)]. *)
Definition enter (p : Part) (w : World) : Vars :=
  {| world := {| heap := onStore (ErrorSet p None) (heap w);
                 children := children w; log := log w |};
     retries := 0;
     backoffDuration := 0 |}.

(** [dispatchMessage]: the world on return and the [(resBatches, err)] pair. *)
Definition dispatchMessage (fuel : nat) (p : Part) (w : World)
    : option (World * list Batch * option error) :=
  match loop fuel p 0 (enter p w) with
  | Some (Return v resBatches err) =>
      let w' := world v in
      Some ({| heap := onStore (stamp (retries v) (backoffDuration v) resBatches)
                               (heap w');
               children := children w'; log := log w' |},
            resBatches, err)
  | _ => None
  end.

(** [ProcessBatch] with [parallel: false]: the parts are dispatched one after
    the other and a fatal error aborts the batch.  With [parallel: true] the
    same [dispatchMessage] runs in one goroutine per part; that branch is
    not embedded. *)
Fixpoint processSerial (fuel : nat) (msgs : Batch) (resMsg : Batch) (w : World)
    : option (World * result (list Batch)) :=
  match msgs with
  | [] => Some (w, Ok [resMsg])
  | p :: msgs' =>
      match dispatchMessage fuel p w with
      | None => None
      | Some (w', _, Some e) => Some (w', Err e)
      | Some (w', tmp, None) =>
          processSerial fuel msgs' (resMsg ++ concat tmp) w'
      end
  end.

Definition ProcessBatch (fuel : nat) (msgs : Batch) (w : World)
    : option (World * result (list Batch)) :=
  processSerial fuel msgs [] w.

(** The variables at the start of iteration [k], when the loop gets there. *)
Fixpoint varsAt (p : Part) (k : nat) (v0 : Vars) : option Vars :=
  match k with
  | O => Some v0
  | S k' =>
      match varsAt p k' v0 with
      | Some v =>
          match iteration p k' v with
          | Continue v' => Some v'
          | Return _ _ _ => None
          end
      | None => None
      end
  end.

(** The time slept in the first [k] backoff periods. *)
Fixpoint slept (k : nat) : Duration :=
  match k with
  | O => 0
  | S k' => slept k' + NextBackOff k'
  end.

(** The calls of [dispatchMessage] on the parts [msgs], one after the other:
    the first starts from world [w], each returns a nil error and the result
    listed for it in [tmps], each starts from the world the one before it
    left, and the last leaves world [w']. *)
Fixpoint dispatched (fuel : nat) (w : World) (msgs : Batch)
    (tmps : list (list Batch)) (w' : World) : Prop :=
  match msgs, tmps with
  | [], [] => w' = w
  | p :: msgs', tmp :: tmps' =>
      ∃ w1, dispatchMessage fuel p w = Some (w1, tmp, None)
            ∧ dispatched fuel w1 msgs' tmps' w'
  | _, _ => False
  end.

End dispatch.

(** Both metadata fields of the deferred function are on part [m]. *)
Definition stamped (r : Z) (bd : Duration) (st : Store) (m : Part) : Prop :=
  MetaGetMut m "retry_count" st = Some (VInt r)
  ∧ MetaGetMut m "backoff_duration" st = Some (VDuration bd).

(** The children do not hold [p], [p] is isolated, and it shows [v]. *)
Definition untouched {ChildSt : Type} (p : Part) (v : View)
    (w : World (ChildSt := ChildSt)) : Prop :=
  (p ∉ held (heap w))
  ∧ isolated (store (heap w)) p
  ∧ observe (store (heap w)) p = Some v.

(** Children that, handed one part of the table, always come back with a
    tagged part and no fatal error. *)
Definition alwaysErrors {ChildSt : Type}
    (ExecuteAll : ChildSt → Batch → Prog (ChildSt * result (list Batch)))
    : Prop :=
  ∀ cs c h, is_Some (parts (store h) !! c) → ∃ res,
    (run (ExecuteAll cs [c]) (hand c h)).1.2 = Ok res
    ∧ hasFailed (store (run (ExecuteAll cs [c]) (hand c h)).2) res = true.

(** A program that reads and writes part [c] only, and makes no part. *)
Inductive confined {A : Type} (c : Part) : Prog A → Prop :=
| cf_Ret a : confined c (Ret a)
| cf_AsBytes k : (∀ x, confined c (k x)) → confined c (DoAsBytes c k)
| cf_SetBytes b k : confined c k → confined c (DoSetBytes c b k)
| cf_MetaGet key k : (∀ x, confined c (k x)) → confined c (DoMetaGet c key k)
| cf_MetaSet key v k : confined c k → confined c (DoMetaSet c key v k)
| cf_MetaDelete key k : confined c k → confined c (DoMetaDelete c key k)
| cf_ErrorGet k : (∀ x, confined c (k x)) → confined c (DoErrorGet c k)
| cf_ErrorSet e k : confined c k → confined c (DoErrorSet c e k).

End retry.

(** ** rate_limit: [rateLimitProc.Process] *)

Module rate_limit.
Import message.

(** What [r.mgr.AccessRateLimit(ctx, r.rlName, func(rl) { waitFor, err =
    rl.Access(ctx) })] did in one iteration: [accessed] is what [rl.Access]
    assigned to [(waitFor, err)] when the closure ran, and [rerr] is the
    error of [AccessRateLimit] itself.  The manager and the rate-limit
    resource are not under src/. *)
Record AccessOutcome : Type := {
  accessed : option (Duration * option error);
  rerr : option error;
}.

(** Which case of the [select] fires. *)
Inductive Select : Type :=
| TimeAfter
| CtxDone (ctxErr : error)
| CloseChan.

(** What the environment does in iteration [k]: the access, the value of
    [ctx.Err()] right after it, and the case of the [select]. *)
Record Env : Type := {
  access : nat → AccessOutcome;
  ctxErr : nat → option error;
  selected : nat → Select;
}.

(** [Process]; the result is [(parts, err, log)], with [[]] for a nil slice,
    and [None] when [fuel] iterations were not enough. *)
Fixpoint ProcessFrom (env : Env) (fuel : nat) (k : nat) (msg : Part)
    (log : list LogEntry)
    : option (list Part * option error * list LogEntry) :=
  match fuel with
  | O => None
  | S fuel' =>
      let waitFor : Duration := 0 in
      let err : option error := None in
      let '(waitFor, err) :=
        match accessed (access env k) with
        | Some r => r
        | None => (waitFor, err)
        end in
      let err := match rerr (access env k) with
                 | Some e => Some e
                 | None => err
                 end in
      if bool_decide (ctxErr env k ≠ None) then Some ([], err, log)
      else
        let '(waitFor, log) :=
          match err with
          | Some e =>
              (Second,
               log ++ [(ERROR, "Failed to access rate limit: "
                               +:+ processor.errorString e)])
          | None => (waitFor, log)
          end in
        if waitFor =? 0 then Some ([msg], None, log)
        else
          match selected env k with
          | TimeAfter => ProcessFrom env fuel' (S k) msg log
          | CtxDone e => Some ([], Some e, log)
          | CloseChan => Some ([], Some ErrTypeClosed, log)
          end
  end.

Definition Process (env : Env) (fuel : nat) (msg : Part)
    (log : list LogEntry)
    : option (list Part * option error * list LogEntry) :=
  ProcessFrom env fuel 0 msg log.

(** What an iteration makes of the access: the value of [err] once [rerr]
    was looked at, and the time to wait before the next access. *)
Definition accessErr (o : AccessOutcome) : option error :=
  match rerr o with
  | Some e => Some e
  | None => match accessed o with
            | Some r => r.2
            | None => None
            end
  end.

Definition waitFor (o : AccessOutcome) : Duration :=
  match accessErr o with
  | Some _ => Second
  | None => match accessed o with
            | Some r => r.1
            | None => 0
            end
  end.

(** The entries logged by the failed accesses among the first [k]. *)
Fixpoint failures (env : Env) (k : nat) : list LogEntry :=
  match k with
  | O => []
  | S k' =>
      failures env k'
      ++ match accessErr (access env k') with
         | Some e => [(ERROR, "Failed to access rate limit: "
                              +:+ processor.errorString e)]
         | None => []
         end
  end.

End rate_limit.

(** ** mapping and mutation: [mappingProc.ProcessBatch], [mutationProc.ProcessBatch] *)

Module mapper.
Import message processor.

(** Modelled from the spec: [processor.BatchProcContext] is not under src/.
    It carries the tracing spans of the parts of the batch, by index. *)
Record BatchProcContext : Type := {
  spans : list nat;
  activeSpan : Part → option nat;
}.

(** Modelled from the spec: [BatchProcContext.OnError] is not under src/; "if
    a processor returns an error for a specific Part it marks that Part's
    error tag and any active trace span", which is [MarkErr] on the part and
    on the span of its index. *)
Definition OnError (ctx : BatchProcContext) (err : error) (index : nat)
    (p : Part) (st : Store) : Store * list SpanEvent :=
  MarkErr (activeSpan ctx) (Some p) (spans ctx !! index) (Some err) st.

Section executor.

(** State of the expression executor between two calls. *)
Context {ExecSt : Type}.

Record World : Type := {
  heap : Heap;
  exec : ExecSt;
  log : list LogEntry;
  trace : list SpanEvent;
}.

(** A call of the executor: [m.exec.MapPart(i, b)] for mapping,
    [m.exec.MapOnto(msg, i, b)] for mutation.  The result is the pair
    [(newPart, err)], with [Ok None] for a nil part and a nil error. *)
Definition Call := ExecSt → Part → nat → Batch → Prog (ExecSt * result (option Part)).

(** One iteration of [for i, msg := range b]. *)
Definition step (call : Call) (ctx : BatchProcContext) (b : Batch)
    (i : nat) (msg : Part) (s : World * Batch) : World * Batch :=
  let '(w, newBatch) := s in
  let '((es, r), h) := run (call (exec w) msg i b) (heap w) in
  match r with
  | Err e =>
      let '(st, evs) := OnError ctx e i msg (store h) in
      ({| heap := {| store := st; held := held h |}; exec := es;
          log := log w ++ [(ERROR, errorString e)];
          trace := trace w ++ evs |},
       newBatch ++ [msg])
  | Ok newPart =>
      ({| heap := h; exec := es; log := log w; trace := trace w |},
       match newPart with
       | Some np => newBatch ++ [np]
       | None => newBatch
       end)
  end.

Fixpoint range (call : Call) (ctx : BatchProcContext) (b : Batch)
    (i : nat) (rest : Batch) (s : World * Batch) : World * Batch :=
  match rest with
  | [] => s
  | msg :: rest' => range call ctx b (S i) rest' (step call ctx b i msg s)
  end.

(** The executor is handed the batch.  The result is the world on return and
    the pair [(batches, err)], with [[]] for a nil slice. *)
Definition processBatch (call : Call) (ctx : BatchProcContext) (b : Batch)
    (w : World) : World * list Batch * option error :=
  let w0 := {| heap := {| store := store (heap w); held := b ++ held (heap w) |};
               exec := exec w; log := log w; trace := trace w |} in
  let '(w', newBatch) := range call ctx b 0 b (w0, []) in
  if (length newBatch =? 0)%nat then (w', [], None)
  else (w', [newBatch], None).

(** The state after the first [i] iterations. *)
Definition stateAt (call : Call) (ctx : BatchProcContext) (b : Batch)
    (w : World) (i : nat) : World * Batch :=
  range call ctx b 0 (take i b)
    ({| heap := {| store := store (heap w); held := b ++ held (heap w) |};
        exec := exec w; log := log w; trace := trace w |}, []).

End executor.

(** A program that never calls [ErrorSet]. *)
Inductive noErrorSet {A : Type} : Prog A → Prop :=
| nes_Ret a : noErrorSet (Ret a)
| nes_AsBytes p k : (∀ x, noErrorSet (k x)) → noErrorSet (DoAsBytes p k)
| nes_SetBytes p b k : noErrorSet k → noErrorSet (DoSetBytes p b k)
| nes_MetaGet p key k : (∀ x, noErrorSet (k x)) → noErrorSet (DoMetaGet p key k)
| nes_MetaSet p key v k : noErrorSet k → noErrorSet (DoMetaSet p key v k)
| nes_MetaDelete p key k : noErrorSet k → noErrorSet (DoMetaDelete p key k)
| nes_ErrorGet p k : (∀ x, noErrorSet (k x)) → noErrorSet (DoErrorGet p k)
| nes_ShallowCopy p k : (∀ x, noErrorSet (k x)) → noErrorSet (DoShallowCopy p k)
| nes_NewPart b k : (∀ x, noErrorSet (k x)) → noErrorSet (DoNewPart b k).

(** What [ProcessBatch] owes a part whose mapping failed, for an executor
    call [call] and the outcome [out] of processing batch [b] from world
    [w]. *)
Definition keepsFailedParts {ExecSt : Type} (call : Call (ExecSt := ExecSt))
    (ctx : BatchProcContext) (b : Batch) (w : World)
    (out : World * list Batch * option error) : Prop :=
  let final := stateAt call ctx b w (length b) in
  out.2 = None
  ∧ out.1.1 = final.1
  ∧ out.1.2 = (if decide (final.2 = []) then [] else [final.2])
  ∧ ∀ i msg es e h,
      b !! i = Some msg →
      is_Some (parts (store (heap w)) !! msg) →
      run (call (exec (stateAt call ctx b w i).1) msg i b)
          (heap (stateAt call ctx b w i).1) = ((es, Err e), h) →
      (∃ pre post, out.1.2 = [pre ++ msg :: post])
      ∧ ErrorGet msg (store (heap (stateAt call ctx b w (S i)).1)) = Some e
      ∧ ((∀ es' m' i', noErrorSet (call es' m' i' b)) →
         ErrorGet msg (store (heap out.1.1)) ≠ None).

(** The pair [(newPart, err)] of the executor call of iteration [i], and what
    that iteration appends to [newBatch] and to the log. *)
Definition outcomeAt {ExecSt : Type} (call : Call (ExecSt := ExecSt))
    (ctx : BatchProcContext) (b : Batch) (w : World) (i : nat) (msg : Part)
    : result (option Part) :=
  let s := stateAt call ctx b w i in
  (run (call (exec s.1) msg i b) (heap s.1)).1.2.

Definition appended {ExecSt : Type} (call : Call (ExecSt := ExecSt))
    (ctx : BatchProcContext) (b : Batch) (w : World) (i : nat) (msg : Part)
    : list Part :=
  match outcomeAt call ctx b w i msg with
  | Err _ => [msg]
  | Ok (Some newPart) => [newPart]
  | Ok None => []
  end.

Definition logged {ExecSt : Type} (call : Call (ExecSt := ExecSt))
    (ctx : BatchProcContext) (b : Batch) (w : World) (i : nat) (msg : Part)
    : list LogEntry :=
  match outcomeAt call ctx b w i msg with
  | Err e => [(ERROR, errorString e)]
  | Ok _ => []
  end.

End mapper.

Module mappingProc.
Import message processor mapper.

Section mapping.
Context {ExecSt : Type}.

(** [m.exec.MapPart(i, b)]; the executor is not under src/. *)
Variable MapPart : ExecSt → nat → Batch → Prog (ExecSt * result (option Part)).

Definition ProcessBatch (ctx : BatchProcContext) (b : Batch)
    (w : World (ExecSt := ExecSt)) : World * list Batch * option error :=
  processBatch (λ es _ i b, MapPart es i b) ctx b w.

End mapping.
End mappingProc.

Module mutationProc.
Import message processor mapper.

Section mutation.
Context {ExecSt : Type}.

(** [m.exec.MapOnto(msg, i, b)]; the executor is not under src/. *)
Variable MapOnto : ExecSt → Part → nat → Batch → Prog (ExecSt * result (option Part)).

Definition ProcessBatch (ctx : BatchProcContext) (b : Batch)
    (w : World (ExecSt := ExecSt)) : World * list Batch * option error :=
  processBatch (λ es msg i b, MapOnto es msg i b) ctx b w.

End mutation.
End mutationProc.

(** ** sync_response: [syncResponseProc.ProcessBatch] *)

Module sync_response.
Import message.

Section sync.

(** What the transaction carries for synchronous responses. *)
Context {Tx : Type}.

(** Modelled from the spec: [transaction.SetAsResponse] is not under src/; it
    "stamps the current batch as the synchronous response carried by the
    transaction" and may fail.  It reads the batch and works on what the
    transaction carries. *)
Variable SetAsResponse : Batch → Store → Tx → Tx * option error.

Record World : Type := {
  store : Store;
  tx : Tx;
  log : list LogEntry;
}.

Definition ProcessBatch (msg : Batch) (w : World)
    : World * list Batch * option error :=
  let '(tx', err) := SetAsResponse msg (store w) (tx w) in
  let log' :=
    match err with
    | Some e =>
        log w ++ [(DEBUG, "Failed to store message as a sync response: "
                          +:+ processor.errorString e +:+ LF)]
    | None => log w
    end in
  ({| store := store w; tx := tx'; log := log' |}, [msg], None).

End sync.
End sync_response.

(** ** manager: the label registry of the resource manager *)

Module manager.

(** The five kinds of resources, with the name each kind has in the
    diagnostics asserted by the tests of the manager. *)
Inductive Kind : Type :=
| Cache
| RateLimit
| Processor
| Input
| Output.

Global Instance Kind_eq_dec : EqDecision Kind.
Proof. solve_decision. Defined.

Definition kindName (k : Kind) : string :=
  match k with
  | Cache => "cache"
  | RateLimit => "rate limit"
  | Processor => "processor"
  | Input => "input"
  | Output => "output"
  end.

(** A component configuration, as far as the registry reads it. *)
Record Config : Type := {
  Label : string;
  Type_ : string;
}.

Record ResourceConfig : Type := {
  ResourceCaches : list Config;
  ResourceRateLimits : list Config;
  ResourceProcessors : list Config;
  ResourceInputs : list Config;
  ResourceOutputs : list Config;
}.

Definition NewResourceConfig : ResourceConfig :=
  {| ResourceCaches := []; ResourceRateLimits := []; ResourceProcessors := [];
     ResourceInputs := []; ResourceOutputs := [] |}.

Definition resourcesOf (k : Kind) (conf : ResourceConfig) : list Config :=
  match k with
  | Cache => ResourceCaches conf
  | RateLimit => ResourceRateLimits conf
  | Processor => ResourceProcessors conf
  | Input => ResourceInputs conf
  | Output => ResourceOutputs conf
  end.

(** Modelled from the spec: [manager.Type] is not under src/ (only its tests
    are).  "Five label→object mappings (caches, rate-limits, processors,
    inputs, outputs)". *)
Record Type_manager : Type := {
  caches : gmap string Config;
  rateLimits : gmap string Config;
  processors : gmap string Config;
  inputs : gmap string Config;
  outputs : gmap string Config;
}.

Definition table (k : Kind) (m : Type_manager) : gmap string Config :=
  match k with
  | Cache => caches m
  | RateLimit => rateLimits m
  | Processor => processors m
  | Input => inputs m
  | Output => outputs m
  end.

Definition setTable (k : Kind) (t : gmap string Config) (m : Type_manager)
    : Type_manager :=
  match k with
  | Cache => {| caches := t; rateLimits := rateLimits m;
                processors := processors m; inputs := inputs m;
                outputs := outputs m |}
  | RateLimit => {| caches := caches m; rateLimits := t;
                    processors := processors m; inputs := inputs m;
                    outputs := outputs m |}
  | Processor => {| caches := caches m; rateLimits := rateLimits m;
                    processors := t; inputs := inputs m;
                    outputs := outputs m |}
  | Input => {| caches := caches m; rateLimits := rateLimits m;
                processors := processors m; inputs := t;
                outputs := outputs m |}
  | Output => {| caches := caches m; rateLimits := rateLimits m;
                 processors := processors m; inputs := inputs m;
                 outputs := t |}
  end.

(** Modelled from the spec: registering one resource at construction.
    "Labels are globally unique per mapping at construction; duplicate or
    empty labels fail construction"; the diagnostics are those the tests
    under src/ assert ([TestManagerCacheListErrors] and its siblings).  The
    label is not matched against a pattern: [TestManagerProcessorLabels] is
    skipped with "No longer validating labels at construction". *)
Definition addResource (k : Kind) (t : gmap string Config) (c : Config)
    : result (gmap string Config) :=
  if bool_decide (Label c = "") then
    Err (Errorf (kindName k +:+ " resource has an empty label"))
  else if bool_decide (is_Some (t !! Label c)) then
    Err (Errorf (kindName k +:+ " resource label '" +:+ Label c
                 +:+ "' collides with a previously defined resource"))
  else Ok (<[Label c := c]> t).

Fixpoint addResources (k : Kind) (t : gmap string Config) (cs : list Config)
    : result (gmap string Config) :=
  match cs with
  | [] => Ok t
  | c :: cs' =>
      match addResource k t c with
      | Ok t' => addResources k t' cs'
      | Err e => Err e
      end
  end.

(** Modelled from the spec: [manager.New], kind by kind. *)
Definition New (conf : ResourceConfig) : result Type_manager :=
  match addResources Cache ∅ (ResourceCaches conf) with
  | Err e => Err e
  | Ok c =>
  match addResources RateLimit ∅ (ResourceRateLimits conf) with
  | Err e => Err e
  | Ok r =>
  match addResources Processor ∅ (ResourceProcessors conf) with
  | Err e => Err e
  | Ok p =>
  match addResources Input ∅ (ResourceInputs conf) with
  | Err e => Err e
  | Ok i =>
  match addResources Output ∅ (ResourceOutputs conf) with
  | Err e => Err e
  | Ok o =>
      Ok {| caches := c; rateLimits := r; processors := p; inputs := i;
            outputs := o |}
  end end end end end.

(** Modelled from the spec: [Probe<Kind>(name) → bool] and
    [Store<Kind>(ctx, name, config) → err], which files the resource under
    its name in the mapping of its kind. *)
Definition Probe (k : Kind) (name : string) (m : Type_manager) : bool :=
  bool_decide (is_Some (table k m !! name)).

Definition Store (k : Kind) (name : string) (conf : Config) (m : Type_manager)
    : Type_manager * option error :=
  (setTable k (<[name := conf]> (table k m)) m, None).

(** [s] occurs in [t]. *)
Definition contains (t s : string) : Prop :=
  ∃ pre post, t = pre +:+ s +:+ post.

(** What construction asks of a configuration: within every kind, no empty
    label and no label twice. *)
Definition accepted (conf : ResourceConfig) : Prop :=
  ∀ k, Forall (λ c, Label c ≠ "") (resourcesOf k conf)
       ∧ NoDup (Label <$> resourcesOf k conf).

End manager.

(** ** compress: [compressProc.Process] *)

Module compress.
Import message.

Section compress.

(** [c.comp], a [CompressFunc]: the algorithms are not under src/. *)
Variable comp : Z → list Byte.byte → result (list Byte.byte).

(** [c.level]. *)
Variable level : Z.

(** [Process]; the result is the store, the log and the pair
    [(parts, err)], with [[]] for a nil slice. *)
Definition Process (msg : Part) (st : Store) (log : list LogEntry)
    : Store * list LogEntry * (list Part * option error) :=
  match comp level (AsBytes msg st) with
  | Err e =>
      (st,
       log ++ [(ERROR, "Failed to compress message: "
                       +:+ processor.errorString e +:+ LF)],
       ([], Some e))
  | Ok newBytes => (SetBytes msg newBytes st, log, ([msg], None))
  end.

End compress.
End compress.

(** ** websocket: the writer of the websocket output *)

Module websocket.
Import message.

(** The errors the writer tells apart: [component.ErrNotConnected],
    [websocket.ErrCloseSent], an error that wraps another one, and any other
    error. *)
Inductive neterror : Type :=
| ErrNotConnected
| ErrCloseSent
| Wrap (msg : string) (e : neterror)
| Other (msg : string).

(** [errors.Is(err, websocket.ErrCloseSent)]: the chain of wrapped errors is
    followed. *)
Fixpoint isCloseSent (e : neterror) : bool :=
  match e with
  | ErrCloseSent => true
  | Wrap _ e' => isCloseSent e'
  | _ => false
  end.

(** [*websocket.Conn]: connections are told apart by a number. *)
Abbreviation Conn := nat (only parsing).

(** What the writer and the goroutines it starts do to the outside, in
    order: the request signer is called, the dialer dials, the body of the
    handshake response is closed, the goroutine that reads from the
    connection is started, the parts of a batch are written with [msg.Iter],
    the connection is closed by [Close], the connection is closed by its
    goroutine. *)
Inductive Event : Type :=
| EvSign
| EvDial (url : string) (proxy : option string) (tls : bool)
| EvBodyClose
| EvReader (c : Conn)
| EvIter (c : Conn) (msg : Batch)
| EvClose (c : Conn)
| EvReaderClose (c : Conn).

(** [client, res, err = dialer.Dial(...)]; [hasRes] is [res != nil]. *)
Inductive DialOutcome : Type :=
| DialOk (c : Conn) (hasRes : bool)
| DialErr (e : neterror) (hasRes : bool).

(** The outside (the signer, gorilla's dialer and connections, and
    [message.Batch.Iter], none of them under src/): what each call returns,
    given the number of events before it. *)
Record Env : Type := {
  reqSigner : nat → option neterror;
  Dial : nat → DialOutcome;
  Iter : nat → Conn → Batch → option neterror;
  ConnClose : nat → Conn → option neterror;
}.

(** The fields of [websocketWriter] that its methods read or write, and the
    events so far. *)
Record websocketWriter : Type := {
  client : option Conn;
  urlStr : string;
  proxyURLParsed : option string;
  tlsEnabled : bool;
  trace : list Event;
}.

Definition update (c : option Conn) (evs : list Event) (w : websocketWriter)
    : websocketWriter :=
  {| client := c; urlStr := urlStr w; proxyURLParsed := proxyURLParsed w;
     tlsEnabled := tlsEnabled w; trace := trace w ++ evs |}.

(** The deferred [res.Body.Close()]. *)
Definition bodyClose (hasRes : bool) : list Event :=
  if hasRes then [EvBodyClose] else [].

(** [Connect].  The goroutine it starts for the new connection ([EvReader])
    runs on beside the methods of the writer; what it does when its
    [c.NextReader()] fails is [readFailed] below. *)
Definition Connect (env : Env) (w : websocketWriter)
    : websocketWriter * option neterror :=
  match client w with
  | Some _ => (w, None)
  | None =>
      match reqSigner env (length (trace w)) with
      | Some e => (update None [EvSign] w, Some e)
      | None =>
          let dial := EvDial (urlStr w) (proxyURLParsed w) (tlsEnabled w) in
          match Dial env (S (length (trace w))) with
          | DialErr e hasRes =>
              (update None ([EvSign; dial] ++ bodyClose hasRes) w, Some e)
          | DialOk c hasRes =>
              (update (Some c)
                 ([EvSign; dial; EvReader c] ++ bodyClose hasRes) w,
               None)
          end
      end
  end.

(** [WriteBatch]. *)
Definition WriteBatch (env : Env) (msg : Batch) (w : websocketWriter)
    : websocketWriter * option neterror :=
  match client w with
  | None => (w, Some ErrNotConnected)
  | Some c =>
      match Iter env (length (trace w)) c msg with
      | Some e =>
          (update None [EvIter c msg] w,
           Some (if isCloseSent e then ErrNotConnected else e))
      | None => (update (Some c) [EvIter c msg] w, None)
      end
  end.

(** [Close]. *)
Definition Close (env : Env) (w : websocketWriter)
    : websocketWriter * option neterror :=
  match client w with
  | Some c => (update None [EvClose c] w, ConnClose env (length (trace w)) c)
  | None => (w, None)
  end.

(** Calls of the methods of one writer, one after the other. *)
Inductive Op : Type :=
| OpConnect
| OpWriteBatch (msg : Batch)
| OpClose.

Definition call (env : Env) (op : Op) (w : websocketWriter)
    : websocketWriter * option neterror :=
  match op with
  | OpConnect => Connect env w
  | OpWriteBatch msg => WriteBatch env msg w
  | OpClose => Close env w
  end.

Fixpoint calls (env : Env) (ops : list Op) (w : websocketWriter)
    : websocketWriter * list (option neterror) :=
  match ops with
  | [] => (w, [])
  | op :: ops' =>
      let '(w1, r) := call env op w in
      let '(w2, rs) := calls env ops' w1 in
      (w2, r :: rs)
  end.

(** The writer [newWebsocketWriterFromParsed] returns: no client yet. *)
Definition newWriter (url : string) (proxy : option string) (tls : bool)
    : websocketWriter :=
  {| client := None; urlStr := url; proxyURLParsed := proxy;
     tlsEnabled := tls; trace := [] |}.

(** The goroutines that are running after the events [t], beside the
    goroutines [rs] that ran before them, each named by its connection:
    [Connect] starts one for the connection it dials, and a goroutine ends
    when it has closed its connection. *)
Fixpoint removeOne (c : Conn) (rs : list Conn) : list Conn :=
  match rs with
  | [] => []
  | r :: rs' => if decide (r = c) then rs' else r :: removeOne c rs'
  end.

Definition nextReaders (rs : list Conn) (ev : Event) : list Conn :=
  match ev with
  | EvReader c => rs ++ [c]
  | EvReaderClose c => removeOne c rs
  | _ => rs
  end.

Fixpoint readersAfter (rs : list Conn) (t : list Event) : list Conn :=
  match t with
  | [] => rs
  | ev :: t' => readersAfter (nextReaders rs ev) t'
  end.

(** The goroutine that [Connect] started for connection [c], at the moment
    its [c.NextReader()] fails: it closes [c] and ends.  It takes no lock and
    leaves [w.client] as it is.  A connection without a running goroutine
    has no such step. *)
Definition readFailed (c : Conn) (w : websocketWriter) : websocketWriter :=
  if bool_decide (c ∈ readersAfter [] (trace w))
  then update (client w) [EvReaderClose c] w
  else w.

(** What happens to one writer, one thing after the other: a method is
    called, or the goroutine of a connection sees its read fail. *)
Inductive Step : Type :=
| Called (op : Op)
| ReadFailed (c : Conn).

Fixpoint steps (env : Env) (ss : list Step) (w : websocketWriter)
    : websocketWriter :=
  match ss with
  | [] => w
  | Called op :: ss' => steps env ss' (call env op w).1
  | ReadFailed c :: ss' => steps env ss' (readFailed c w)
  end.

(** The connection the writer has for client once event [ev] has followed
    [n] earlier events that left it with [cur]: a dial that succeeds gives
    its connection, and [Close], a dial that fails and a write that fails
    leave none.  The close of a goroutine changes nothing to it. *)
Definition next (env : Env) (n : nat) (cur : option Conn) (ev : Event)
    : option Conn :=
  match ev with
  | EvDial _ _ _ =>
      match Dial env n with
      | DialOk c _ => Some c
      | DialErr _ _ => None
      end
  | EvIter c msg =>
      match Iter env n c msg with
      | Some _ => None
      | None => cur
      end
  | EvClose _ => None
  | _ => cur
  end.

(** The connection the writer has for client after the events [t]: the one
    of the last dial that succeeded, unless [Close] was called or a write
    to it failed since. *)
Fixpoint clientAfter (env : Env) (n : nat) (cur : option Conn)
    (t : list Event) : option Conn :=
  match t with
  | [] => cur
  | ev :: t' => clientAfter env (S n) (next env n cur ev) t'
  end.

(** An event that fits what was there before it: a write or a [Close] goes
    to the connection the writer has for client, a dial is made only
    without a client, and a goroutine that closes its connection was
    running. *)
Definition fits (cur : option Conn) (rs : list Conn) (ev : Event) : Prop :=
  match ev with
  | EvIter c _ | EvClose c => cur = Some c
  | EvDial _ _ _ => cur = None
  | EvReaderClose c => c ∈ rs
  | _ => True
  end.

Fixpoint allFit (env : Env) (n : nat) (cur : option Conn) (rs : list Conn)
    (t : list Event) : Prop :=
  match t with
  | [] => True
  | ev :: t' =>
      fits cur rs ev
      ∧ allFit env (S n) (next env n cur ev) (nextReaders rs ev) t'
  end.

(** A writer whose client is the one its events leave, and whose events all
    fit. *)
Definition inOrder (env : Env) (w : websocketWriter) : Prop :=
  client w = clientAfter env 0 None (trace w)
  ∧ allFit env 0 None [] (trace w).

End websocket.

(** ** cli: [addExpression] of the create command *)

Module cli.

(** The values [addExpression] stores in [conf], a [map[string]any]:
    strings, maps and slices. *)
#[warnings="-register-all"] Inductive any : Type :=
| AString (s : string)
| AMap (m : gmap string any)
| AList (l : list any).

(** [strings.Split(s, sep)] for a separator of one byte: the pieces of [s]
    between the separators, one more than there are separators. *)
Fixpoint Split (sep : Ascii.ascii) (s : string) : list string :=
  match s with
  | EmptyString => [EmptyString]
  | String c s' =>
      if Ascii.eqb c sep then EmptyString :: Split sep s'
      else match Split sep s' with
           | h :: t => String c h :: t
           | [] => [String c EmptyString]
           end
  end.

Definition slash : Ascii.ascii := Ascii.ascii_of_nat 47.
Definition comma : Ascii.ascii := Ascii.ascii_of_nat 44.

(** [map[string]any{"type": t}]. *)
Definition typeMap (t : string) : any := AMap {["type" := AString t]}.

Record Types : Type := {
  inputTypes : list string;
  processorTypes : list string;
  outputTypes : list string;
}.

Section addExpression.

(** [strings.TrimSpace], of the Go standard library. *)
Variable TrimSpace : string → string.

(** [bundle.AllInputs.DocsFor(t)], [bundle.AllProcessors.DocsFor(t)] and
    [bundle.AllOutputs.DocsFor(t)], as far as [exists] goes: the registered
    components are not under src/. *)
Variable inputExists : string → bool.
Variable processorExists : string → bool.
Variable outputExists : string → bool.

(** The [switch i] on a type [t] that is not empty. *)
Definition addType (i : nat) (t : string) (ts : Types) : result Types :=
  match i with
  | 0%nat => Ok {| inputTypes := inputTypes ts ++ [t];
                   processorTypes := processorTypes ts;
                   outputTypes := outputTypes ts |}
  | 1%nat => Ok {| inputTypes := inputTypes ts;
                   processorTypes := processorTypes ts ++ [t];
                   outputTypes := outputTypes ts |}
  | 2%nat => Ok {| inputTypes := inputTypes ts;
                   processorTypes := processorTypes ts;
                   outputTypes := outputTypes ts ++ [t] |}
  | _ => Err (Errorf "more component separators than expected")
  end.

(** [for _, t := range strings.Split(str, ",")]. *)
Fixpoint rangeTypes (i : nat) (split : list string) (ts : Types)
    : result Types :=
  match split with
  | [] => Ok ts
  | t :: split' =>
      let t := TrimSpace t in
      if bool_decide (t ≠ "") then
        match addType i t ts with
        | Ok ts' => rangeTypes i split' ts'
        | Err e => Err e
        end
      else rangeTypes i split' ts
  end.

(** [for i, str := range componentTypes]. *)
Fixpoint rangeComponents (i : nat) (componentTypes : list string) (ts : Types)
    : result Types :=
  match componentTypes with
  | [] => Ok ts
  | str :: rest =>
      match rangeTypes i (Split comma str) ts with
      | Ok ts' => rangeComponents (S i) rest ts'
      | Err e => Err e
      end
  end.

(** The loops that build [inputsList], [procsList] and [outputsList]: every
    type has to be one of the registered components of its [kind]. *)
Fixpoint typesList (exists_ : string → bool) (kind : string)
    (types : list string) (lst : list any) : result (list any) :=
  match types with
  | [] => Ok lst
  | t :: types' =>
      if exists_ t then typesList exists_ kind types' (lst ++ [typeMap t])
      else Err (Errorf ("unrecognised " +:+ kind +:+ " type '" +:+ t +:+ "'"))
  end.

(** The block that sets [conf["input"]], and with other names
    [conf["output"]]: one type gives the component, several give a broker
    of them. *)
Definition setComponent (exists_ : string → bool) (kind key plural : string)
    (types : list string) (conf : gmap string any)
    : result (gmap string any) :=
  match types with
  | [] => Ok conf
  | [t] =>
      if exists_ t then Ok (<[key := typeMap t]> conf)
      else Err (Errorf ("unrecognised " +:+ kind +:+ " type '" +:+ t +:+ "'"))
  | _ =>
      match typesList exists_ kind types [] with
      | Ok lst =>
          Ok (<[key := AMap {["broker" := AMap {[plural := AList lst]}]}]> conf)
      | Err e => Err e
      end
  end.

(** The block that sets [conf["pipeline"]]. *)
Definition setPipeline (types : list string) (conf : gmap string any)
    : result (gmap string any) :=
  match types with
  | [] => Ok conf
  | _ =>
      match typesList processorExists "processor" types [] with
      | Ok lst => Ok (<["pipeline" := AMap {["processors" := AList lst]}]> conf)
      | Err e => Err e
      end
  end.

(** [addExpression]: [conf] on return, and the error. *)
Definition addExpression (conf : gmap string any) (expression : string)
    : gmap string any * option error :=
  match rangeComponents 0 (Split slash expression)
          {| inputTypes := []; processorTypes := []; outputTypes := [] |} with
  | Err e => (conf, Some e)
  | Ok ts =>
      match setComponent inputExists "input" "input" "inputs"
              (inputTypes ts) conf with
      | Err e => (conf, Some e)
      | Ok conf1 =>
          match setPipeline (processorTypes ts) conf1 with
          | Err e => (conf1, Some e)
          | Ok conf2 =>
              match setComponent outputExists "output" "output" "outputs"
                      (outputTypes ts) conf2 with
              | Err e => (conf2, Some e)
              | Ok conf3 => (conf3, None)
              end
          end
      end
  end.

(** The types of one list of the expression: what is between the commas,
    trimmed, when that is not empty. *)
Definition typesAmong (split : list string) : list string :=
  filter (λ t, t ≠ "") (TrimSpace <$> split).

Definition typesOf (str : string) : list string :=
  typesAmong (Split comma str).

(** The types of the list of index [i] of the expression; none when the
    expression has no such list. *)
Definition typesAt (i : nat) (expression : string) : list string :=
  match Split slash expression !! i with
  | Some str => typesOf str
  | None => []
  end.

(** The component of one type, and the broker of several. *)
Definition component (plural : string) (types : list string) : any :=
  match types with
  | [t] => typeMap t
  | _ => AMap {["broker" := AMap {[plural := AList (typeMap <$> types)]}]}
  end.

(** [conf] with the sections of the lists of types that are not empty. *)
Definition withInput (types : list string) (conf : gmap string any)
    : gmap string any :=
  match types with
  | [] => conf
  | _ => <["input" := component "inputs" types]> conf
  end.

Definition withPipeline (types : list string) (conf : gmap string any)
    : gmap string any :=
  match types with
  | [] => conf
  | _ => <["pipeline" := AMap {["processors" := AList (typeMap <$> types)]}]> conf
  end.

Definition withOutput (types : list string) (conf : gmap string any)
    : gmap string any :=
  match types with
  | [] => conf
  | _ => <["output" := component "outputs" types]> conf
  end.

(** No list after the third holds a type. *)
Definition threeLists (expression : string) : Prop :=
  ∀ i, (3 ≤ i)%nat → typesAt i expression = [].

End addExpression.
End cli.

(** ** batcher: the output that batches what it is sent *)

Module batcher.
Import message.

(** [message.Transaction]: a payload and the function that acknowledges it,
    told apart by a number. *)
Record Transaction : Type := {
  Payload : Batch;
  Ack : nat;
}.

(** What the loop and its deferred function do to the outside, in order. *)
Inductive Event : Type :=
| Send (sendMsg : Batch) (upstreamTrans : list Transaction)
| CloseMessagesOut
| ChildTriggerCloseNow
| ChildWaitForClose
| BatcherClose
| TriggerHasStopped.

(** The case of the inner [select], entered when the input is closed while
    a timed batch is awaited. *)
Inductive Waited : Type :=
| TimerFired
| StopFired.

(** The case of the [select] at the head of an iteration. *)
Inductive Wake : Type :=
| Received (tran : Transaction)
| InputClosed (waited : Waited)
| TimedOut
| SoftStopped.

(** What the outside does during one iteration: whether the soft stop is
    signalled when the condition of the loop is looked at, the case of the
    [select], and whether the soft stop wins the [select] around the send. *)
Record Choice : Type := {
  stopSignalled : bool;
  wake : Wake;
  sendStopped : bool;
}.

Section loop.

(** [policy.Batcher] is not under src/: its state, and its methods as the
    loop calls them.  [UntilNext] reads the clock and [Flush] is handed a
    context, so both also depend on the iteration they are called in. *)
Context {Policy : Type}.
Variable Add : Part → Policy → Policy * bool.
Variable Flush : nat → Policy → Policy * option Batch.
Variable Count : Policy → nat.
Variable UntilNext : nat → Policy → Duration.

(** [transaction.NewTracked(tran.Payload, tran.Ack)] followed by
    [trackedTran.Message()]: the batch of the tracked transaction.  The
    [transaction] package is not under src/. *)
Variable Message : Transaction → Batch.

(** The local variables of [loop] and the state of the policy. *)
Record Vars : Type := {
  policy : Policy;
  nextTimedBatchChan : bool;
  pendingTrans : list Transaction;
  events : list Event;
}.

Inductive Step : Type :=
| Continue (v : Vars)
| Return (v : Vars).

(** Modelled from the spec: [Iter] of the [message] package is not under
    src/; "for each Part in the incoming batch, call [Add]".  The closure
    handed to it never returns an error, so every part is added, in order. *)
Definition addAll (parts : Batch) (b : Policy) : Policy * bool :=
  foldl (λ s p, let '(b', flushNow) := Add p s.1 in (b', s.2 || flushNow))
        (b, false) parts.

(** From [if !flushBatch] to the end of the body. *)
Definition flushAndSend (k : nat) (c : Choice) (flushBatch : bool) (v : Vars)
    : Step :=
  if negb flushBatch then Continue v
  else
    let '(b, sendMsg) := Flush k (policy v) in
    let v := {| policy := b; nextTimedBatchChan := nextTimedBatchChan v;
                pendingTrans := pendingTrans v; events := events v |} in
    match sendMsg with
    | None => Continue v
    | Some sendMsg =>
        if sendStopped c then Return v
        else Continue {| policy := b;
                         nextTimedBatchChan := nextTimedBatchChan v;
                         pendingTrans := [];
                         events := events v ++ [Send sendMsg (pendingTrans v)] |}
    end.

(** The body of the [for] loop, iteration [k]; [None] when the choice is
    not one the outside has: a nil channel never fires. *)
Definition iteration (k : nat) (c : Choice) (v : Vars) : option Step :=
  let timer :=
    if nextTimedBatchChan v then true else 0 <? UntilNext k (policy v) in
  let v := {| policy := policy v; nextTimedBatchChan := timer;
              pendingTrans := pendingTrans v; events := events v |} in
  match wake c with
  | Received tran =>
      let '(b, flushBatch) := addAll (Message tran) (policy v) in
      Some (flushAndSend k c flushBatch
              {| policy := b; nextTimedBatchChan := timer;
                 pendingTrans := pendingTrans v ++ [tran];
                 events := events v |})
  | InputClosed _ =>
      if (0 <? Count (policy v))%nat then Some (flushAndSend k c true v)
      else Some (Return v)
  | TimedOut =>
      if timer then
        Some (flushAndSend k c true
                {| policy := policy v; nextTimedBatchChan := false;
                   pendingTrans := pendingTrans v; events := events v |})
      else None
  | SoftStopped => Some (flushAndSend k c true v)
  end.

(** The deferred function. *)
Definition deferred (v : Vars) : Vars :=
  {| policy := policy v; nextTimedBatchChan := nextTimedBatchChan v;
     pendingTrans := pendingTrans v;
     events := events v ++ [CloseMessagesOut; ChildTriggerCloseNow;
                            ChildWaitForClose; BatcherClose;
                            TriggerHasStopped] |}.

(** The [for] loop from iteration [k] on, for the choices the outside makes.
    The result is the variables and whether the loop was left; [None] when
    a choice is not one the outside has. *)
Fixpoint iterations (k : nat) (cs : list Choice) (v : Vars)
    : option (Vars * bool) :=
  match cs with
  | [] => Some (v, false)
  | c :: cs' =>
      if stopSignalled c then Some (deferred v, true)
      else
        match iteration k c v with
        | None => None
        | Some (Return v') => Some (deferred v', true)
        | Some (Continue v') => iterations (S k) cs' v'
        end
  end.

(** [loop]: the timer is looked at once before the first iteration. *)
Definition loop (b : Policy) (cs : list Choice) : option (Vars * bool) :=
  iterations 1 cs
    {| policy := b; nextTimedBatchChan := 0 <? UntilNext 0 b;
       pendingTrans := []; events := [] |}.

(** The transactions that the choices [cs] let the loop receive. *)
Definition received (cs : list Choice) : list Transaction :=
  omap (λ c, match wake c with
             | Received tran => Some tran
             | _ => None
             end) cs.

(** The transactions handed to the goroutines that acknowledge, and the
    parts sent. *)
Definition upstream (ev : Event) : list Transaction :=
  match ev with
  | Send _ upstreamTrans => upstreamTrans
  | _ => []
  end.

Definition sentParts (ev : Event) : Batch :=
  match ev with
  | Send sendMsg _ => sendMsg
  | _ => []
  end.

Definition vars (s : Step) : Vars :=
  match s with
  | Continue v => v
  | Return v => v
  end.

(** The transactions handed over so far, then those that are pending. *)
Definition ledger (v : Vars) : list Transaction :=
  concat (upstream <$> events v) ++ pendingTrans v.

(** The parts sent so far. *)
Definition sent (v : Vars) : Batch := concat (sentParts <$> events v).

(** The transaction one choice lets the loop receive, and its parts. *)
Definition receivedBy (c : Choice) : list Transaction :=
  match wake c with
  | Received tran => [tran]
  | _ => []
  end.

Definition partsBy (c : Choice) : Batch :=
  concat (Message <$> receivedBy c).

End loop.

(** [Impl], as far as [Consume] goes: whether [messagesIn] is set, the calls
    of [child.Consume] so far and the loops started. *)
Record Impl : Type := {
  messagesIn : option nat;
  childConsumed : nat;
  loops : nat;
}.

Inductive consumeError : Type :=
| ErrAlreadyStarted
| ChildError (e : error).

(** [Consume]; [msgs] is [None] for a nil channel, and [childConsume] is
    what [m.child.Consume(m.messagesOut)] returns at its call number [n]. *)
Definition Consume (childConsume : nat → option error) (msgs : option nat)
    (m : Impl) : Impl * option consumeError :=
  match messagesIn m with
  | Some _ => (m, Some ErrAlreadyStarted)
  | None =>
      match childConsume (childConsumed m) with
      | Some e =>
          ({| messagesIn := None; childConsumed := S (childConsumed m);
              loops := loops m |},
           Some (ChildError e))
      | None =>
          ({| messagesIn := msgs; childConsumed := S (childConsumed m);
              loops := S (loops m) |},
           None)
      end
  end.

Fixpoint Consumes (childConsume : nat → option error)
    (msgss : list (option nat)) (m : Impl) : Impl :=
  match msgss with
  | [] => m
  | msgs :: msgss' =>
      Consumes childConsume msgss' (Consume childConsume msgs m).1
  end.

End batcher.

(** ** Scenarios: concrete children, executors, worlds and configurations *)

Module scenarios.
Import message processor.

Definition bytes (s : string) : list Byte.byte :=
  String.list_byte_of_string s.

(** Children that hand the batch on as it is. *)
Definition passThrough {S : Type} (cs : S) (b : Batch)
    : Prog (S * result (list Batch)) :=
  Ret (cs, Ok [b]).

(** A child that tags every part it is handed and counts its executions. *)
Fixpoint tagAll (e : error) (b : Batch) {A : Type} (k : Prog A) : Prog A :=
  match b with
  | [] => k
  | m :: b' => DoErrorSet m (Some e) (tagAll e b' k)
  end.

Definition alwaysFail (n : nat) (b : Batch)
    : Prog (nat * result (list Batch)) :=
  tagAll (Errorf "request failed") b (Ret (S n, Ok [b])).

(** A child that overwrites payload and metadata and tags the part on its
    first two executions, and appends "!" to the payload on the third. *)
Definition flaky (n : nat) (b : Batch)
    : Prog (nat * result (list Batch)) :=
  match b with
  | [c] =>
      if (n <? 2)%nat then
        DoSetBytes c (bytes "junk")
          (DoMetaSet c "attempt" (VInt (Z.of_nat n))
             (DoErrorSet c (Some (Errorf "request failed"))
                (Ret (S n, Ok [[c]]))))
      else
        DoAsBytes c (λ bs, DoSetBytes c (bs ++ bytes "!") (Ret (S n, Ok [[c]])))
  | _ => Ret (n, Ok [b])
  end.

(** One part with payload "x" that arrives tagged by an upstream error. *)
Definition store_x : Store :=
  ErrorSet 0 (Some (Errorf "upstream")) (NewPart (bytes "x") emptyStore).2.

Definition world_x : retry.World (ChildSt := nat) :=
  {| retry.heap := {| store := store_x; held := [] |}; retry.children := 0%nat;
     retry.log := [] |}.

(** Backoff intervals of 100ms, 100ms, then 0s. *)
Definition backoff_100ms (k : nat) : Duration :=
  match k with
  | 0%nat | 1%nat => 100 * Millisecond
  | _ => 0
  end.

(** A context that is never cancelled. *)
Definition neverDone (k : nat) : option error := None.

(** The context is cancelled while the rate limit is accessed; the resource
    does not look at the context and admits the part. *)
Definition cancelledDuringAccess : rate_limit.Env :=
  {| rate_limit.access :=
       λ _, {| rate_limit.accessed := Some (0, None); rate_limit.rerr := None |};
     rate_limit.ctxErr := λ _, Some Canceled;
     rate_limit.selected := λ _, rate_limit.TimeAfter |}.

(** Configurations for the registry: a resource labelled [l], a configuration
    with caches only, and one with the same resource in each kind. *)
Definition labelled (l : string) : manager.Config :=
  {| manager.Label := l; manager.Type_ := "memory" |}.

Definition onlyCaches (cs : list manager.Config) : manager.ResourceConfig :=
  {| manager.ResourceCaches := cs;
     manager.ResourceRateLimits := [];
     manager.ResourceProcessors := [];
     manager.ResourceInputs := [];
     manager.ResourceOutputs := [] |}.

Definition everyKind (c : manager.Config) : manager.ResourceConfig :=
  {| manager.ResourceCaches := [c];
     manager.ResourceRateLimits := [c];
     manager.ResourceProcessors := [c];
     manager.ResourceInputs := [c];
     manager.ResourceOutputs := [c] |}.

(** A mapping that fails on the part of index 1 and maps the others onto
    themselves. *)
Definition failsOnSecond (es : unit) (i : nat) (b : Batch)
    : Prog (unit * result (option nat)) :=
  match i with
  | 1%nat => Ret (es, Err (Errorf "failed assignment (line 1)"))
  | _ => Ret (es, Ok (b !! i))
  end.

(** Three parts with payloads "a", "b" and "c". *)
Definition store_abc : Store :=
  (NewPart (bytes "c")
     (NewPart (bytes "b") (NewPart (bytes "a") emptyStore).2).2).2.

Definition world_abc : mapper.World (ExecSt := unit) :=
  {| mapper.heap := {| store := store_abc; held := [] |}; mapper.exec := tt;
     mapper.log := []; mapper.trace := [] |}.

Definition noSpans : mapper.BatchProcContext :=
  {| mapper.spans := []; mapper.activeSpan := λ _, None |}.

(** A store without the copies of any failed execution: four parts, of which
    the last shows payload "x" and is held by the children. *)
Definition heap_clean : Heap :=
  hand 3
    {| store := (NewPart (bytes "x")
                   (NewPart (bytes "c")
                      (NewPart (bytes "b")
                         (NewPart (bytes "a") emptyStore).2).2).2).2;
       held := [] |}.

(** Two parts, with payloads "x" and "y". *)
Definition world_xy : retry.World (ChildSt := nat) :=
  {| retry.heap :=
       {| store := (NewPart (bytes "y") (NewPart (bytes "x") emptyStore).2).2;
          held := [] |};
     retry.children := 0%nat; retry.log := [] |}.

(** Children that end with a fatal error. *)
Definition brokenPipe {S : Type} (cs : S) (b : Batch)
    : Prog (S * result (list Batch)) :=
  Ret (cs, Err (Errorf "broken pipe")).

(** A context that is cancelled during the first sleep. *)
Definition cancelledWhileAsleep (k : nat) : option error := Some Canceled.

(** A rate limit that fails on the first access, asks for 50ms on the second
    and admits on the third; the context is never done. *)
Definition admitsOnThird : rate_limit.Env :=
  {| rate_limit.access := λ k,
       match k with
       | 0%nat => {| rate_limit.accessed := None;
                     rate_limit.rerr := Some (Errorf "not found") |}
       | 1%nat => {| rate_limit.accessed := Some (50 * Millisecond, None);
                     rate_limit.rerr := None |}
       | _ => {| rate_limit.accessed := Some (0, None);
                 rate_limit.rerr := None |}
       end;
     rate_limit.ctxErr := λ _, None;
     rate_limit.selected := λ _, rate_limit.TimeAfter |}.

(** A peer that has sent its close frame: every write fails with an error
    that wraps [ErrCloseSent]; dialling succeeds. *)
Definition closingPeer : websocket.Env :=
  {| websocket.reqSigner := λ _, None;
     websocket.Dial := λ n, websocket.DialOk n true;
     websocket.Iter := λ _ _ _,
       Some (websocket.Wrap "write" websocket.ErrCloseSent);
     websocket.ConnClose := λ _ _, None |}.

(** [strings.TrimSpace] on text whose only white space is the space
    character. *)
Fixpoint trimLeft (s : string) : string :=
  match s with
  | String c s' => if Ascii.eqb c (Ascii.ascii_of_nat 32) then trimLeft s' else s
  | EmptyString => EmptyString
  end.

Fixpoint trimRight (s : string) : string :=
  match s with
  | EmptyString => EmptyString
  | String c s' =>
      match trimRight s' with
      | EmptyString =>
          if Ascii.eqb c (Ascii.ascii_of_nat 32) then EmptyString
          else String c EmptyString
      | r => String c r
      end
  end.

Definition trimSpaces (s : string) : string := trimRight (trimLeft s).

(** Registered components: two inputs, two processors, one output. *)
Definition someInputs (t : string) : bool :=
  bool_decide (t ∈ ["stdin"; "file"]).

Definition someProcessors (t : string) : bool :=
  bool_decide (t ∈ ["bloblang"; "awk"]).

Definition someOutputs (t : string) : bool :=
  bool_decide (t ∈ ["nats"]).

(** A policy that flushes at two parts: its state is the parts added since
    the last flush. *)
Definition addOfTwo (p : nat) (b : list nat) : list nat * bool :=
  (b ++ [p], (2 <=? length (b ++ [p]))%nat).

Definition flushAll (k : nat) (b : list nat) : list nat * option (list nat) :=
  ([], match b with
       | [] => None
       | _ => Some b
       end).

(** Two transactions of one and two parts, then the input is closed. *)
Definition twoTransactions : list batcher.Choice :=
  [ {| batcher.stopSignalled := false;
       batcher.wake := batcher.Received
                         {| batcher.Payload := [0%nat]; batcher.Ack := 0 |};
       batcher.sendStopped := false |};
    {| batcher.stopSignalled := false;
       batcher.wake := batcher.Received
                         {| batcher.Payload := [1%nat; 2%nat];
                            batcher.Ack := 1 |};
       batcher.sendStopped := false |};
    {| batcher.stopSignalled := false;
       batcher.wake := batcher.InputClosed batcher.TimerFired;
       batcher.sendStopped := false |} ].

(** A compression that doubles the payload, and fails on an empty one. *)
Definition doubling (level : Z) (b : list Byte.byte)
    : result (list Byte.byte) :=
  match b with
  | [] => Err (Errorf "nothing to compress")
  | _ => Ok (b ++ b)
  end.

End scenarios.

(** * Facts *)

(** ** The store: frames, well-formedness, metadata *)

Module message_facts.
Import message.

Lemma keeps_refl p st : keeps p st st.
Proof. intros v Hi Ho. auto. Qed.

Lemma keeps_trans p st1 st2 st3 :
  keeps p st1 st2 → keeps p st2 st3 → keeps p st1 st3.
Proof.
  intros H12 H23 v Hi Ho.
  destruct (H12 v Hi Ho) as (Hi2 & Ho2 & Hl2).
  destruct (H23 v Hi2 Ho2) as (Hi3 & Ho3 & Hl3).
  repeat split; auto. lia.
Qed.

Lemma observe_unfold st p :
  observe st p =
  match parts st !! p with
  | Some d => Some {| v_bytes := rawBytes d; v_meta := metaOf st d; v_err := err d |}
  | None => None
  end.
Proof. unfold observe. destruct (parts st !! p); reflexivity. Qed.

(** Replacing the record of another part by one with the same metadata
    reference and read-only flag. *)
Lemma keeps_update_other p q st d d' :
  q ≠ p → parts st !! q = Some d →
  metadata d' = metadata d → readOnlyMeta d' = readOnlyMeta d →
  keeps p st {| parts := <[q := d']> (parts st); metas := metas st |}.
Proof.
  intros Hne Hq Hm Hr v (dp & Hp & Hlt & Hiso) Ho.
  split; [|split].
  - exists dp. simpl. rewrite list_lookup_insert_ne by done.
    split; [done|]. split; [done|].
    intros q' d'' Hne' Hq' Hmeta.
    destruct (decide (q' = q)) as [->|Hqq].
    + rewrite list_lookup_insert_eq in Hq' by (eapply lookup_lt_Some; eauto).
      injection Hq' as <-. rewrite Hr. eapply Hiso; eauto. congruence.
    + rewrite list_lookup_insert_ne in Hq' by done. eauto.
  - rewrite observe_unfold in *. simpl.
    rewrite list_lookup_insert_ne by done. rewrite Hp in Ho |- *. exact Ho.
  - simpl. rewrite length_insert. lia.
Qed.

Lemma keeps_SetBytes p q b st : q ≠ p → keeps p st (SetBytes q b st).
Proof.
  intros Hne. unfold SetBytes. destruct (parts st !! q) as [d|] eqn:Hq.
  - eapply keeps_update_other; eauto.
  - apply keeps_refl.
Qed.

Lemma keeps_ErrorSet p q e st : q ≠ p → keeps p st (ErrorSet q e st).
Proof.
  intros Hne. unfold ErrorSet. destruct (parts st !! q) as [d|] eqn:Hq.
  - eapply keeps_update_other; eauto.
  - apply keeps_refl.
Qed.

Lemma keeps_metaWrite p q f st : q ≠ p → keeps p st (metaWrite f q st).
Proof.
  intros Hne. unfold metaWrite. destruct (parts st !! q) as [d|] eqn:Hq.
  2: apply keeps_refl.
  destruct (readOnlyMeta d) eqn:Hro.
  - intros v (dp & Hp & Hlt & Hiso) Ho. split; [|split].
    + exists dp. simpl. rewrite list_lookup_insert_ne by done.
      split; [done|]. split; [rewrite length_app; simpl; lia|].
      intros q' d'' Hne' Hq' Hmeta.
      destruct (decide (q' = q)) as [->|Hqq].
      * rewrite list_lookup_insert_eq in Hq' by (eapply lookup_lt_Some; eauto).
        injection Hq' as <-. simpl in Hmeta. lia.
      * rewrite list_lookup_insert_ne in Hq' by done. eauto.
    + rewrite observe_unfold in *. simpl.
      rewrite list_lookup_insert_ne by done. rewrite Hp in Ho |- *.
      unfold metaOf in *. simpl. rewrite lookup_app_l by done. exact Ho.
    + simpl. rewrite length_insert. lia.
  - intros v (dp & Hp & Hlt & Hiso) Ho.
    assert (metadata d ≠ metadata dp) as Hmd.
    { intros Heq. specialize (Hiso q d Hne Hq Heq). congruence. }
    split; [|split].
    + exists dp. simpl. split; [done|]. split; [rewrite length_insert; done|].
      exact Hiso.
    + rewrite observe_unfold in *. simpl. rewrite Hp in Ho |- *.
      unfold metaOf in *. simpl. rewrite list_lookup_insert_ne by done. exact Ho.
    + simpl. lia.
Qed.

Lemma keeps_ShallowCopy p q st : keeps p st (ShallowCopy q st).2.
Proof.
  unfold ShallowCopy. destruct (parts st !! q) as [d|] eqn:Hq.
  2: apply keeps_refl.
  simpl. intros v (dp & Hp & Hlt & Hiso) Ho.
  pose proof (lookup_lt_Some _ _ _ Hp) as Hplt.
  pose proof (lookup_lt_Some _ _ _ Hq) as Hqlt.
  destruct (decide (q = p)) as [->|Hne].
  - assert (d = dp) as -> by congruence.
    split; [|split].
    + eexists. simpl. split.
      { rewrite lookup_app_l by (rewrite length_insert; done).
        apply list_lookup_insert_eq. done. }
      simpl. split; [done|].
      intros q' d'' Hne' Hq' Hmeta.
      destruct (decide (q' < length (parts st))%nat) as [Hlt'|Hge].
      * rewrite lookup_app_l in Hq' by (rewrite length_insert; done).
        rewrite list_lookup_insert_ne in Hq' by done. eauto.
      * rewrite lookup_app_r in Hq' by (rewrite length_insert; lia).
        apply list_lookup_singleton_Some in Hq' as [_ <-]. done.
    + rewrite observe_unfold in *. simpl.
      rewrite lookup_app_l by (rewrite length_insert; done).
      rewrite list_lookup_insert_eq by done. rewrite Hp in Ho. exact Ho.
    + simpl. rewrite length_app, length_insert. lia.
  - split; [|split].
    + exists dp. simpl. split.
      { rewrite lookup_app_l by (rewrite length_insert; done).
        rewrite list_lookup_insert_ne by done. done. }
      split; [done|].
      intros q' d'' Hne' Hq' Hmeta.
      destruct (decide (q' < length (parts st))%nat) as [Hlt'|Hge].
      * rewrite lookup_app_l in Hq' by (rewrite length_insert; done).
        destruct (decide (q' = q)) as [->|Hqq].
        -- rewrite list_lookup_insert_eq in Hq' by done. injection Hq' as <-. done.
        -- rewrite list_lookup_insert_ne in Hq' by done. eauto.
      * rewrite lookup_app_r in Hq' by (rewrite length_insert; lia).
        apply list_lookup_singleton_Some in Hq' as [_ <-]. done.
    + rewrite observe_unfold in *. simpl.
      rewrite lookup_app_l by (rewrite length_insert; done).
      rewrite list_lookup_insert_ne by done. rewrite Hp in Ho |- *. exact Ho.
    + simpl. rewrite length_app, length_insert. lia.
Qed.

Lemma keeps_NewPart p b st : keeps p st (NewPart b st).2.
Proof.
  unfold NewPart. simpl. intros v (dp & Hp & Hlt & Hiso) Ho.
  pose proof (lookup_lt_Some _ _ _ Hp) as Hplt.
  split; [|split].
  - exists dp. simpl. rewrite lookup_app_l by done. split; [done|].
    split; [rewrite length_app; simpl; lia|].
    intros q' d'' Hne' Hq' Hmeta.
    destruct (decide (q' < length (parts st))%nat) as [Hlt'|Hge].
    + rewrite lookup_app_l in Hq' by done. eauto.
    + rewrite lookup_app_r in Hq' by lia.
      apply list_lookup_singleton_Some in Hq' as [_ <-]. simpl in Hmeta. lia.
  - rewrite observe_unfold in *. simpl. rewrite lookup_app_l by done.
    rewrite Hp in Ho |- *. unfold metaOf in *. simpl. rewrite lookup_app_l by done.
    exact Ho.
  - simpl. rewrite length_app. lia.
Qed.

Lemma ErrorGet_unfold st p :
  ErrorGet p st = match parts st !! p with Some d => err d | None => None end.
Proof. unfold ErrorGet. destruct (parts st !! p); reflexivity. Qed.

Lemma MetaGetMut_unfold st p k :
  MetaGetMut p k st =
  match parts st !! p with Some d => metaOf st d !! k | None => None end.
Proof. unfold MetaGetMut. destruct (parts st !! p); reflexivity. Qed.

(** *** The table only grows, and well-formedness is kept *)

Lemma wellFormed_update st q d d' :
  wellFormed st → parts st !! q = Some d → metadata d' = metadata d →
  wellFormed {| parts := <[q := d']> (parts st); metas := metas st |}.
Proof.
  intros Hwf Hq Hm q' d'' Hq'. simpl in *.
  destruct (decide (q' = q)) as [->|Hne].
  - rewrite list_lookup_insert_eq in Hq' by (eapply lookup_lt_Some; eauto).
    injection Hq' as <-. rewrite Hm. eauto.
  - rewrite list_lookup_insert_ne in Hq' by done. eauto.
Qed.

Lemma SetBytes_wellFormed q b st : wellFormed st → wellFormed (SetBytes q b st).
Proof.
  intros Hwf. unfold SetBytes. destruct (parts st !! q) eqn:Hq; [|done].
  eapply wellFormed_update; eauto.
Qed.

Lemma ErrorSet_wellFormed q e st : wellFormed st → wellFormed (ErrorSet q e st).
Proof.
  intros Hwf. unfold ErrorSet. destruct (parts st !! q) eqn:Hq; [|done].
  eapply wellFormed_update; eauto.
Qed.

Lemma metaWrite_wellFormed f q st : wellFormed st → wellFormed (metaWrite f q st).
Proof.
  intros Hwf. unfold metaWrite. destruct (parts st !! q) as [d|] eqn:Hq; [|done].
  destruct (readOnlyMeta d).
  - intros q' d' Hq'. simpl in *. rewrite length_app. simpl.
    destruct (decide (q' = q)) as [->|Hne].
    + rewrite list_lookup_insert_eq in Hq' by (eapply lookup_lt_Some; eauto).
      injection Hq' as <-. simpl. lia.
    + rewrite list_lookup_insert_ne in Hq' by done.
      specialize (Hwf _ _ Hq'). lia.
  - intros q' d' Hq'. simpl in *. rewrite length_insert. eauto.
Qed.

Lemma ShallowCopy_wellFormed q st : wellFormed st → wellFormed (ShallowCopy q st).2.
Proof.
  intros Hwf. unfold ShallowCopy. destruct (parts st !! q) as [d|] eqn:Hq; [|done].
  simpl. intros q' d' Hq'. simpl in *.
  pose proof (lookup_lt_Some _ _ _ Hq) as Hqlt.
  destruct (decide (q' < length (parts st))%nat) as [Hlt|Hge].
  - rewrite lookup_app_l in Hq' by (rewrite length_insert; done).
    destruct (decide (q' = q)) as [->|Hne].
    + rewrite list_lookup_insert_eq in Hq' by done. injection Hq' as <-.
      simpl. eauto.
    + rewrite list_lookup_insert_ne in Hq' by done. eauto.
  - rewrite lookup_app_r in Hq' by (rewrite length_insert; lia).
    apply list_lookup_singleton_Some in Hq' as [_ <-]. simpl. eauto.
Qed.

Lemma NewPart_wellFormed b st : wellFormed st → wellFormed (NewPart b st).2.
Proof.
  intros Hwf q' d' Hq'. simpl in *. rewrite length_app. simpl.
  destruct (decide (q' < length (parts st))%nat) as [Hlt|Hge].
  - rewrite lookup_app_l in Hq' by done. specialize (Hwf _ _ Hq'). lia.
  - rewrite lookup_app_r in Hq' by lia.
    apply list_lookup_singleton_Some in Hq' as [_ <-]. simpl. lia.
Qed.

(** *** Error tags and metadata writes *)

Lemma metaWrite_ErrorGet f q m st :
  ErrorGet m (metaWrite f q st) = ErrorGet m st.
Proof.
  unfold metaWrite. destruct (parts st !! q) as [d|] eqn:Hq; [|done].
  destruct (readOnlyMeta d); [|done].
  rewrite !ErrorGet_unfold. simpl.
  destruct (decide (m = q)) as [->|Hne].
  - rewrite list_lookup_insert_eq by (eapply lookup_lt_Some; eauto).
    rewrite Hq. done.
  - rewrite list_lookup_insert_ne by done. done.
Qed.

Lemma metaWrite_valid f q m st :
  is_Some (parts st !! m) → is_Some (parts (metaWrite f q st) !! m).
Proof.
  intros Hm. unfold metaWrite. destruct (parts st !! q) as [d|] eqn:Hq; [|done].
  destruct (readOnlyMeta d); [|done]. simpl.
  apply lookup_lt_is_Some. rewrite length_insert.
  apply lookup_lt_is_Some. done.
Qed.

(** Reading back the key just written. *)
Lemma MetaSetMut_get_eq m k v st :
  wellFormed st → is_Some (parts st !! m) →
  MetaGetMut m k (MetaSetMut m k v st) = Some v.
Proof.
  intros Hwf [d Hm]. unfold MetaSetMut, metaWrite. rewrite Hm.
  pose proof (lookup_lt_Some _ _ _ Hm) as Hlt.
  destruct (readOnlyMeta d); rewrite MetaGetMut_unfold; simpl.
  - rewrite list_lookup_insert_eq by done. unfold metaOf. simpl.
    rewrite lookup_app_r by lia. rewrite Nat.sub_diag. simpl.
    apply lookup_insert_eq.
  - rewrite Hm. unfold metaOf at 1. simpl.
    rewrite list_lookup_insert_eq by eauto. simpl. apply lookup_insert_eq.
Qed.

(** A later write of another key, or of the same value, keeps the entry. *)
Lemma MetaSetMut_get_keep m k v q k' v' st :
  wellFormed st → MetaGetMut m k st = Some v → k' ≠ k ∨ v' = v →
  MetaGetMut m k (MetaSetMut q k' v' st) = Some v.
Proof.
  intros Hwf Hget Hkv. rewrite MetaGetMut_unfold in Hget.
  destruct (parts st !! m) as [dm|] eqn:Hm; [|done].
  assert (<[k' := v']> (metaOf st dm) !! k = Some v) as Hins.
  { destruct Hkv as [Hk| ->].
    - rewrite lookup_insert_ne by done. done.
    - destruct (decide (k' = k)) as [->|Hk].
      + apply lookup_insert_eq.
      + rewrite lookup_insert_ne by done. done. }
  pose proof (Hwf _ _ Hm) as Hmlt.
  unfold MetaSetMut, metaWrite. destruct (parts st !! q) as [dq|] eqn:Hq.
  2: { rewrite MetaGetMut_unfold, Hm. done. }
  pose proof (lookup_lt_Some _ _ _ Hq) as Hqlt.
  destruct (readOnlyMeta dq); rewrite MetaGetMut_unfold; simpl.
  - destruct (decide (m = q)) as [->|Hne].
    + rewrite list_lookup_insert_eq by done. unfold metaOf at 1. simpl.
      rewrite lookup_app_r by lia. rewrite Nat.sub_diag. simpl.
      assert (dq = dm) as -> by congruence. done.
    + rewrite list_lookup_insert_ne by done. rewrite Hm.
      unfold metaOf at 1. simpl. rewrite lookup_app_l by done. done.
  - rewrite Hm. unfold metaOf at 1. simpl.
    destruct (decide (metadata dq = metadata dm)) as [Heq|Hne].
    + rewrite Heq. rewrite list_lookup_insert_eq by done. simpl.
      unfold metaOf in *. rewrite Heq. done.
    + rewrite list_lookup_insert_ne by done. done.
Qed.

Lemma SetBytes_length q b st : length (parts (SetBytes q b st)) = length (parts st).
Proof. unfold SetBytes. destruct (parts st !! q); simpl; rewrite ?length_insert; done. Qed.

Lemma ErrorSet_length q e st : length (parts (ErrorSet q e st)) = length (parts st).
Proof. unfold ErrorSet. destruct (parts st !! q); simpl; rewrite ?length_insert; done. Qed.

Lemma metaWrite_length f q st : length (parts (metaWrite f q st)) = length (parts st).
Proof.
  unfold metaWrite. destruct (parts st !! q) as [d|]; [destruct (readOnlyMeta d)|];
    simpl; rewrite ?length_insert; done.
Qed.

Lemma ShallowCopy_length q st :
  (length (parts st) ≤ length (parts (ShallowCopy q st).2))%nat.
Proof.
  unfold ShallowCopy. destruct (parts st !! q); simpl;
    rewrite ?length_app, ?length_insert; lia.
Qed.

(** *** Error tags under the other methods *)

Lemma ErrorSet_ErrorGet_eq p e st :
  is_Some (parts st !! p) → ErrorGet p (ErrorSet p e st) = e.
Proof.
  intros [d Hp]. rewrite ErrorGet_unfold. unfold ErrorSet. rewrite Hp. simpl.
  rewrite list_lookup_insert_eq by (eapply lookup_lt_Some; eauto). done.
Qed.

Lemma ErrorSet_ErrorGet_ne p q e st :
  q ≠ p → ErrorGet q (ErrorSet p e st) = ErrorGet q st.
Proof.
  intros Hne. rewrite !ErrorGet_unfold. unfold ErrorSet.
  destruct (parts st !! p); [|done]. simpl.
  rewrite list_lookup_insert_ne by done. done.
Qed.

Lemma SetBytes_ErrorGet p q b st : ErrorGet q (SetBytes p b st) = ErrorGet q st.
Proof.
  rewrite !ErrorGet_unfold. unfold SetBytes.
  destruct (parts st !! p) as [d|] eqn:Hp; [|done]. simpl.
  destruct (decide (q = p)) as [->|Hne].
  - rewrite list_lookup_insert_eq by (eapply lookup_lt_Some; eauto).
    rewrite Hp. done.
  - rewrite list_lookup_insert_ne by done. done.
Qed.

Lemma ShallowCopy_ErrorGet p q st :
  is_Some (parts st !! q) → ErrorGet q (ShallowCopy p st).2 = ErrorGet q st.
Proof.
  intros Hq. pose proof (proj1 (lookup_lt_is_Some _ _) Hq) as Hlt.
  rewrite !ErrorGet_unfold. unfold ShallowCopy.
  destruct (parts st !! p) as [d|] eqn:Hp; [|done]. simpl.
  rewrite lookup_app_l by (rewrite length_insert; done).
  destruct (decide (q = p)) as [->|Hne].
  - rewrite list_lookup_insert_eq by done. rewrite Hp. done.
  - rewrite list_lookup_insert_ne by done. done.
Qed.

Lemma NewPart_ErrorGet b q st :
  is_Some (parts st !! q) → ErrorGet q (NewPart b st).2 = ErrorGet q st.
Proof.
  intros Hq. pose proof (proj1 (lookup_lt_is_Some _ _) Hq) as Hlt.
  rewrite !ErrorGet_unfold. simpl. rewrite lookup_app_l by done. done.
Qed.

Lemma valid_mono (st st' : Store) q :
  (length (parts st) ≤ length (parts st'))%nat →
  is_Some (parts st !! q) → is_Some (parts st' !! q).
Proof. intros Hl Hq. apply lookup_lt_is_Some. apply lookup_lt_is_Some in Hq. lia. Qed.

End message_facts.

(** ** Opaque programs *)

Module processor_facts.
Import message processor message_facts.

(** Opaque code that does not hold [p] leaves what [p] shows as it is. *)
Lemma run_keeps {A : Type} (c : Prog A) : ∀ (h : Heap) (p : Part),
  p ∉ held h → (p < length (parts (store h)))%nat →
  keeps p (store h) (store (run c h).2) ∧ p ∉ held (run c h).2.
Proof.
  induction c as [a|q k IH|q b k IH|q key k IH|q key v k IH|q key k IH
                 |q k IH|q e k IH|q k IH|b k IH]; intros h p Hp Hlt; simpl.
  - split; [apply keeps_refl|done].
  - apply IH; done.
  - unfold holds. case_bool_decide as Hq.
    + assert (q ≠ p) as Hne by (intros ->; done).
      pose proof (keeps_SetBytes p q b (store h) Hne) as Hk.
      destruct (IH (onStore (SetBytes q b) h) p) as [Hk' Hh']; [done| |].
      { simpl. unfold SetBytes. destruct (parts (store h) !! q); simpl;
          rewrite ?length_insert; done. }
      split; [|done]. eapply keeps_trans; eauto.
    + apply IH; done.
  - apply IH; done.
  - unfold holds. case_bool_decide as Hq.
    + assert (q ≠ p) as Hne by (intros ->; done).
      pose proof (keeps_metaWrite p q (λ m, <[key:=v]> m) (store h) Hne) as Hk.
      destruct (IH (onStore (MetaSetMut q key v) h) p) as [Hk' Hh']; [done| |].
      { simpl. unfold MetaSetMut, metaWrite.
        destruct (parts (store h) !! q) as [d|]; [destruct (readOnlyMeta d)|];
          simpl; rewrite ?length_insert; done. }
      split; [|done]. eapply keeps_trans; eauto.
    + apply IH; done.
  - unfold holds. case_bool_decide as Hq.
    + assert (q ≠ p) as Hne by (intros ->; done).
      pose proof (keeps_metaWrite p q (λ m, delete key m) (store h) Hne) as Hk.
      destruct (IH (onStore (MetaDelete q key) h) p) as [Hk' Hh']; [done| |].
      { simpl. unfold MetaDelete, metaWrite.
        destruct (parts (store h) !! q) as [d|]; [destruct (readOnlyMeta d)|];
          simpl; rewrite ?length_insert; done. }
      split; [|done]. eapply keeps_trans; eauto.
    + apply IH; done.
  - apply IH; done.
  - unfold holds. case_bool_decide as Hq.
    + assert (q ≠ p) as Hne by (intros ->; done).
      pose proof (keeps_ErrorSet p q e (store h) Hne) as Hk.
      destruct (IH (onStore (ErrorSet q e) h) p) as [Hk' Hh']; [done| |].
      { simpl. unfold ErrorSet. destruct (parts (store h) !! q); simpl;
          rewrite ?length_insert; done. }
      split; [|done]. eapply keeps_trans; eauto.
    + apply IH; done.
  - unfold holds. case_bool_decide as Hq.
    + pose proof (keeps_ShallowCopy p q (store h)) as Hk.
      unfold alloc. simpl.
      destruct (IH (ShallowCopy q (store h)).1
                  {| store := (ShallowCopy q (store h)).2;
                     held := (ShallowCopy q (store h)).1 :: held h |} p)
        as [Hk' Hh'].
      { simpl. unfold ShallowCopy.
        destruct (parts (store h) !! q); simpl; rewrite not_elem_of_cons.
        - split; [lia|done].
        - split; [intros ->; done|done]. }
      { simpl. unfold ShallowCopy. destruct (parts (store h) !! q); simpl;
          rewrite ?length_app, ?length_insert; lia. }
      split; [|done]. eapply keeps_trans; eauto.
    + apply IH; done.
  - pose proof (keeps_NewPart p b (store h)) as Hk.
    unfold alloc. simpl.
    destruct (IH (length (parts (store h)))
                {| store := (NewPart b (store h)).2;
                   held := length (parts (store h)) :: held h |} p)
      as [Hk' Hh'].
    { simpl. rewrite not_elem_of_cons. split; [lia|done]. }
    { simpl. rewrite length_app. lia. }
    split; [|done]. eapply keeps_trans; eauto.
Qed.

Lemma run_wellFormed {A : Type} (c : Prog A) : ∀ h,
  wellFormed (store h) → wellFormed (store (run c h).2).
Proof.
  induction c as [a|q k IH|q b k IH|q key k IH|q key v k IH|q key k IH
                 |q k IH|q e k IH|q k IH|b k IH]; intros h Hwf; simpl;
    try (apply IH; done); try done.
  - apply IH. destruct (holds h q); [apply SetBytes_wellFormed|]; done.
  - apply IH. destruct (holds h q); [apply metaWrite_wellFormed|]; done.
  - apply IH. destruct (holds h q); [apply metaWrite_wellFormed|]; done.
  - apply IH. destruct (holds h q); [apply ErrorSet_wellFormed|]; done.
  - destruct (holds h q); [|apply IH; done].
    apply IH. simpl. apply ShallowCopy_wellFormed. done.
  - apply IH. simpl. apply (NewPart_wellFormed b). done.
Qed.

(** The part table never shrinks. *)
Lemma run_length {A : Type} (c : Prog A) : ∀ h,
  (length (parts (store h)) ≤ length (parts (store (run c h).2)))%nat.
Proof.
  induction c as [a|q k IH|q b k IH|q key k IH|q key v k IH|q key k IH
                 |q k IH|q e k IH|q k IH|b k IH]; intros h; simpl;
    try (apply IH; done); try done.
  - etrans; [|apply IH]. destruct (holds h q); cbn [onStore store];
      rewrite ?SetBytes_length; done.
  - etrans; [|apply IH]. destruct (holds h q); cbn [onStore store];
      unfold MetaSetMut; rewrite ?metaWrite_length; done.
  - etrans; [|apply IH]. destruct (holds h q); cbn [onStore store];
      unfold MetaDelete; rewrite ?metaWrite_length; done.
  - etrans; [|apply IH]. destruct (holds h q); cbn [onStore store];
      rewrite ?ErrorSet_length; done.
  - destruct (holds h q); [|apply IH].
    etrans; [|apply IH]. simpl. apply ShallowCopy_length.
  - etrans; [|apply IH]. simpl. rewrite length_app. lia.
Qed.

End processor_facts.

(** ** The retry loop *)

Module retry_facts.
Import message processor retry scenarios.
Import message_facts processor_facts.

Lemma wrap64_add_l a b : wrap64 (wrap64 a + b) = wrap64 (a + b).
Proof.
  unfold wrap64.
  replace ((a + 2 ^ 63) mod 2 ^ 64 - 2 ^ 63 + b + 2 ^ 63)
    with ((a + 2 ^ 63) mod 2 ^ 64 + b) by lia.
  rewrite Zplus_mod_idemp_l. f_equal. f_equal. lia.
Qed.

Lemma wrap64_small z : - 2 ^ 63 ≤ z < 2 ^ 63 → wrap64 z = z.
Proof. intros Hz. unfold wrap64. rewrite Z.mod_small; lia. Qed.

(** *** The deferred stamping *)

Lemma stampPart_wellFormed r bd st q :
  wellFormed st → wellFormed (stampPart r bd st q).
Proof. intros Hwf. unfold stampPart, MetaSetMut. by do 2 apply metaWrite_wellFormed. Qed.

Lemma stampPart_valid r bd st q m :
  is_Some (parts st !! m) → is_Some (parts (stampPart r bd st q) !! m).
Proof. intros Hm. unfold stampPart, MetaSetMut. by do 2 apply metaWrite_valid. Qed.

Lemma stampPart_ErrorGet r bd st q m :
  ErrorGet m (stampPart r bd st q) = ErrorGet m st.
Proof. unfold stampPart, MetaSetMut. by rewrite !metaWrite_ErrorGet. Qed.

Lemma stampPart_stamps r bd st m :
  wellFormed st → is_Some (parts st !! m) → stamped r bd (stampPart r bd st m) m.
Proof.
  intros Hwf Hm. unfold stampPart. split.
  - apply MetaSetMut_get_keep; [by apply metaWrite_wellFormed| |by left].
    by apply MetaSetMut_get_eq.
  - apply MetaSetMut_get_eq; [by apply metaWrite_wellFormed|].
    by apply metaWrite_valid.
Qed.

Lemma stampPart_keeps r bd st q m :
  wellFormed st → stamped r bd st m → stamped r bd (stampPart r bd st q) m.
Proof.
  intros Hwf [Hr Hb]. unfold stampPart. split.
  - apply MetaSetMut_get_keep; [by apply metaWrite_wellFormed| |by left].
    apply MetaSetMut_get_keep; [done|done|by right].
  - apply MetaSetMut_get_keep; [by apply metaWrite_wellFormed| |by right].
    apply MetaSetMut_get_keep; [done|done|by left].
Qed.

Lemma stamp_flat r bd res st :
  stamp r bd res st = foldl (stampPart r bd) st (concat res).
Proof.
  unfold stamp. revert st. induction res as [|b res IH]; intros st; simpl; [done|].
  rewrite foldl_app. apply IH.
Qed.

Lemma foldl_stampPart_wellFormed r bd l : ∀ st,
  wellFormed st → wellFormed (foldl (stampPart r bd) st l).
Proof.
  induction l as [|q l IH]; intros st Hwf; simpl; [done|].
  apply IH. by apply stampPart_wellFormed.
Qed.

Lemma foldl_stampPart_keeps r bd m l : ∀ st,
  wellFormed st → stamped r bd st m → stamped r bd (foldl (stampPart r bd) st l) m.
Proof.
  induction l as [|q l IH]; intros st Hwf Hs; simpl; [done|].
  apply IH; [by apply stampPart_wellFormed|by apply stampPart_keeps].
Qed.

Lemma foldl_stampPart_stamps r bd m l : ∀ st,
  wellFormed st → m ∈ l → is_Some (parts st !! m) →
  stamped r bd (foldl (stampPart r bd) st l) m.
Proof.
  induction l as [|q l IH]; intros st Hwf Hin Hm; simpl.
  - by apply not_elem_of_nil in Hin.
  - apply elem_of_cons in Hin as [->|Hin].
    + apply foldl_stampPart_keeps; [by apply stampPart_wellFormed|].
      by apply stampPart_stamps.
    + apply IH; [by apply stampPart_wellFormed|done|by apply stampPart_valid].
Qed.

(** Every part of [resBatches] that is in the table carries both fields. *)
Lemma stamp_stamps r bd res st b m :
  wellFormed st → b ∈ res → m ∈ b → is_Some (parts st !! m) →
  stamped r bd (stamp r bd res st) m.
Proof.
  intros Hwf Hb Hm Hv. rewrite stamp_flat.
  apply foldl_stampPart_stamps; [done| |done].
  apply list_elem_of_In, in_concat. exists b.
  split; by apply list_elem_of_In.
Qed.

Lemma stamp_ErrorGet r bd res st m :
  ErrorGet m (stamp r bd res st) = ErrorGet m st.
Proof.
  rewrite stamp_flat. generalize (concat res). intros l. revert st.
  induction l as [|q l IH]; intros st; simpl; [done|].
  rewrite IH. apply stampPart_ErrorGet.
Qed.

(** The error tags are as the children left them. *)
Lemma stamp_hasFailed r bd res st res' :
  hasFailed (stamp r bd res st) res' = hasFailed st res'.
Proof.
  unfold hasFailed. induction res' as [|b res' IH]; simpl; [done|].
  rewrite IH. f_equal.
  induction b as [|m b IHb]; simpl; [done|].
  rewrite IHb, stamp_ErrorGet. done.
Qed.

Lemma ShallowCopy_fresh p st d :
  parts st !! p = Some d →
  (ShallowCopy p st).1 = length (parts st)
  ∧ parts st !! (ShallowCopy p st).1 = None
  ∧ (ShallowCopy p st).1 ≠ p
  ∧ observe (ShallowCopy p st).2 (ShallowCopy p st).1 = observe st p.
Proof.
  intros Hp. pose proof (lookup_lt_Some _ _ _ Hp) as Hlt.
  unfold ShallowCopy. rewrite Hp. simpl.
  split; [done|]. split; [by apply lookup_ge_None_2|]. split; [lia|].
  rewrite !observe_unfold. simpl. rewrite Hp.
  rewrite lookup_app_r by (rewrite length_insert; lia).
  rewrite length_insert, Nat.sub_diag. simpl. done.
Qed.

Section loop.
Context {ChildSt : Type}.
Variable ExecuteAll : ChildSt → Batch → Prog (ChildSt * result (list Batch)).
Variable maxRetries : Z.
Variable NextBackOff : nat → Duration.
Variable ctxDone : nat → option error.

Local Abbreviation executeChildren := (executeChildren ExecuteAll).
Local Abbreviation iteration := (iteration ExecuteAll maxRetries NextBackOff ctxDone).
Local Abbreviation loop := (loop ExecuteAll maxRetries NextBackOff ctxDone).
Local Abbreviation varsAt := (varsAt ExecuteAll maxRetries NextBackOff ctxDone).
Local Abbreviation dispatchMessage := (dispatchMessage ExecuteAll maxRetries NextBackOff ctxDone).
Local Abbreviation slept := (slept NextBackOff).

Lemma executeChildren_untouched p v w :
  untouched p v w →
  untouched p v (executeChildren p w).1
  ∧ log (executeChildren p w).1 = log w.
Proof.
  intros (Hheld & Hiso & Hobs). unfold retry.executeChildren.
  destruct Hiso as (d & Hp & Hiso').
  assert (isolated (store (heap w)) p) as Hiso by (exists d; done).
  destruct (ShallowCopy_fresh p _ d Hp) as (Hc & _ & Hne & _).
  destruct (keeps_ShallowCopy p p (store (heap w)) v Hiso Hobs) as (Hiso1 & Hobs1 & Hlen1).
  destruct (ShallowCopy p (store (heap w))) as [c st1] eqn:Hsc. simpl in *.
  set (h := hand c {| store := st1; held := held (heap w) |}).
  destruct (run_keeps (ExecuteAll (children w) [c]) h p) as [Hk Hh].
  { subst h. simpl. rewrite not_elem_of_cons. split; [congruence|done]. }
  { subst h. simpl. apply lookup_lt_Some in Hp. lia. }
  destruct (run (ExecuteAll (children w) [c]) h) as [[cs res] h'] eqn:Hrun.
  simpl in *. split; [|done].
  destruct (Hk v Hiso1 Hobs1) as (Hiso2 & Hobs2 & _).
  split; [done|]. split; done.
Qed.

Lemma iteration_Continue p k v v' :
  iteration p k v = Continue v' →
  heap (world v') = heap (executeChildren p (world v)).1
  ∧ retries v' = wrap64 (retries v + 1)
  ∧ backoffDuration v' = wrap64 (backoffDuration v + NextBackOff k).
Proof.
  unfold retry.iteration.
  destruct (executeChildren p (world v)) as [w res] eqn:Hex.
  destruct res as [resBatches|e]; [|done].
  destruct (negb _); [done|].
  destruct (_ =? maxRetries); [done|].
  destruct (NextBackOff k =? Stop); [done|].
  destruct (ctxDone k); [done|].
  intros [= <-]. simpl. done.
Qed.

Lemma iteration_untouched p k v v' v0 :
  iteration p k v = Continue v' →
  untouched p v0 (world v) → untouched p v0 (world v').
Proof.
  intros Hit Hu. apply iteration_Continue in Hit as (Hh & _).
  destruct (executeChildren_untouched p v0 (world v) Hu) as [(H1 & H2 & H3) _].
  unfold untouched. rewrite Hh. done.
Qed.

Lemma varsAt_untouched p k : ∀ v0 v u,
  varsAt p k v0 = Some v → untouched p u (world v0) → untouched p u (world v).
Proof.
  induction k as [|k IH]; intros v0 v u Hv Hu; simpl in Hv.
  - by injection Hv as <-.
  - destruct (varsAt p k v0) as [v1|] eqn:Hk; [|done].
    destruct (iteration p k v1) as [v2|] eqn:Hit; [|done].
    injection Hv as <-. eapply iteration_untouched; eauto.
Qed.

(** The counters at the start of iteration [k]. *)
Lemma varsAt_counters p k : ∀ v0 v,
  varsAt p k v0 = Some v →
  retries v = wrap64 (retries v0 + Z.of_nat k)
  ∧ backoffDuration v = wrap64 (backoffDuration v0 + slept k)
  ∨ k = 0%nat ∧ v = v0.
Proof.
  induction k as [|k IH]; intros v0 v Hv; simpl in Hv.
  - right. by injection Hv as <-.
  - left. destruct (varsAt p k v0) as [v1|] eqn:Hk; [|done].
    destruct (iteration p k v1) as [v2|] eqn:Hit; [|done].
    injection Hv as <-.
    apply iteration_Continue in Hit as (_ & Hr & Hb). rewrite Hr, Hb.
    destruct (IH _ _ Hk) as [[Hr1 Hb1]|[-> ->]].
    + rewrite Hr1, Hb1, !wrap64_add_l. simpl. split; f_equal; lia.
    + simpl. split; f_equal; lia.
Qed.

(** The loop gets to iteration [k] and goes on from there. *)
Lemma loop_varsAt p k : ∀ v0 v fuel,
  varsAt p k v0 = Some v → loop (k + fuel) p 0 v0 = loop fuel p k v.
Proof.
  induction k as [|k IH]; intros v0 v fuel Hv; simpl in Hv.
  - by injection Hv as <-.
  - destruct (varsAt p k v0) as [v1|] eqn:Hk; [|done].
    destruct (iteration p k v1) as [v2|] eqn:Hit; [|done].
    injection Hv as <-.
    replace (S k + fuel)%nat with (k + S fuel)%nat by lia.
    rewrite (IH _ _ _ Hk). simpl. rewrite Hit. done.
Qed.

Lemma loop_Return p k v0 v vr res err fuel :
  varsAt p k v0 = Some v → iteration p k v = Return vr res err →
  (k < fuel)%nat → loop fuel p 0 v0 = Some (Return vr res err).
Proof.
  intros Hv Hit Hlt.
  replace fuel with (k + S (fuel - S k))%nat by lia.
  rewrite (loop_varsAt _ _ _ _ _ Hv). simpl. rewrite Hit. done.
Qed.

(** What the loop returns is what its last iteration returns. *)
Lemma loop_last p fuel : ∀ k v0 v r,
  varsAt p k v0 = Some v → loop fuel p k v = Some r →
  ∃ k' v' vr res err, (k ≤ k' < k + fuel)%nat ∧ varsAt p k' v0 = Some v'
    ∧ iteration p k' v' = Return vr res err ∧ r = Return vr res err.
Proof.
  induction fuel as [|fuel IH]; intros k v0 v r Hv Hl; simpl in Hl; [done|].
  destruct (iteration p k v) as [v1|vr res err] eqn:Hit.
  - destruct (IH (S k) v0 v1 r) as (k' & v' & vr & res & err & Hk & H1 & H2 & H3).
    { simpl. rewrite Hv, Hit. done. }
    { done. }
    exists k', v', vr, res, err. split; [lia|done].
  - injection Hl as <-. exists k, v, vr, res, err. split; [lia|done].
Qed.

End loop.

Lemma ErrorSet_self p e st v :
  isolated st p → observe st p = Some v →
  isolated (ErrorSet p e st) p
  ∧ observe (ErrorSet p e st) p
    = Some {| v_bytes := v_bytes v; v_meta := v_meta v; v_err := e |}.
Proof.
  intros (d & Hp & Hlt & Hiso) Ho.
  pose proof (lookup_lt_Some _ _ _ Hp) as Hplt.
  unfold ErrorSet. rewrite Hp. split.
  - eexists. simpl. split; [by apply list_lookup_insert_eq|]. simpl.
    split; [done|]. intros q d' Hne Hq Hm.
    rewrite list_lookup_insert_ne in Hq by done. eauto.
  - rewrite observe_unfold in Ho |- *. simpl.
    rewrite list_lookup_insert_eq by done. rewrite Hp in Ho.
    injection Ho as <-. done.
Qed.

Lemma enter_untouched {ChildSt : Type} p v (w : World (ChildSt := ChildSt)) :
  untouched p v w → untouched p (cleared v) (world (enter p w)).
Proof.
  intros (Hh & Hi & Ho). destruct (ErrorSet_self p None _ v Hi Ho) as [Hi' Ho'].
  split; [done|]. split; done.
Qed.

Section counters.
Context {ChildSt : Type}.
Variable ExecuteAll : ChildSt → Batch → Prog (ChildSt * result (list Batch)).
Variable maxRetries : Z.
Variable NextBackOff : nat → Duration.
Variable ctxDone : nat → option error.

Local Abbreviation executeChildren := (executeChildren ExecuteAll).
Local Abbreviation iteration := (iteration ExecuteAll maxRetries NextBackOff ctxDone).
Local Abbreviation loop := (loop ExecuteAll maxRetries NextBackOff ctxDone).
Local Abbreviation varsAt := (varsAt ExecuteAll maxRetries NextBackOff ctxDone).
Local Abbreviation dispatchMessage := (dispatchMessage ExecuteAll maxRetries NextBackOff ctxDone).
Local Abbreviation slept := (slept NextBackOff).

Lemma varsAt_enter_counters p k w v :
  varsAt p k (enter p w) = Some v →
  retries v = wrap64 (Z.of_nat k) ∧ backoffDuration v = wrap64 (slept k).
Proof.
  intros Hv. destruct (varsAt_counters _ _ _ _ _ _ _ _ Hv) as [[Hr Hb]|[-> ->]].
  - simpl in Hr, Hb. done.
  - simpl. done.
Qed.

(** An iteration whose execution of the children came back with a tagged
    part. *)
Lemma iteration_failed p k v res :
  (executeChildren p (world v)).2 = Ok res →
  hasFailed (store (heap (executeChildren p (world v)).1)) res = true →
  let w := (executeChildren p (world v)).1 in
  let r := wrap64 (retries v + 1) in
  let bd := wrap64 (backoffDuration v + NextBackOff k) in
  iteration p k v =
    if r =? maxRetries then
      Return {| world := logDebug "Error occurred and maximum number of retries was reached." w;
                retries := r; backoffDuration := backoffDuration v |} res None
    else if NextBackOff k =? Stop then
      Return {| world := logDebug "Error occurred and maximum wait period was reached." w;
                retries := r; backoffDuration := bd |} res None
    else
      let v' := {| world := logDebug "Error occurred, sleeping for next backoff period." w;
                   retries := r; backoffDuration := bd |} in
      match ctxDone k with
      | None => Continue v'
      | Some e => Return v' [] (Some e)
      end.
Proof.
  intros Hres Hf. unfold retry.iteration.
  destruct (executeChildren p (world v)) as [w res'] eqn:Hex. simpl in *.
  subst res'. rewrite Hf. simpl. done.
Qed.

(** An iteration whose execution of the children came back clean. *)
Lemma iteration_passed p k v res :
  (executeChildren p (world v)).2 = Ok res →
  hasFailed (store (heap (executeChildren p (world v)).1)) res = false →
  iteration p k v =
    Return {| world := (executeChildren p (world v)).1; retries := retries v;
              backoffDuration := backoffDuration v |} res None.
Proof.
  intros Hres Hf. unfold retry.iteration.
  destruct (executeChildren p (world v)) as [w res'] eqn:Hex. simpl in *.
  subst res'. rewrite Hf. simpl. done.
Qed.

Lemma executeChildren_wellFormed p w :
  wellFormed (store (heap w)) →
  wellFormed (store (heap (executeChildren p w).1)).
Proof.
  intros Hwf. unfold retry.executeChildren.
  pose proof (ShallowCopy_wellFormed p _ Hwf) as Hwf1.
  destruct (ShallowCopy p (store (heap w))) as [c st1]. simpl in Hwf1.
  pose proof (run_wellFormed (ExecuteAll (children w) [c])
                (hand c {| store := st1; held := held (heap w) |}) Hwf1) as Hwf2.
  destruct (run _ _) as [[cs res] h']. done.
Qed.

Lemma executeChildren_length p w :
  (length (parts (store (heap w)))
   ≤ length (parts (store (heap (executeChildren p w).1))))%nat.
Proof.
  unfold retry.executeChildren.
  pose proof (ShallowCopy_length p (store (heap w))) as Hl1.
  destruct (ShallowCopy p (store (heap w))) as [c st1]. simpl in Hl1.
  pose proof (run_length (ExecuteAll (children w) [c])
                (hand c {| store := st1; held := held (heap w) |})) as Hl2.
  destruct (run _ _) as [[cs res] h']. simpl in *. lia.
Qed.

(** Whatever the iteration does next, its heap is the one the children left. *)
Lemma iteration_heap p k v :
  match iteration p k v with
  | Continue v' => heap (world v')
  | Return v' _ _ => heap (world v')
  end = heap (executeChildren p (world v)).1.
Proof.
  unfold retry.iteration.
  destruct (executeChildren p (world v)) as [w res] eqn:Hex.
  destruct res as [resBatches|e]; [|done].
  destruct (negb _); [done|].
  destruct (_ =? maxRetries); [done|].
  destruct (NextBackOff k =? Stop); [done|].
  destruct (ctxDone k); done.
Qed.

Lemma varsAt_wellFormed p k : ∀ v0 v,
  varsAt p k v0 = Some v → wellFormed (store (heap (world v0))) →
  wellFormed (store (heap (world v))).
Proof.
  induction k as [|k IH]; intros v0 v Hv Hwf; simpl in Hv.
  - by injection Hv as <-.
  - destruct (varsAt p k v0) as [v1|] eqn:Hk; [|done].
    pose proof (iteration_heap p k v1) as Hh.
    destruct (iteration p k v1) as [v2|] eqn:Hit; [|done].
    injection Hv as <-. rewrite Hh. apply executeChildren_wellFormed. eauto.
Qed.

End counters.

Lemma stamp_length r bd res st :
  length (parts (stamp r bd res st)) = length (parts st).
Proof.
  rewrite stamp_flat. generalize (concat res). intros l. revert st.
  induction l as [|q l IH]; intros st; simpl; [done|].
  rewrite IH. unfold stampPart, MetaSetMut. by rewrite !metaWrite_length.
Qed.

Lemma executeChildren_alwaysErrors {ChildSt : Type}
    (ExecuteAll : ChildSt → Batch → Prog (ChildSt * result (list Batch)))
    (p : nat) (w : World) :
  alwaysErrors ExecuteAll → is_Some (parts (store (heap w)) !! p) →
  ∃ res, (executeChildren ExecuteAll p w).2 = Ok res
         ∧ hasFailed (store (heap (executeChildren ExecuteAll p w).1)) res = true.
Proof.
  intros Hall [d Hp]. unfold executeChildren.
  destruct (ShallowCopy_fresh p _ d Hp) as (Hc & _ & _ & _).
  assert (is_Some (parts (ShallowCopy p (store (heap w))).2
                   !! (ShallowCopy p (store (heap w))).1)) as Hvalid.
  { unfold ShallowCopy. rewrite Hp. simpl. apply lookup_lt_is_Some.
    rewrite length_app, length_insert. simpl. lia. }
  destruct (ShallowCopy p (store (heap w))) as [c st1]. simpl in *.
  destruct (Hall (children w) c {| store := st1; held := held (heap w) |} Hvalid)
    as (res & Hres & Hf).
  destruct (run _ _) as [[cs r] h']. simpl in *. eauto.
Qed.

Lemma alwaysFail_alwaysErrors : alwaysErrors alwaysFail.
Proof.
  intros n c h [d Hc]. exists [[c]].
  assert (holds (hand c h) c = true) as Hh.
  { unfold holds, hand. simpl. apply bool_decide_eq_true_2, list_elem_of_here. }
  unfold alwaysFail. cbn [tagAll run]. rewrite Hh. cbn [run fst snd].
  split; [done|]. unfold hasFailed. cbn [existsb].
  rewrite ErrorGet_unfold. unfold onStore, hand. cbn [store].
  unfold ErrorSet. rewrite Hc. cbn [parts].
  rewrite list_lookup_insert_eq by (eapply lookup_lt_Some; eauto). done.
Qed.

(** *** Children that hand the batch on *)

(** With children that hand the batch on, [dispatchMessage] returns the copy
    after one execution; the copy is the next address of the table and no
    part gains an error tag. *)
Lemma dispatch_passThrough {ChildSt : Type} (p : Part)
    (w : World (ChildSt := ChildSt)) (d : messageData)
    (maxRetries : Z) (NextBackOff : nat → Duration)
    (ctxDone : nat → option error) (fuel : nat) :
  parts (store (heap w)) !! p = Some d →
  let c := length (parts (store (heap w))) in
  ∃ w', dispatchMessage passThrough maxRetries NextBackOff ctxDone (S fuel) p w
        = Some (w', [[c]], None)
        ∧ log w' = log w
        ∧ length (parts (store (heap w'))) = S c
        ∧ ErrorGet c (store (heap w')) = None
        ∧ ∀ q, is_Some (parts (store (heap w)) !! q) →
               ErrorGet q (store (heap w)) = None ∨ q = p →
               ErrorGet q (store (heap w')) = None.
Proof.
  intros Hp c.
  pose proof (lookup_lt_Some _ _ _ Hp) as Hlt.
  set (st := store (heap (world (enter p w)))).
  assert (st = ErrorSet p None (store (heap w))) as Hst by done.
  assert (length (parts st) = c) as Hlen by (rewrite Hst; apply ErrorSet_length).
  assert (is_Some (parts st !! p)) as [d0 Hp0].
  { apply lookup_lt_is_Some. lia. }
  destruct (ShallowCopy_fresh p st d0 Hp0) as (Hc & _ & _ & Hobs).
  rewrite Hlen in Hc.
  assert (ErrorGet p st = None) as Hep.
  { rewrite Hst. apply ErrorSet_ErrorGet_eq. eauto. }
  assert (length (parts (ShallowCopy p st).2) = S c) as Hlen'.
  { unfold ShallowCopy. rewrite Hp0. simpl.
    rewrite length_app, length_insert. simpl. lia. }
  assert (ErrorGet c (ShallowCopy p st).2 = None) as Hec.
  { rewrite Hc in Hobs. rewrite !observe_unfold in Hobs.
    rewrite ErrorGet_unfold in Hep |- *. rewrite Hp0 in Hobs, Hep.
    destruct (parts (ShallowCopy p st).2 !! c) as [dc|]; [|done].
    injection Hobs as _ _ ->. done. }
  assert ((executeChildren passThrough p (world (enter p w))).2 = Ok [[c]]
          ∧ heap (executeChildren passThrough p (world (enter p w))).1
            = hand c {| store := (ShallowCopy p st).2; held := held (heap w) |}
          ∧ log (executeChildren passThrough p (world (enter p w))).1 = log w)
    as (Hres & Hheap & Hlog).
  { unfold executeChildren. fold st. rewrite <- Hc.
    destruct (ShallowCopy p st) as [c' st']. simpl. done. }
  assert (hasFailed
            (store (heap (executeChildren passThrough p (world (enter p w))).1))
            [[c]] = false) as Hf.
  { rewrite Hheap. unfold hasFailed. simpl. rewrite Hec. done. }
  pose proof (iteration_passed passThrough maxRetries NextBackOff ctxDone
                p 0 (enter p w) [[c]] Hres Hf) as Hit.
  unfold dispatchMessage. cbn [loop]. rewrite Hit.
  eexists. split; [reflexivity|].
  cbn [world retries backoffDuration log heap onStore store].
  split; [done|]. rewrite Hheap. cbn [hand store].
  split; [by rewrite stamp_length|].
  split; [by rewrite stamp_ErrorGet|].
  intros q Hq Hnone. rewrite stamp_ErrorGet.
  rewrite ShallowCopy_ErrorGet.
  2: { apply lookup_lt_is_Some. apply lookup_lt_is_Some in Hq. lia. }
  destruct (decide (q = p)) as [->|Hne]; [done|].
  rewrite Hst, ErrorSet_ErrorGet_ne by done. by destruct Hnone.
Qed.

(** The same for a whole batch, part after part. *)
Lemma processSerial_passThrough {ChildSt : Type}
    (maxRetries : Z) (NextBackOff : nat → Duration)
    (ctxDone : nat → option error) (fuel : nat) (msgs : Batch) :
  ∀ (resMsg : Batch) (w : World (ChildSt := ChildSt)),
  Forall (λ p, is_Some (parts (store (heap w)) !! p)) msgs →
  Forall (λ c, is_Some (parts (store (heap w)) !! c)
               ∧ ErrorGet c (store (heap w)) = None) resMsg →
  ∃ w' out,
    processSerial passThrough maxRetries NextBackOff ctxDone (S fuel) msgs resMsg w
    = Some (w', Ok [out])
    ∧ length out = (length resMsg + length msgs)%nat
    ∧ log w' = log w
    ∧ Forall (λ c, ErrorGet c (store (heap w')) = None) out.
Proof.
  induction msgs as [|p msgs IH]; intros resMsg w Hmsgs Hres.
  - exists w, resMsg. split; [done|]. split; [simpl; lia|]. split; [done|].
    eapply Forall_impl; [exact Hres|]. by intros c [_ Hc].
  - apply Forall_cons in Hmsgs as [[d Hp] Hmsgs].
    destruct (dispatch_passThrough p w d maxRetries NextBackOff ctxDone fuel Hp)
      as (w1 & Hd & Hlog & Hlen & Hec & Hkeep).
    cbn [processSerial]. rewrite Hd. cbn [concat].
    destruct (IH (resMsg ++ [length (parts (store (heap w)))] ++ []) w1)
      as (w' & out & Hps & Hout & Hlog' & Htags).
    + eapply Forall_impl; [exact Hmsgs|]. intros q Hq. simpl in Hq.
      apply lookup_lt_is_Some. apply lookup_lt_is_Some in Hq. lia.
    + rewrite app_nil_r. apply Forall_app. split.
      * eapply Forall_impl; [exact Hres|]. intros q [Hq Hnone]. simpl in *.
        split; [|by apply Hkeep; auto].
        apply lookup_lt_is_Some. apply lookup_lt_is_Some in Hq. lia.
      * apply Forall_singleton. split; [|done].
        apply lookup_lt_is_Some. lia.
    + exists w', out. split; [done|]. split.
      * rewrite Hout, !length_app. simpl. lia.
      * split; [congruence|done].
Qed.

End retry_facts.

(** ** The mapper loop *)

Module mapper_facts.
Import message processor mapper.
Import message_facts processor_facts.

(** A program without [ErrorSet] leaves every error tag as it is. *)
Lemma run_noErrorSet {A : Type} (c : Prog A) :
  noErrorSet c → ∀ h q, is_Some (parts (store h) !! q) →
  ErrorGet q (store (run c h).2) = ErrorGet q (store h).
Proof.
  induction 1 as [a|p k Hk IH|p b k Hk IH|p key k Hk IH|p key v k Hk IH
                 |p key k Hk IH|p k Hk IH|p k Hk IH|b k Hk IH];
    intros h q Hq; simpl; try (apply IH; done); try done.
  - rewrite IH.
    + destruct (holds h p); [apply SetBytes_ErrorGet|done].
    + destruct (holds h p); [|done]. eapply valid_mono; [|exact Hq].
      cbn [onStore store]. by rewrite SetBytes_length.
  - rewrite IH.
    + destruct (holds h p); [apply metaWrite_ErrorGet|done].
    + destruct (holds h p); [|done]. by apply metaWrite_valid.
  - rewrite IH.
    + destruct (holds h p); [apply metaWrite_ErrorGet|done].
    + destruct (holds h p); [|done]. by apply metaWrite_valid.
  - destruct (holds h p); [|apply IH; done].
    cbn [alloc fst snd]. rewrite IH.
    + cbn [store]. by apply ShallowCopy_ErrorGet.
    + cbn [store]. eapply valid_mono; [apply ShallowCopy_length|done].
  - cbn [alloc fst snd]. rewrite IH.
    + cbn [store]. by apply (NewPart_ErrorGet b).
    + cbn [store]. eapply valid_mono; [|exact Hq]. simpl. rewrite length_app. lia.
Qed.

Section executor.
Context {ExecSt : Type}.
Variable call : Call (ExecSt := ExecSt).
Variable ctx : BatchProcContext.
Variable b : Batch.

Lemma range_app l1 : ∀ l2 i s,
  range call ctx b i (l1 ++ l2) s
  = range call ctx b (i + length l1) l2 (range call ctx b i l1 s).
Proof.
  induction l1 as [|m l1 IH]; intros l2 i s; simpl.
  - by rewrite Nat.add_0_r.
  - rewrite IH. f_equal. lia.
Qed.

Lemma stateAt_S w i msg :
  b !! i = Some msg →
  stateAt call ctx b w (S i) = step call ctx b i msg (stateAt call ctx b w i).
Proof.
  intros Hi. unfold stateAt. rewrite (take_S_r _ _ _ Hi), range_app. simpl.
  rewrite length_take_le; [done|]. apply lookup_lt_Some in Hi. lia.
Qed.

Lemma stateAt_final w i :
  stateAt call ctx b w (length b)
  = range call ctx b i (drop i b) (stateAt call ctx b w i) ∨ (length b < i)%nat.
Proof.
  destruct (decide (i ≤ length b)%nat) as [Hle|Hgt]; [left|right; lia].
  unfold stateAt. rewrite firstn_all.
  rewrite <- (take_drop i b) at 2. rewrite range_app.
  rewrite length_take_le by done. done.
Qed.

(** The output batch only grows. *)
Lemma step_grows i msg s :
  ∃ post, (step call ctx b i msg s).2 = s.2 ++ post.
Proof.
  unfold step. destruct s as [w nb].
  destruct (run _ _) as [[es r] h]. destruct r as [[np|]|e].
  - exists [np]. done.
  - exists []. simpl. by rewrite app_nil_r.
  - destruct (OnError _ _ _ _ _). exists [msg]. done.
Qed.

Lemma range_grows l : ∀ i s,
  ∃ post, (range call ctx b i l s).2 = s.2 ++ post.
Proof.
  induction l as [|m l IH]; intros i s; simpl.
  - exists []. by rewrite app_nil_r.
  - destruct (IH (S i) (step call ctx b i m s)) as [post Hpost].
    destruct (step_grows i m s) as [post' Hpost'].
    exists (post' ++ post). rewrite Hpost, Hpost'. by rewrite app_assoc.
Qed.

Lemma OnError_ErrorGet e i msg st q :
  ErrorGet q st ≠ None → ErrorGet q (OnError ctx e i msg st).1 ≠ None.
Proof.
  intros Hq. unfold OnError, MarkErr.
  assert (ErrorGet q (ErrorSet msg (Some e) st) ≠ None) as H.
  { destruct (decide (q = msg)) as [->|Hne].
    - rewrite ErrorSet_ErrorGet_eq; [done|].
      rewrite ErrorGet_unfold in Hq. destruct (parts st !! msg); [eauto|done].
    - by rewrite ErrorSet_ErrorGet_ne. }
  destruct (spans ctx !! i); [done|]. destruct (activeSpan ctx msg); done.
Qed.

Lemma OnError_store e i msg st :
  (OnError ctx e i msg st).1 = ErrorSet msg (Some e) st.
Proof.
  unfold OnError, MarkErr.
  destruct (spans ctx !! i); [done|]. destruct (activeSpan ctx msg); done.
Qed.

Lemma step_length i msg s :
  (length (parts (store (heap s.1)))
   ≤ length (parts (store (heap (step call ctx b i msg s).1))))%nat.
Proof.
  unfold step. destruct s as [w nb]. simpl.
  pose proof (run_length (call (exec w) msg i b) (heap w)) as Hl.
  destruct (run _ _) as [[es r] h]. destruct r as [np|e]; [done|].
  pose proof (OnError_store e i msg (store h)) as Hs.
  destruct (OnError _ _ _ _ _) as [st evs]. simpl in *. subst st.
  rewrite ErrorSet_length. done.
Qed.

Lemma range_length l : ∀ i s,
  (length (parts (store (heap s.1)))
   ≤ length (parts (store (heap (range call ctx b i l s).1))))%nat.
Proof.
  induction l as [|m l IH]; intros i s; simpl; [done|].
  etrans; [apply (step_length i m s)|apply IH].
Qed.

Hypothesis Hnes : ∀ es m i, noErrorSet (call es m i b).

Lemma step_tagged i msg s q :
  ErrorGet q (store (heap s.1)) ≠ None →
  ErrorGet q (store (heap (step call ctx b i msg s).1)) ≠ None.
Proof.
  intros Hq. unfold step. destruct s as [w nb]. simpl in *.
  assert (is_Some (parts (store (heap w)) !! q)) as Hv.
  { rewrite ErrorGet_unfold in Hq. destruct (parts _ !! q); [eauto|done]. }
  pose proof (run_noErrorSet _ (Hnes (exec w) msg i) (heap w) q Hv) as Hrun.
  destruct (run _ _) as [[es r] h]. simpl in Hrun. destruct r as [np|e].
  - simpl. by rewrite Hrun.
  - pose proof (OnError_ErrorGet e i msg (store h) q) as Ho.
    destruct (OnError _ _ _ _ _) as [st evs]. simpl in *. apply Ho.
    by rewrite Hrun.
Qed.

Lemma range_tagged l : ∀ i s q,
  ErrorGet q (store (heap s.1)) ≠ None →
  ErrorGet q (store (heap (range call ctx b i l s).1)) ≠ None.
Proof.
  induction l as [|m l IH]; intros i s q Hq; simpl; [done|].
  apply IH. by apply step_tagged.
Qed.

End executor.

Lemma processBatch_keepsFailedParts {ExecSt : Type}
    (call : Call (ExecSt := ExecSt)) ctx b w :
  keepsFailedParts call ctx b w (processBatch call ctx b w).
Proof.
  unfold keepsFailedParts.
  assert (processBatch call ctx b w
          = let final := stateAt call ctx b w (length b) in
            (final.1, if decide (final.2 = []) then [] else [final.2], None))
    as Hpb.
  { unfold processBatch, stateAt. rewrite firstn_all.
    destruct (range _ _ _ _ _ _) as [w' nb]. simpl.
    destruct nb; simpl; done. }
  rewrite Hpb. cbn zeta. cbn [fst snd].
  split; [done|]. split; [done|]. split; [done|].
  intros i msg es e h Hi Hv Hrun.
  set (si := stateAt call ctx b w i) in *.
  assert (stateAt call ctx b w (S i) = step call ctx b i msg si) as HS
    by (by apply stateAt_S).
  assert (is_Some (parts (store (heap si.1)) !! msg)) as Hvi.
  { eapply valid_mono; [|exact Hv]. subst si. unfold stateAt.
    etrans; [|apply range_length]. done. }
  assert (is_Some (parts (store h) !! msg)) as Hvh.
  { eapply valid_mono; [|exact Hvi].
    pose proof (run_length (call (exec si.1) msg i b) (heap si.1)) as Hl.
    rewrite Hrun in Hl. done. }
  assert ((step call ctx b i msg si).2 = si.2 ++ [msg]
          ∧ ErrorGet msg (store (heap (step call ctx b i msg si).1)) = Some e)
    as [Hnb Htag].
  { unfold step. destruct si as [wi nbi]. simpl in *. rewrite Hrun.
    pose proof (OnError_store ctx e i msg (store h)) as Hs.
    destruct (OnError _ _ _ _ _) as [st evs]. simpl in *. subst st.
    split; [done|]. by apply ErrorSet_ErrorGet_eq. }
  assert (stateAt call ctx b w (length b)
          = range call ctx b (S i) (drop (S i) b) (stateAt call ctx b w (S i)))
    as Hfin.
  { destruct (stateAt_final call ctx b w (S i)) as [H|H]; [done|].
    apply lookup_lt_Some in Hi. lia. }
  destruct (range_grows call ctx b (drop (S i) b) (S i) (stateAt call ctx b w (S i)))
    as [post Hpost].
  rewrite <- Hfin, HS, Hnb in Hpost.
  split; [|split].
  - rewrite Hpost. exists si.2, post.
    destruct (decide _) as [Hnil|_].
    + destruct si.2; discriminate Hnil.
    + by rewrite <- app_assoc.
  - by rewrite HS.
  - intros Hnes. rewrite Hfin. apply range_tagged; [done|].
    rewrite HS, Htag. done.
Qed.

End mapper_facts.

(** ** The label registry *)

Module manager_facts.
Import manager.

Lemma append_assoc (a b c : string) : (a +:+ b) +:+ c = a +:+ b +:+ c.
Proof.
  induction a as [|x a IH]; [reflexivity|].
  change (String x ((a +:+ b) +:+ c) = String x (a +:+ b +:+ c)).
  by rewrite IH.
Qed.

Lemma collides_contains (k : Kind) (l : string) :
  contains (kindName k +:+ " resource label '" +:+ l
            +:+ "' collides with a previously defined resource") "collides".
Proof.
  exists (kindName k +:+ " resource label '" +:+ l +:+ "' "),
         " with a previously defined resource".
  rewrite !append_assoc. done.
Qed.

Lemma addResource_Ok k t c t' :
  addResource k t c = Ok t' ↔
  Label c ≠ "" ∧ t !! Label c = None ∧ t' = <[Label c := c]> t.
Proof.
  unfold addResource. repeat case_bool_decide; split.
  - done.
  - intros (? & _); done.
  - done.
  - intros (_ & Hn & _). destruct H0 as [x Hx]. congruence.
  - intros [= <-]. split; [done|]. split; [|done].
    destruct (t !! Label c) eqn:E; [|done]. exfalso. eauto.
  - intros (_ & _ & ->). done.
Qed.

Lemma addResource_Err k t c e :
  addResource k t c = Err e →
  Label c = "" ∧ e = Errorf (kindName k +:+ " resource has an empty label")
  ∨ Label c ≠ "" ∧ is_Some (t !! Label c)
    ∧ e = Errorf (kindName k +:+ " resource label '" +:+ Label c
                  +:+ "' collides with a previously defined resource").
Proof.
  unfold addResource. repeat case_bool_decide; intros [= <-]; auto.
Qed.

(** The labels registered so far are those of the table. *)
Lemma addResources_Ok k cs : ∀ t,
  (∃ t', addResources k t cs = Ok t') ↔
  Forall (λ c, Label c ≠ "") cs
  ∧ NoDup (Label <$> cs)
  ∧ ∀ c, c ∈ cs → t !! Label c = None.
Proof.
  induction cs as [|c cs IH]; intros t; simpl.
  - split; [intros _|eauto]. split; [constructor|]. split; [constructor|].
    intros c Hc. by apply not_elem_of_nil in Hc.
  - destruct (addResource k t c) as [t1|e] eqn:Hadd.
    + apply addResource_Ok in Hadd as (Hne & Hfresh & ->).
      rewrite IH. split.
      * intros (Hall & Hnd & Hf). split; [by constructor|]. split.
        -- rewrite ?fmap_cons. constructor; [|done].
           intros Hin. apply list_elem_of_fmap in Hin as (c' & Hl & Hc').
           specialize (Hf c' Hc'). rewrite <- Hl, lookup_insert_eq in Hf. done.
        -- intros c' Hc'. apply elem_of_cons in Hc' as [->|Hc']; [done|].
           specialize (Hf c' Hc').
           destruct (decide (Label c = Label c')) as [Heq|Hneq].
           ++ rewrite Heq, lookup_insert_eq in Hf. done.
           ++ by rewrite lookup_insert_ne in Hf.
      * intros (Hall & Hnd & Hf). rewrite ?fmap_cons in Hnd.
        apply Forall_cons in Hall as [_ Hall].
        apply NoDup_cons in Hnd as [Hnin Hnd].
        split; [done|]. split; [done|].
        intros c' Hc'. rewrite lookup_insert_ne.
        -- apply Hf. by apply list_elem_of_further.
        -- intros Heq. apply Hnin. apply list_elem_of_fmap. eauto.
    + split; [intros [t' Ht']; done|].
      intros (Hall & Hnd & Hf). exfalso.
      apply Forall_cons in Hall as [Hne _].
      apply addResource_Err in Hadd as [[Hl _]|(_ & [x Hx] & _)]; [done|].
      rewrite Hf in Hx; [done|]. apply list_elem_of_here.
Qed.

Lemma addResources_Err k cs : ∀ t e,
  addResources k t cs = Err e →
  (∃ c, c ∈ cs ∧ Label c = "")
  ∨ ∃ l, e = Errorf (kindName k +:+ " resource label '" +:+ l
                     +:+ "' collides with a previously defined resource").
Proof.
  induction cs as [|c cs IH]; intros t e; simpl; [done|].
  destruct (addResource k t c) as [t1|e1] eqn:Hadd.
  - intros Hr. destruct (IH _ _ Hr) as [(c' & Hc' & Hl)|Hcol]; [|by right].
    left. exists c'. split; [by apply list_elem_of_further|done].
  - intros [= <-]. apply addResource_Err in Hadd as [[Hl _]|(_ & _ & ->)].
    + left. exists c. split; [apply list_elem_of_here|done].
    + right. eauto.
Qed.

(** The table built at construction holds the labels of the kind. *)
Lemma addResources_lookup k cs : ∀ t t' c,
  addResources k t cs = Ok t' → c ∈ cs → is_Some (t' !! Label c).
Proof.
  induction cs as [|c0 cs IH]; intros t t' c Hr Hc; simpl in Hr.
  - by apply not_elem_of_nil in Hc.
  - destruct (addResource k t c0) as [t1|e] eqn:Hadd; [|done].
    apply elem_of_cons in Hc as [->|Hc]; [|eauto].
    apply addResource_Ok in Hadd as (_ & _ & ->).
    assert (is_Some (<[Label c0 := c0]> t !! Label c0)) as Hin
      by (rewrite lookup_insert_eq; eauto).
    clear IH. revert Hin Hr. generalize (<[Label c0:=c0]> t). clear.
    induction cs as [|c1 cs IH]; intros t Hin Hr; simpl in Hr.
    + by injection Hr as <-.
    + destruct (addResource k t c1) as [t1|e] eqn:Hadd; [|done].
      apply addResource_Ok in Hadd as (_ & _ & ->).
      apply (IH (<[Label c1 := c1]> t)); [|done].
      destruct (decide (Label c1 = Label c0)) as [->|Hne].
      * rewrite lookup_insert_eq. eauto.
      * by rewrite lookup_insert_ne.
Qed.


Lemma New_Ok_iff conf : (∃ m, New conf = Ok m) ↔ accepted conf.
Proof.
  unfold New, accepted. split.
  - intros [m Hm] k.
    destruct (addResources Cache ∅ (ResourceCaches conf)) eqn:Hc; [|done].
    destruct (addResources RateLimit ∅ (ResourceRateLimits conf)) eqn:Hr; [|done].
    destruct (addResources Processor ∅ (ResourceProcessors conf)) eqn:Hp; [|done].
    destruct (addResources Input ∅ (ResourceInputs conf)) eqn:Hi; [|done].
    destruct (addResources Output ∅ (ResourceOutputs conf)) eqn:Ho; [|done].
    destruct k; simpl.
    + destruct (proj1 (addResources_Ok Cache _ ∅) (ex_intro _ _ Hc)) as (? & ? & _); done.
    + destruct (proj1 (addResources_Ok RateLimit _ ∅) (ex_intro _ _ Hr)) as (? & ? & _); done.
    + destruct (proj1 (addResources_Ok Processor _ ∅) (ex_intro _ _ Hp)) as (? & ? & _); done.
    + destruct (proj1 (addResources_Ok Input _ ∅) (ex_intro _ _ Hi)) as (? & ? & _); done.
    + destruct (proj1 (addResources_Ok Output _ ∅) (ex_intro _ _ Ho)) as (? & ? & _); done.
  - intros Hacc.
    assert (∀ k, ∃ t, addResources k ∅ (resourcesOf k conf) = Ok t) as Hk.
    { intros k. apply addResources_Ok. destruct (Hacc k) as [H1 H2].
      split; [done|]. split; [done|]. intros c _. apply lookup_empty. }
    destruct (Hk Cache) as [c Hc]. destruct (Hk RateLimit) as [r Hr].
    destruct (Hk Processor) as [p Hp]. destruct (Hk Input) as [i Hi].
    destruct (Hk Output) as [o Ho]. simpl in *.
    rewrite Hc, Hr, Hp, Hi, Ho. eauto.
Qed.

Lemma New_Err conf e :
  New conf = Err e →
  (∃ k c, c ∈ resourcesOf k conf ∧ Label c = "")
  ∨ ∃ msg, e = Errorf msg ∧ contains msg "collides".
Proof.
  unfold New. intros H.
  assert (∀ k t e', addResources k t (resourcesOf k conf) = Err e' →
            (∃ k c, c ∈ resourcesOf k conf ∧ Label c = "")
            ∨ ∃ msg, e' = Errorf msg ∧ contains msg "collides") as Hone.
  { intros k t e' He. apply addResources_Err in He as [(c & Hc & Hl)|[l ->]].
    - left. eauto.
    - right. eexists. split; [done|]. apply collides_contains. }
  destruct (addResources Cache ∅ (ResourceCaches conf)) eqn:Hc;
    [|injection H as <-; by apply (Hone Cache ∅)].
  destruct (addResources RateLimit ∅ (ResourceRateLimits conf)) eqn:Hr;
    [|injection H as <-; by apply (Hone RateLimit ∅)].
  destruct (addResources Processor ∅ (ResourceProcessors conf)) eqn:Hp;
    [|injection H as <-; by apply (Hone Processor ∅)].
  destruct (addResources Input ∅ (ResourceInputs conf)) eqn:Hi;
    [|injection H as <-; by apply (Hone Input ∅)].
  destruct (addResources Output ∅ (ResourceOutputs conf)) eqn:Ho;
    [|injection H as <-; by apply (Hone Output ∅)].
  done.
Qed.

Lemma New_rejects conf : ¬ accepted conf → ∃ e, New conf = Err e.
Proof.
  intros Hn. destruct (New conf) as [m|e] eqn:Hnew; [|eauto].
  exfalso. apply Hn, New_Ok_iff. eauto.
Qed.

Lemma table_setTable k k' t m :
  table k' (setTable k t m) = if decide (k' = k) then t else table k' m.
Proof. destruct k, k'; simpl; done. Qed.

Lemma New_tables conf m k :
  New conf = Ok m → addResources k ∅ (resourcesOf k conf) = Ok (table k m).
Proof.
  unfold New. intros H.
  destruct (addResources Cache ∅ (ResourceCaches conf)) eqn:Hc; [|done].
  destruct (addResources RateLimit ∅ (ResourceRateLimits conf)) eqn:Hr; [|done].
  destruct (addResources Processor ∅ (ResourceProcessors conf)) eqn:Hp; [|done].
  destruct (addResources Input ∅ (ResourceInputs conf)) eqn:Hi; [|done].
  destruct (addResources Output ∅ (ResourceOutputs conf)) eqn:Ho; [|done].
  injection H as <-. destruct k; done.
Qed.

End manager_facts.

(** ** Programs confined to one part *)

Module confined_facts.
Import message processor retry.
Import message_facts processor_facts retry_facts.

(** What a part shows is what its methods read. *)
Lemma observe_AsBytes st p v : observe st p = Some v → AsBytes p st = v_bytes v.
Proof.
  rewrite observe_unfold. unfold AsBytes.
  destruct (parts st !! p); [|done]. by intros [= <-].
Qed.

Lemma observe_MetaGetMut st p k v :
  observe st p = Some v → MetaGetMut p k st = v_meta v !! k.
Proof.
  rewrite observe_unfold, MetaGetMut_unfold.
  destruct (parts st !! p); [|done]. by intros [= <-].
Qed.

Lemma observe_ErrorGet st p v : observe st p = Some v → ErrorGet p st = v_err v.
Proof.
  rewrite observe_unfold, ErrorGet_unfold.
  destruct (parts st !! p); [|done]. by intros [= <-].
Qed.

(** What a part shows after a write to it. *)
Lemma SetBytes_self p b st v :
  isolated st p → observe st p = Some v →
  isolated (SetBytes p b st) p
  ∧ observe (SetBytes p b st) p
    = Some {| v_bytes := b; v_meta := v_meta v; v_err := v_err v |}.
Proof.
  intros (d & Hp & Hlt & Hiso) Ho.
  pose proof (lookup_lt_Some _ _ _ Hp) as Hplt.
  unfold SetBytes. rewrite Hp. split.
  - eexists. simpl. split; [by apply list_lookup_insert_eq|]. simpl.
    split; [done|]. intros q d' Hne Hq Hm.
    rewrite list_lookup_insert_ne in Hq by done. eauto.
  - rewrite observe_unfold in Ho |- *. simpl.
    rewrite list_lookup_insert_eq by done. rewrite Hp in Ho.
    injection Ho as <-. done.
Qed.

Lemma metaWrite_self f p st v :
  wellFormed st → isolated st p → observe st p = Some v →
  isolated (metaWrite f p st) p
  ∧ observe (metaWrite f p st) p
    = Some {| v_bytes := v_bytes v; v_meta := f (v_meta v); v_err := v_err v |}.
Proof.
  intros Hwf (d & Hp & Hlt & Hiso) Ho.
  pose proof (lookup_lt_Some _ _ _ Hp) as Hplt.
  rewrite observe_unfold, Hp in Ho. injection Ho as <-.
  unfold metaWrite. rewrite Hp. destruct (readOnlyMeta d) eqn:Hro.
  - split.
    + eexists. simpl. split; [by apply list_lookup_insert_eq|]. simpl.
      split; [rewrite length_app; simpl; lia|].
      intros q d' Hne Hq Hm.
      rewrite list_lookup_insert_ne in Hq by done.
      specialize (Hwf _ _ Hq). lia.
    + rewrite observe_unfold. simpl.
      rewrite list_lookup_insert_eq by done. simpl. unfold metaOf at 1. simpl.
      rewrite lookup_app_r by done. rewrite Nat.sub_diag. done.
  - split.
    + exists d. simpl. split; [done|]. split; [by rewrite length_insert|].
      done.
    + rewrite observe_unfold. simpl. rewrite Hp. unfold metaOf at 1. simpl.
      rewrite list_lookup_insert_eq by done. done.
Qed.

(** The copy made of an isolated part is isolated too. *)
Lemma ShallowCopy_copy_isolated p st :
  wellFormed st → isolated st p →
  isolated (ShallowCopy p st).2 (ShallowCopy p st).1.
Proof.
  intros Hwf (d & Hp & Hlt & Hiso).
  pose proof (lookup_lt_Some _ _ _ Hp) as Hplt.
  unfold ShallowCopy. rewrite Hp. cbn [fst snd]. unfold isolated.
  cbn [parts metas].
  eexists. split.
  { rewrite lookup_app_r by (rewrite length_insert; lia).
    rewrite length_insert, Nat.sub_diag. reflexivity. }
  cbn [metadata readOnlyMeta]. split; [done|].
  intros q d' Hne Hq Hm.
  destruct (decide (q < length (parts st))%nat) as [Hq'|Hq'].
  - rewrite lookup_app_l in Hq by (rewrite length_insert; done).
    destruct (decide (q = p)) as [->|Hqp].
    + rewrite list_lookup_insert_eq in Hq by done. by injection Hq as <-.
    + rewrite list_lookup_insert_ne in Hq by done. eauto.
  - rewrite lookup_app_r in Hq by (rewrite length_insert; lia).
    rewrite length_insert in Hq.
    destruct (q - length (parts st))%nat as [|n] eqn:Hn; [lia|].
    by destruct n.
Qed.

(** What a program confined to [c] returns, and what [c] shows when it ends,
    depend on the store through what [c] shows and on nothing else. *)
Lemma run_confined {A : Type} (c : Part) (prog : Prog A) :
  confined c prog → ∀ h1 h2 v,
  c ∈ held h1 → c ∈ held h2 →
  wellFormed (store h1) → wellFormed (store h2) →
  isolated (store h1) c → isolated (store h2) c →
  observe (store h1) c = Some v → observe (store h2) c = Some v →
  (run prog h1).1 = (run prog h2).1
  ∧ observe (store (run prog h1).2) c = observe (store (run prog h2).2) c.
Proof.
  induction 1 as [a|k Hk IH|b k Hk IH|key k Hk IH|key x k Hk IH|key k Hk IH
                 |k Hk IH|e k Hk IH];
    intros h1 h2 v Hh1 Hh2 Hw1 Hw2 Hi1 Hi2 Ho1 Ho2; cbn [run];
    unfold holds; rewrite ?bool_decide_true by done.
  - cbn [fst snd]. split; [done|]. by rewrite Ho1, Ho2.
  - rewrite (observe_AsBytes _ _ _ Ho1), (observe_AsBytes _ _ _ Ho2).
    by apply (IH _ h1 h2 v).
  - destruct (SetBytes_self c b _ v Hi1 Ho1) as [Hi1' Ho1'].
    destruct (SetBytes_self c b _ v Hi2 Ho2) as [Hi2' Ho2'].
    eapply (IH (onStore (SetBytes c b) h1) (onStore (SetBytes c b) h2));
      [done|done|by apply SetBytes_wellFormed|by apply SetBytes_wellFormed
      |exact Hi1'|exact Hi2'|exact Ho1'|exact Ho2'].
  - rewrite (observe_MetaGetMut _ _ key _ Ho1),
      (observe_MetaGetMut _ _ key _ Ho2).
    by apply (IH _ h1 h2 v).
  - destruct (metaWrite_self (λ m, <[key := x]> m) c _ v Hw1 Hi1 Ho1)
      as [Hi1' Ho1'].
    destruct (metaWrite_self (λ m, <[key := x]> m) c _ v Hw2 Hi2 Ho2)
      as [Hi2' Ho2'].
    eapply (IH (onStore (MetaSetMut c key x) h1) (onStore (MetaSetMut c key x) h2));
      [done|done|by apply metaWrite_wellFormed|by apply metaWrite_wellFormed
      |exact Hi1'|exact Hi2'|exact Ho1'|exact Ho2'].
  - destruct (metaWrite_self (λ m, delete key m) c _ v Hw1 Hi1 Ho1)
      as [Hi1' Ho1'].
    destruct (metaWrite_self (λ m, delete key m) c _ v Hw2 Hi2 Ho2)
      as [Hi2' Ho2'].
    eapply (IH (onStore (MetaDelete c key) h1) (onStore (MetaDelete c key) h2));
      [done|done|by apply metaWrite_wellFormed|by apply metaWrite_wellFormed
      |exact Hi1'|exact Hi2'|exact Ho1'|exact Ho2'].
  - rewrite (observe_ErrorGet _ _ _ Ho1), (observe_ErrorGet _ _ _ Ho2).
    by apply (IH _ h1 h2 v).
  - destruct (ErrorSet_self c e _ v Hi1 Ho1) as [Hi1' Ho1'].
    destruct (ErrorSet_self c e _ v Hi2 Ho2) as [Hi2' Ho2'].
    eapply (IH (onStore (ErrorSet c e) h1) (onStore (ErrorSet c e) h2));
      [done|done|by apply ErrorSet_wellFormed|by apply ErrorSet_wellFormed
      |exact Hi1'|exact Hi2'|exact Ho1'|exact Ho2'].
Qed.

(** The deferred stamping writes metadata only. *)
Lemma metaWrite_AsBytes f q m st : AsBytes m (metaWrite f q st) = AsBytes m st.
Proof.
  unfold metaWrite, AsBytes. destruct (parts st !! q) as [d|] eqn:Hq; [|done].
  destruct (readOnlyMeta d); [|done]. simpl.
  destruct (decide (m = q)) as [->|Hne].
  - rewrite list_lookup_insert_eq by (eapply lookup_lt_Some; eauto).
    by rewrite Hq.
  - by rewrite list_lookup_insert_ne.
Qed.

Lemma stamp_AsBytes r bd res m : ∀ st,
  AsBytes m (stamp r bd res st) = AsBytes m st.
Proof.
  intros st. rewrite stamp_flat. revert st.
  induction (concat res) as [|q l IH]; intros st; [done|].
  simpl. rewrite IH. unfold stampPart, MetaSetMut.
  by rewrite !metaWrite_AsBytes.
Qed.

End confined_facts.

(** ** What the deferred function stamps, exit by exit *)

Module retry_exit_facts.
Import message processor retry.
Import message_facts processor_facts retry_facts.

Section exits.
Context {ChildSt : Type}.
Variable ExecuteAll : ChildSt → Batch → Prog (ChildSt * result (list Batch)).
Variable maxRetries : Z.
Variable NextBackOff : nat → Duration.
Variable ctxDone : nat → option error.

Local Abbreviation executeChildren := (executeChildren ExecuteAll).
Local Abbreviation varsAt := (varsAt ExecuteAll maxRetries NextBackOff ctxDone).
Local Abbreviation dispatchMessage :=
  (dispatchMessage ExecuteAll maxRetries NextBackOff ctxDone).
Local Abbreviation slept := (slept NextBackOff).

(** The children came back clean in iteration [k]: [k] failed executions and
    the [k] backoff periods slept are stamped. *)
Lemma dispatch_stamps_on_success p w k vars res fuel :
  varsAt p k (enter p w) = Some vars →
  (executeChildren p (world vars)).2 = Ok res →
  hasFailed (store (heap (executeChildren p (world vars)).1)) res = false →
  (k < fuel)%nat →
  ∃ w', dispatchMessage fuel p w = Some (w', res, None)
        ∧ store (heap w')
          = stamp (wrap64 (Z.of_nat k)) (wrap64 (slept k)) res
                  (store (heap (executeChildren p (world vars)).1)).
Proof.
  intros Hv Hres Hf Hlt.
  pose proof (iteration_passed ExecuteAll maxRetries NextBackOff ctxDone
                p k vars res Hres Hf) as Hit.
  destruct (varsAt_enter_counters _ _ _ _ _ _ _ _ Hv) as [Hr Hb].
  unfold retry.dispatchMessage.
  rewrite (loop_Return _ _ _ _ p k (enter p w) vars _ res None fuel Hv Hit Hlt).
  eexists. split; [reflexivity|]. simpl. by rewrite Hr, Hb.
Qed.

(** The retry counter reached [maxRetries] in iteration [k]: the [k] backoff
    periods slept are stamped. *)
Lemma dispatch_stamps_on_maxRetries p w k vars res fuel :
  varsAt p k (enter p w) = Some vars →
  (executeChildren p (world vars)).2 = Ok res →
  hasFailed (store (heap (executeChildren p (world vars)).1)) res = true →
  wrap64 (retries vars + 1) = maxRetries →
  (k < fuel)%nat →
  ∃ w', dispatchMessage fuel p w = Some (w', res, None)
        ∧ store (heap w')
          = stamp maxRetries (wrap64 (slept k)) res
                  (store (heap (executeChildren p (world vars)).1)).
Proof.
  intros Hv Hres Hf Hmax Hlt.
  pose proof (iteration_failed ExecuteAll maxRetries NextBackOff ctxDone
                p k vars res Hres Hf) as Hit. cbv zeta in Hit.
  rewrite Hmax, Z.eqb_refl in Hit.
  destruct (varsAt_enter_counters _ _ _ _ _ _ _ _ Hv) as [Hr Hb].
  unfold retry.dispatchMessage.
  rewrite (loop_Return _ _ _ _ p k (enter p w) vars _ res None fuel Hv Hit Hlt).
  eexists. split; [reflexivity|]. simpl. by rewrite Hb.
Qed.

(** The backoff returned [Stop] in iteration [k]: [Stop] itself is added to
    the [k] backoff periods slept. *)
Lemma dispatch_stamps_on_Stop p w k vars res fuel :
  varsAt p k (enter p w) = Some vars →
  (executeChildren p (world vars)).2 = Ok res →
  hasFailed (store (heap (executeChildren p (world vars)).1)) res = true →
  wrap64 (retries vars + 1) ≠ maxRetries →
  NextBackOff k = Stop →
  (k < fuel)%nat →
  ∃ w', dispatchMessage fuel p w = Some (w', res, None)
        ∧ store (heap w')
          = stamp (wrap64 (Z.of_nat (S k))) (wrap64 (slept k + Stop)) res
                  (store (heap (executeChildren p (world vars)).1)).
Proof.
  intros Hv Hres Hf Hmax Hstop Hlt.
  pose proof (iteration_failed ExecuteAll maxRetries NextBackOff ctxDone
                p k vars res Hres Hf) as Hit. cbv zeta in Hit.
  rewrite (proj2 (Z.eqb_neq _ _) Hmax), Hstop, Z.eqb_refl in Hit.
  destruct (varsAt_enter_counters _ _ _ _ _ _ _ _ Hv) as [Hr Hb].
  unfold retry.dispatchMessage.
  rewrite (loop_Return _ _ _ _ p k (enter p w) vars _ res None fuel Hv Hit Hlt).
  eexists. split; [reflexivity|]. simpl.
  rewrite Hr, Hb, !wrap64_add_l. do 2 f_equal. lia.
Qed.

End exits.
End retry_exit_facts.

(** ** The retry loop, run to its exits *)

Module retry_run_facts.
Import message processor retry.
Import message_facts processor_facts retry_facts.

Section run.
Context {ChildSt : Type}.
Variable ExecuteAll : ChildSt → Batch → Prog (ChildSt * result (list Batch)).
Variable maxRetries : Z.
Variable NextBackOff : nat → Duration.
Variable ctxDone : nat → option error.

Local Abbreviation executeChildren := (executeChildren ExecuteAll).
Local Abbreviation iteration :=
  (iteration ExecuteAll maxRetries NextBackOff ctxDone).
Local Abbreviation loop := (loop ExecuteAll maxRetries NextBackOff ctxDone).
Local Abbreviation varsAt := (varsAt ExecuteAll maxRetries NextBackOff ctxDone).

Lemma varsAt_enter_wellFormed p w k vars :
  wellFormed (store (heap w)) →
  varsAt p k (enter p w) = Some vars →
  wellFormed (store (heap (executeChildren p (world vars)).1)).
Proof.
  intros Hwf Hv. apply executeChildren_wellFormed.
  eapply varsAt_wellFormed; [exact Hv|]. simpl. by apply ErrorSet_wellFormed.
Qed.

(** The children do not write to the log of the processor. *)
Lemma executeChildren_log p w : log (executeChildren p w).1 = log w.
Proof.
  unfold retry.executeChildren.
  destruct (ShallowCopy p (store (heap w))) as [c st].
  destruct (run _ _) as [[cs res] h']. done.
Qed.

Lemma stamped_after r bd res st b m :
  wellFormed st → b ∈ res → m ∈ b →
  is_Some (parts (stamp r bd res st) !! m) →
  stamped r bd (stamp r bd res st) m.
Proof.
  intros Hwf Hb Hm Hv. eapply stamp_stamps; eauto.
  apply lookup_lt_is_Some. apply lookup_lt_is_Some in Hv.
  by rewrite stamp_length in Hv.
Qed.

(** A part of the table stays in the table. *)
Lemma varsAt_valid p k : ∀ v0 v q,
  varsAt p k v0 = Some v →
  is_Some (parts (store (heap (world v0))) !! q) →
  is_Some (parts (store (heap (world v))) !! q).
Proof.
  induction k as [|k IH]; intros v0 v q Hv Hq; simpl in Hv.
  - by injection Hv as <-.
  - destruct (retry.varsAt _ _ _ _ p k v0) as [v1|] eqn:Hk; [|done].
    pose proof (iteration_heap ExecuteAll maxRetries NextBackOff ctxDone p k v1)
      as Hh.
    destruct (retry.iteration _ _ _ _ p k v1) as [v2|] eqn:Hit; [|done].
    injection Hv as <-. rewrite Hh.
    eapply valid_mono; [apply executeChildren_length|]. eauto.
Qed.

(** An iteration that goes on did not reach [maxRetries]. *)
Lemma iteration_Continue_below p k v v' :
  iteration p k v = Continue v' → wrap64 (retries v + 1) ≠ maxRetries.
Proof.
  unfold retry.iteration.
  destruct (executeChildren p (world v)) as [w res].
  destruct res as [resBatches|e]; [|done].
  destruct (negb _); [done|].
  destruct (_ =? maxRetries) eqn:Hm; [done|]. intros _.
  by apply Z.eqb_neq.
Qed.

(** The loop that has not returned after [fuel] iterations got to iteration
    [fuel]. *)
Lemma loop_out_of_fuel p fuel v0 :
  loop fuel p 0 v0 = None → ∃ v, varsAt p fuel v0 = Some v.
Proof.
  assert (∀ n k v, varsAt p k v0 = Some v → loop n p k v = None →
                   ∃ v', varsAt p (k + n) v0 = Some v') as H.
  { induction n as [|n IH]; intros k v Hv Hl.
    - rewrite Nat.add_0_r. eauto.
    - simpl in Hl.
      destruct (retry.iteration _ _ _ _ p k v) as [v1|] eqn:Hit; [|done].
      replace (k + S n)%nat with (S k + n)%nat by lia.
      apply (IH (S k) v1); [|done]. simpl. rewrite Hv, Hit. done. }
  intros Hl. apply (H fuel 0%nat v0 eq_refl Hl).
Qed.

(** The deferred stamping leaves a part that is not in the result as it
    is. *)
Lemma stamp_keeps_outsider r bd p : ∀ l st v,
  p ∉ l → isolated st p → observe st p = Some v →
  observe (foldl (stampPart r bd) st l) p = Some v.
Proof.
  induction l as [|m l IH]; intros st v Hnin Hi Ho; [done|].
  simpl. apply not_elem_of_cons in Hnin as [Hne Hnin].
  assert (keeps p st (stampPart r bd st m)) as Hk.
  { unfold stampPart, MetaSetMut.
    eapply keeps_trans; apply keeps_metaWrite; done. }
  destruct (Hk _ Hi Ho) as (Hi' & Ho' & _).
  by apply IH.
Qed.

End run.

(** [processSerial] returns a result exactly when every part was dispatched
    with a nil error, each call from the world the one before left; the
    result is then the one batch of what was there and what the calls
    returned, in order. *)
Lemma processSerial_Ok {ChildSt : Type}
    (ExecuteAll : ChildSt → Batch → Prog (ChildSt * result (list Batch)))
    maxRetries NextBackOff ctxDone fuel : ∀ msgs resMsg w w' res,
  processSerial ExecuteAll maxRetries NextBackOff ctxDone fuel msgs resMsg w
  = Some (w', Ok res)
  ↔ ∃ tmps, res = [resMsg ++ concat (@concat nat <$> tmps)]
            ∧ dispatched ExecuteAll maxRetries NextBackOff ctxDone
                fuel w msgs tmps w'.
Proof.
  induction msgs as [|p msgs IH]; intros resMsg w w' res.
  - cbn [processSerial]. split.
    + intros [= <- <-]. exists []. simpl. by rewrite app_nil_r.
    + intros ([|tmp tmps] & -> & Hd); [|done]. simpl in Hd. subst w'.
      simpl. by rewrite app_nil_r.
  - cbn [processSerial]. split.
    + destruct (dispatchMessage _ _ _ _ fuel p w) as [[[w1 tmp] [e|]]|] eqn:Hd;
        [done| |done].
      intros H. apply IH in H as (tmps & -> & Hall).
      exists (tmp :: tmps). simpl. rewrite app_assoc. split; [done|].
      exists w1. done.
    + intros ([|tmp tmps] & -> & Hd); [done|].
      destruct Hd as (w1 & Hd & Hall). rewrite Hd.
      apply IH. exists tmps. split; [|done].
      simpl. by rewrite app_assoc.
Qed.

(** [processSerial] returns an error exactly when the calls before some
    part returned nil errors and the call on that part returned the error;
    the parts after it are not dispatched. *)
Lemma processSerial_Err {ChildSt : Type}
    (ExecuteAll : ChildSt → Batch → Prog (ChildSt * result (list Batch)))
    maxRetries NextBackOff ctxDone fuel : ∀ msgs resMsg w w' e,
  processSerial ExecuteAll maxRetries NextBackOff ctxDone fuel msgs resMsg w
  = Some (w', Err e)
  ↔ ∃ pre p post tmps w1 tmp,
      msgs = pre ++ p :: post
      ∧ dispatched ExecuteAll maxRetries NextBackOff ctxDone fuel w pre tmps w1
      ∧ dispatchMessage ExecuteAll maxRetries NextBackOff ctxDone fuel p w1
        = Some (w', tmp, Some e).
Proof.
  induction msgs as [|p msgs IH]; intros resMsg w w' e.
  - cbn [processSerial]. split; [done|].
    intros (pre & q & post & _ & _ & _ & Hm & _). by destruct pre.
  - cbn [processSerial]. split.
    + destruct (dispatchMessage _ _ _ _ fuel p w) as [[[w1 tmp] [e1|]]|] eqn:Hd;
        [| |done].
      * intros [= <- <-]. exists [], p, msgs, [], w, tmp. done.
      * intros H. apply IH in H
          as (pre & q & post & tmps & w2 & tmp' & -> & Hall & Hq).
        exists (p :: pre), q, post, (tmp :: tmps), w2, tmp'.
        split; [done|]. split; [|done]. exists w1. done.
    + intros (pre & q & post & tmps & w2 & tmp' & Hm & Hall & Hq).
      destruct pre as [|p' pre].
      * simpl in Hm. injection Hm as <- <-.
        destruct tmps; [|done]. simpl in Hall. subst w2. by rewrite Hq.
      * simpl in Hm. injection Hm as <- ->.
        destruct tmps as [|tmp tmps]; [done|].
        destruct Hall as (w1 & Hd & Hall). rewrite Hd.
        apply IH. exists pre, q, post, tmps, w2, tmp'. done.
Qed.

End retry_run_facts.

(** ** The rate-limit loop *)

Module rate_limit_facts.
Import message rate_limit.

(** The entry logged by iteration [k], if its access failed. *)
Lemma failures_S env k :
  failures env (S k)
  = failures env k
    ++ match accessErr (access env k) with
       | Some e => [(ERROR, "Failed to access rate limit: "
                            +:+ processor.errorString e)]
       | None => []
       end.
Proof. reflexivity. Qed.

(** One iteration, in terms of what it makes of the access. *)
Lemma ProcessFrom_S env fuel k msg log :
  ProcessFrom env (S fuel) k msg log
  = if bool_decide (ctxErr env k ≠ None)
    then Some ([], accessErr (access env k), log)
    else
      let log' := log ++ match accessErr (access env k) with
                         | Some e => [(ERROR, "Failed to access rate limit: "
                                              +:+ processor.errorString e)]
                         | None => []
                         end in
      if waitFor (access env k) =? 0 then Some ([msg], None, log')
      else match selected env k with
           | TimeAfter => ProcessFrom env fuel (S k) msg log'
           | CtxDone e => Some ([], Some e, log')
           | CloseChan => Some ([], Some ErrTypeClosed, log')
           end.
Proof.
  cbn [ProcessFrom]. unfold waitFor, accessErr.
  destruct (access env k) as [[[w [e|]]|] [r|]]; cbn [accessed rerr fst snd];
    destruct (bool_decide (ctxErr env k ≠ None)); try reflexivity;
    cbv zeta; rewrite ?app_nil_r; reflexivity.
Qed.

(** An access that failed is never an admission. *)
Lemma waitFor_failed o e : accessErr o = Some e → waitFor o = Second.
Proof. unfold waitFor. by intros ->. Qed.

Lemma waitFor_0_accessErr o : waitFor o = 0 → accessErr o = None.
Proof.
  unfold waitFor. destruct (accessErr o); [|done]. discriminate.
Qed.

(** Iterations that wait lead to the next iteration. *)
Lemma ProcessFrom_waits env msg log0 : ∀ n fuel i,
  (∀ j, (i ≤ j < i + n)%nat →
        ctxErr env j = None ∧ waitFor (access env j) ≠ 0
        ∧ selected env j = TimeAfter) →
  ProcessFrom env (n + fuel) i msg (log0 ++ failures env i)
  = ProcessFrom env fuel (i + n) msg (log0 ++ failures env (i + n)).
Proof.
  induction n as [|n IH]; intros fuel i H.
  - by rewrite Nat.add_0_r.
  - cbn [Nat.add]. rewrite ProcessFrom_S.
    destruct (H i) as (Hc & Hw & Hs); [lia|].
    rewrite Hc, bool_decide_false by (intros ?; done).
    cbv zeta. rewrite (proj2 (Z.eqb_neq _ _) Hw), Hs.
    rewrite <- app_assoc, <- failures_S.
    replace (i + S n)%nat with (S i + n)%nat by lia.
    apply IH. intros j Hj. apply H. lia.
Qed.

(** The iteration at which a run that returns does so. *)
Lemma ProcessFrom_exit env msg log0 ps err log' : ∀ fuel i,
  ProcessFrom env fuel i msg (log0 ++ failures env i) = Some (ps, err, log') →
  ∃ k, (i ≤ k < i + fuel)%nat
    ∧ (∀ j, (i ≤ j < k)%nat →
            ctxErr env j = None ∧ waitFor (access env j) ≠ 0
            ∧ selected env j = TimeAfter)
    ∧ ((ctxErr env k ≠ None ∧ ps = [] ∧ err = accessErr (access env k)
        ∧ log' = log0 ++ failures env k)
       ∨ (ctxErr env k = None ∧ waitFor (access env k) = 0
          ∧ ps = [msg] ∧ err = None ∧ log' = log0 ++ failures env k)
       ∨ (ctxErr env k = None ∧ waitFor (access env k) ≠ 0
          ∧ ps = [] ∧ log' = log0 ++ failures env (S k)
          ∧ ((∃ e, selected env k = CtxDone e ∧ err = Some e)
             ∨ (selected env k = CloseChan ∧ err = Some ErrTypeClosed)))).
Proof.
  induction fuel as [|fuel IH]; intros i H; [done|].
  rewrite ProcessFrom_S in H.
  destruct (bool_decide (ctxErr env i ≠ None)) eqn:Hc.
  - apply bool_decide_eq_true in Hc. injection H as <- <- <-.
    exists i. split; [lia|]. split; [intros j Hj; lia|]. left. done.
  - apply bool_decide_eq_false in Hc.
    assert (ctxErr env i = None) as Hc'.
    { destruct (ctxErr env i); [exfalso; apply Hc; done|done]. }
    cbv zeta in H. rewrite <- app_assoc in H.
    change (failures env i ++ _) with (failures env (S i)) in H.
    destruct (waitFor (access env i) =? 0) eqn:Hw.
    + apply Z.eqb_eq in Hw. injection H as <- <- <-.
      exists i. split; [lia|]. split; [intros j Hj; lia|]. right. left.
      cbn [failures]. rewrite (waitFor_0_accessErr _ Hw), app_nil_r. done.
    + apply Z.eqb_neq in Hw.
      destruct (selected env i) as [|e|] eqn:Hs.
      * destruct (IH _ H) as (k & Hk & Hpre & Hex).
        exists k. split; [lia|]. split; [|done].
        intros j Hj. destruct (decide (j = i)) as [->|Hne]; [done|].
        apply Hpre. lia.
      * injection H as <- <- <-.
        exists i. split; [lia|]. split; [intros j Hj; lia|]. right. right.
        repeat split; try done. left. eauto.
      * injection H as <- <- <-.
        exists i. split; [lia|]. split; [intros j Hj; lia|]. right. right.
        repeat split; try done. right. done.
Qed.

Lemma Process_from_0 env fuel msg log :
  Process env fuel msg log
  = ProcessFrom env fuel 0 msg (log ++ failures env 0).
Proof. unfold Process. simpl. by rewrite app_nil_r. Qed.

End rate_limit_facts.

(** ** Frames of the writes to one part *)

Module frame_facts.
Import message processor.
Import message_facts.

Lemma ErrorSet_observe_ne p q e st :
  q ≠ p → observe (ErrorSet p e st) q = observe st q.
Proof.
  intros Hne. unfold ErrorSet. destruct (parts st !! p) as [d|]; [|done].
  rewrite !observe_unfold. simpl.
  rewrite list_lookup_insert_ne by done. done.
Qed.

Lemma ErrorSet_AsBytes p q e st : AsBytes q (ErrorSet p e st) = AsBytes q st.
Proof.
  unfold ErrorSet, AsBytes. destruct (parts st !! p) as [d|] eqn:Hp; [|done].
  simpl. destruct (decide (q = p)) as [->|Hne].
  - rewrite list_lookup_insert_eq by (eapply lookup_lt_Some; eauto).
    by rewrite Hp.
  - by rewrite list_lookup_insert_ne.
Qed.

Lemma ErrorSet_MetaGetMut p q k e st :
  MetaGetMut q k (ErrorSet p e st) = MetaGetMut q k st.
Proof.
  unfold ErrorSet. destruct (parts st !! p) as [d|] eqn:Hp; [|done].
  rewrite !MetaGetMut_unfold. simpl. destruct (decide (q = p)) as [->|Hne].
  - rewrite list_lookup_insert_eq by (eapply lookup_lt_Some; eauto).
    by rewrite Hp.
  - by rewrite list_lookup_insert_ne.
Qed.

Lemma SetBytes_observe_ne p q b st :
  q ≠ p → observe (SetBytes p b st) q = observe st q.
Proof.
  intros Hne. unfold SetBytes. destruct (parts st !! p) as [d|]; [|done].
  rewrite !observe_unfold. simpl.
  rewrite list_lookup_insert_ne by done. done.
Qed.

Lemma SetBytes_AsBytes_eq p b st :
  is_Some (parts st !! p) → AsBytes p (SetBytes p b st) = b.
Proof.
  intros [d Hp]. unfold SetBytes, AsBytes. rewrite Hp. simpl.
  rewrite list_lookup_insert_eq by (eapply lookup_lt_Some; eauto). done.
Qed.

Lemma SetBytes_MetaGetMut p q k b st :
  MetaGetMut q k (SetBytes p b st) = MetaGetMut q k st.
Proof.
  unfold SetBytes. destruct (parts st !! p) as [d|] eqn:Hp; [|done].
  rewrite !MetaGetMut_unfold. simpl. destruct (decide (q = p)) as [->|Hne].
  - rewrite list_lookup_insert_eq by (eapply lookup_lt_Some; eauto).
    by rewrite Hp.
  - by rewrite list_lookup_insert_ne.
Qed.

End frame_facts.

(** ** The mapper loop, iteration by iteration *)

Module mapper_order_facts.
Import message processor mapper.
Import message_facts mapper_facts.

Section executor.
Context {ExecSt : Type}.
Variable call : Call (ExecSt := ExecSt).
Variable ctx : BatchProcContext.
Variable b : Batch.
Variable w : World (ExecSt := ExecSt).

(** What one iteration appends. *)
Lemma step_appends i msg :
  b !! i = Some msg →
  (stateAt call ctx b w (S i)).2
  = (stateAt call ctx b w i).2 ++ appended call ctx b w i msg
  ∧ log (stateAt call ctx b w (S i)).1
    = log (stateAt call ctx b w i).1 ++ logged call ctx b w i msg.
Proof.
  intros Hi. rewrite (stateAt_S _ _ _ _ _ _ Hi).
  unfold appended, logged, outcomeAt. cbv zeta.
  destruct (stateAt call ctx b w i) as [wi nb]. unfold step. cbn [fst snd].
  destruct (run _ _) as [[es r] h]. cbn [fst snd].
  destruct r as [[np|]|e]; cbn [fst snd log].
  - by rewrite app_nil_r.
  - by rewrite !app_nil_r.
  - destruct (OnError _ _ _ _ _) as [st evs]. done.
Qed.

Lemma stateAt_imap i :
  (i ≤ length b)%nat →
  (stateAt call ctx b w i).2
  = concat (imap (appended call ctx b w) (take i b))
  ∧ log (stateAt call ctx b w i).1
    = log w ++ concat (imap (logged call ctx b w) (take i b)).
Proof.
  induction i as [|i IH]; intros Hle.
  - unfold stateAt. simpl. by rewrite app_nil_r.
  - destruct (lookup_lt_is_Some_2 b i) as [msg Hi]; [lia|].
    destruct IH as [IHb IHl]; [lia|].
    destruct (step_appends i msg Hi) as [Hb Hl].
    rewrite Hb, Hl, IHb, IHl, (take_S_r _ _ _ Hi), !imap_app, !concat_app.
    rewrite length_take_le by lia. simpl. rewrite Nat.add_0_r, !app_nil_r.
    by rewrite app_assoc.
Qed.

Lemma appended_length i msg : (length (appended call ctx b w i msg) ≤ 1)%nat.
Proof.
  unfold appended. destruct (outcomeAt _ _ _ _ _ _) as [[np|]|e]; simpl; lia.
Qed.

Lemma concat_imap_length {A B : Type} (f : nat → A → list B) : ∀ l,
  (∀ i x, (length (f i x) ≤ 1)%nat) →
  (length (concat (imap f l)) ≤ length l)%nat.
Proof.
  intros l. revert f. induction l as [|x l IH]; intros f Hf; simpl; [lia|].
  rewrite length_app. specialize (IH (f ∘ S)).
  pose proof (Hf 0%nat x). specialize (IH (λ i y, Hf (S i) y)). lia.
Qed.

Lemma processBatch_final :
  processBatch call ctx b w
  = let final := stateAt call ctx b w (length b) in
    (final.1, if decide (final.2 = []) then [] else [final.2], None).
Proof.
  unfold processBatch, stateAt. rewrite firstn_all.
  destruct (range _ _ _ _ _ _) as [w' nb]. simpl.
  destruct nb; simpl; done.
Qed.

End executor.
End mapper_order_facts.

(** ** The websocket writer and its connection *)

Module websocket_facts.
Import message websocket.

Lemma clientAfter_cons env n cur ev t :
  clientAfter env n cur (ev :: t)
  = clientAfter env (S n) (next env n cur ev) t.
Proof. reflexivity. Qed.

Lemma clientAfter_app env t1 : ∀ n cur t2,
  clientAfter env n cur (t1 ++ t2)
  = clientAfter env (n + length t1) (clientAfter env n cur t1) t2.
Proof.
  induction t1 as [|ev t1 IH]; intros n cur t2.
  - simpl. by rewrite Nat.add_0_r.
  - rewrite <- app_comm_cons, !clientAfter_cons, IH. simpl length.
    by replace (S n + length t1)%nat with (n + S (length t1))%nat by lia.
Qed.

Lemma readersAfter_app t1 : ∀ rs t2,
  readersAfter rs (t1 ++ t2) = readersAfter (readersAfter rs t1) t2.
Proof.
  induction t1 as [|ev t1 IH]; intros rs t2; [done|].
  rewrite <- app_comm_cons. cbn [readersAfter]. apply IH.
Qed.

Lemma allFit_app env t1 : ∀ n cur rs t2,
  allFit env n cur rs (t1 ++ t2)
  ↔ allFit env n cur rs t1
    ∧ allFit env (n + length t1) (clientAfter env n cur t1)
        (readersAfter rs t1) t2.
Proof.
  induction t1 as [|ev t1 IH]; intros n cur rs t2.
  - simpl. rewrite Nat.add_0_r. tauto.
  - rewrite <- app_comm_cons. cbn [allFit readersAfter].
    rewrite IH, clientAfter_cons. simpl length.
    replace (S n + length t1)%nat with (n + S (length t1))%nat by lia. tauto.
Qed.

Lemma allFit_at env pre ev post :
  allFit env 0 None [] (pre ++ ev :: post) →
  fits (clientAfter env 0 None pre) (readersAfter [] pre) ev.
Proof.
  rewrite allFit_app. intros [_ H]. cbn [allFit] in H. tauto.
Qed.

Lemma Connect_inOrder env w : inOrder env w → inOrder env (Connect env w).1.
Proof.
  intros [Hc Ha]. unfold Connect.
  destruct (client w) as [c|] eqn:Hcl; [split; [simpl; by rewrite Hcl|done]|].
  destruct (reqSigner env (length (trace w))) as [e|].
  - split; cbn [fst update client trace].
    + rewrite clientAfter_app. simpl. done.
    + apply allFit_app. split; [done|]. simpl. done.
  - destruct (Dial env (S (length (trace w)))) as [c r|e r] eqn:Hd.
    + split; cbn [fst update client trace].
      * rewrite clientAfter_app. cbn [Nat.add app clientAfter next].
        rewrite Hd. by destruct r.
      * apply allFit_app. split; [done|]. rewrite <- Hc.
        cbn [Nat.add app allFit fits next nextReaders]. rewrite Hd.
        by destruct r.
    + split; cbn [fst update client trace].
      * rewrite clientAfter_app. cbn [Nat.add app clientAfter next].
        rewrite Hd. by destruct r.
      * apply allFit_app. split; [done|]. rewrite <- Hc.
        cbn [Nat.add app allFit fits next nextReaders]. rewrite Hd.
        by destruct r.
Qed.

Lemma WriteBatch_inOrder env msg w :
  inOrder env w → inOrder env (WriteBatch env msg w).1.
Proof.
  intros [Hc Ha]. unfold WriteBatch.
  destruct (client w) as [c|] eqn:Hcl; [|split; [simpl; by rewrite Hcl|done]].
  destruct (Iter env (length (trace w)) c msg) as [e|] eqn:Hi.
  - split; cbn [fst update client trace].
    + rewrite clientAfter_app. cbn [Nat.add clientAfter next]. by rewrite Hi.
    + apply allFit_app. split; [done|]. rewrite <- Hc. simpl. done.
  - split; cbn [fst update client trace].
    + rewrite clientAfter_app. cbn [Nat.add clientAfter next]. by rewrite Hi.
    + apply allFit_app. split; [done|]. rewrite <- Hc. simpl. done.
Qed.

Lemma Close_inOrder env w : inOrder env w → inOrder env (Close env w).1.
Proof.
  intros [Hc Ha]. unfold Close.
  destruct (client w) as [c|] eqn:Hcl; [|split; [simpl; by rewrite Hcl|done]].
  split; cbn [fst update client trace].
  - rewrite clientAfter_app. done.
  - apply allFit_app. split; [done|]. rewrite <- Hc. simpl. done.
Qed.

Lemma call_inOrder env op w : inOrder env w → inOrder env (call env op w).1.
Proof.
  destruct op; [apply Connect_inOrder|apply WriteBatch_inOrder
                |apply Close_inOrder].
Qed.

(** The close of a goroutine leaves the client as it is. *)
Lemma readFailed_inOrder env c w :
  inOrder env w → inOrder env (readFailed c w).
Proof.
  intros [Hc Ha]. unfold readFailed. case_bool_decide as Hr; [|done].
  split; cbn [update client trace].
  - rewrite clientAfter_app. simpl. done.
  - apply allFit_app. split; [done|]. simpl. done.
Qed.

Lemma readFailed_client c w : client (readFailed c w) = client w.
Proof. unfold readFailed. by case_bool_decide. Qed.

Lemma calls_inOrder env ops : ∀ w,
  inOrder env w → inOrder env (calls env ops w).1.
Proof.
  induction ops as [|op ops IH]; intros w Hw; [done|].
  cbn [calls].
  pose proof (call_inOrder env op w Hw) as H1.
  destruct (call env op w) as [w1 r]. specialize (IH w1 H1).
  destruct (calls env ops w1) as [w2 rs]. done.
Qed.

Lemma steps_inOrder env ss : ∀ w,
  inOrder env w → inOrder env (steps env ss w).
Proof.
  induction ss as [|[op|c] ss IH]; intros w Hw; [done| |]; cbn [steps].
  - apply IH. by apply call_inOrder.
  - apply IH. by apply readFailed_inOrder.
Qed.

(** Writes without a client. *)
Lemma calls_WriteBatch_unconnected env w msgs :
  client w = None →
  calls env (OpWriteBatch <$> msgs) w
  = (w, (λ _, Some ErrNotConnected) <$> msgs).
Proof.
  intros Hc. induction msgs as [|msg msgs IH]; [done|].
  rewrite !fmap_cons. cbn [calls call]. unfold WriteBatch at 1. rewrite Hc.
  by rewrite IH.
Qed.

End websocket_facts.

(** ** The expression of the create command *)

Module cli_facts.
Import cli.

Section addExpression.
Variable TrimSpace : string → string.
Variable inputExists : string → bool.
Variable processorExists : string → bool.
Variable outputExists : string → bool.

Local Abbreviation rangeTypes := (rangeTypes TrimSpace).
Local Abbreviation rangeComponents := (rangeComponents TrimSpace).
Local Abbreviation typesOf := (typesOf TrimSpace).
Local Abbreviation typesAt := (typesAt TrimSpace).

Local Abbreviation kept := (typesAmong TrimSpace).

Lemma kept_cons t split :
  kept (t :: split)
  = if bool_decide (TrimSpace t ≠ "") then TrimSpace t :: kept split
    else kept split.
Proof.
  unfold typesAmong. rewrite fmap_cons, filter_cons.
  destruct (decide (TrimSpace t ≠ "")) as [H|H].
  - by rewrite bool_decide_true.
  - by rewrite bool_decide_false.
Qed.

(** The first three lists are appended to the types found so far. *)
Lemma rangeTypes_0 split : ∀ ts,
  rangeTypes 0 split ts
  = Ok {| inputTypes := inputTypes ts ++ kept split;
          processorTypes := processorTypes ts;
          outputTypes := outputTypes ts |}.
Proof.
  induction split as [|t split IH]; intros ts.
  - simpl. rewrite app_nil_r. by destruct ts.
  - cbn [cli.rangeTypes]. rewrite kept_cons.
    destruct (bool_decide (TrimSpace t ≠ "")).
    + cbn [addType]. rewrite IH. cbn. by rewrite <- app_assoc.
    + apply IH.
Qed.

Lemma rangeTypes_1 split : ∀ ts,
  rangeTypes 1 split ts
  = Ok {| inputTypes := inputTypes ts;
          processorTypes := processorTypes ts ++ kept split;
          outputTypes := outputTypes ts |}.
Proof.
  induction split as [|t split IH]; intros ts.
  - simpl. rewrite app_nil_r. by destruct ts.
  - cbn [cli.rangeTypes]. rewrite kept_cons.
    destruct (bool_decide (TrimSpace t ≠ "")).
    + cbn [addType]. rewrite IH. cbn. by rewrite <- app_assoc.
    + apply IH.
Qed.

Lemma rangeTypes_2 split : ∀ ts,
  rangeTypes 2 split ts
  = Ok {| inputTypes := inputTypes ts;
          processorTypes := processorTypes ts;
          outputTypes := outputTypes ts ++ kept split |}.
Proof.
  induction split as [|t split IH]; intros ts.
  - simpl. rewrite app_nil_r. by destruct ts.
  - cbn [cli.rangeTypes]. rewrite kept_cons.
    destruct (bool_decide (TrimSpace t ≠ "")).
    + cbn [addType]. rewrite IH. cbn. by rewrite <- app_assoc.
    + apply IH.
Qed.

(** A list after the third is accepted only without a type. *)
Lemma rangeTypes_3 i split ts :
  (3 ≤ i)%nat →
  rangeTypes i split ts
  = match kept split with
    | [] => Ok ts
    | _ => Err (Errorf "more component separators than expected")
    end.
Proof.
  intros Hi. induction split as [|t split IH]; [done|].
  cbn [cli.rangeTypes]. rewrite kept_cons.
  destruct (bool_decide (TrimSpace t ≠ "")); [|apply IH].
  destruct i as [|[|[|i]]]; try lia. done.
Qed.

Lemma rangeComponents_3 strs : ∀ i ts,
  (3 ≤ i)%nat →
  rangeComponents i strs ts
  = if bool_decide (Forall (λ str, typesOf str = []) strs) then Ok ts
    else Err (Errorf "more component separators than expected").
Proof.
  induction strs as [|str strs IH]; intros i ts Hi.
  - cbn [cli.rangeComponents]. rewrite bool_decide_true; [done|constructor].
  - cbn [cli.rangeComponents]. rewrite rangeTypes_3 by done.
    change (kept (Split comma str)) with (typesOf str).
    destruct (typesOf str) as [|t l] eqn:Ht.
    + rewrite IH by lia.
      destruct (decide (Forall (λ str, typesOf str = []) strs)) as [H|H].
      * rewrite !bool_decide_true; [done| |done]. by constructor.
      * rewrite !bool_decide_false; [done| |done].
        intros H'. apply H. by inversion H'.
    + rewrite bool_decide_false; [done|].
      intros H'. inversion H' as [|? ? H1 H2]. by rewrite Ht in H1.
Qed.

(** The three lists of types the first loop ends with. *)
Lemma rangeComponents_Ok expression :
  threeLists TrimSpace expression →
  rangeComponents 0 (Split slash expression)
    {| inputTypes := []; processorTypes := []; outputTypes := [] |}
  = Ok {| inputTypes := typesAt 0 expression;
          processorTypes := typesAt 1 expression;
          outputTypes := typesAt 2 expression |}.
Proof.
  unfold threeLists, cli.typesAt. intros H3.
  destruct (Split slash expression) as [|s0 [|s1 [|s2 rest]]] eqn:Hs;
    cbn [cli.rangeComponents lookup list_lookup];
    rewrite ?rangeTypes_0, ?rangeTypes_1, ?rangeTypes_2; cbn; try done.
  rewrite rangeComponents_3 by lia.
  rewrite bool_decide_true; [done|].
  apply Forall_lookup. intros j str Hj.
  specialize (H3 (3 + j)%nat). simpl in H3. rewrite Hj in H3. apply H3. lia.
Qed.

Lemma rangeComponents_Err expression i :
  (3 ≤ i)%nat → typesAt i expression ≠ [] →
  rangeComponents 0 (Split slash expression)
    {| inputTypes := []; processorTypes := []; outputTypes := [] |}
  = Err (Errorf "more component separators than expected").
Proof.
  unfold cli.typesAt. intros Hi Hne.
  destruct (Split slash expression) as [|s0 [|s1 [|s2 rest]]] eqn:Hs.
  - by destruct i.
  - destruct i as [|[|i]]; [lia|done|done].
  - destruct i as [|[|[|i]]]; [lia|lia|done|done].
  - destruct i as [|[|[|i]]]; try lia. cbn [lookup list_lookup] in Hne.
    cbn [cli.rangeComponents].
    rewrite rangeTypes_0, rangeTypes_1, rangeTypes_2, rangeComponents_3 by lia.
    rewrite bool_decide_false; [done|].
    intros Hall. rewrite Forall_lookup in Hall.
    destruct (rest !! i) as [str|] eqn:Hr; [|done].
    apply Hne. by apply (Hall i).
Qed.

(** The list of components of recognised types. *)
Lemma typesList_Ok exists_ kind types : ∀ lst,
  Forall (λ t, exists_ t = true) types →
  typesList exists_ kind types lst = Ok (lst ++ (typeMap <$> types)).
Proof.
  induction types as [|t types IH]; intros lst Hall.
  - simpl. by rewrite app_nil_r.
  - inversion Hall as [|? ? Ht Hall']; subst. cbn [typesList]. rewrite Ht.
    rewrite IH by done. rewrite fmap_cons, <- app_assoc. done.
Qed.

Lemma typesList_Err exists_ kind pre t post : ∀ lst,
  Forall (λ t, exists_ t = true) pre → exists_ t = false →
  typesList exists_ kind (pre ++ t :: post) lst
  = Err (Errorf ("unrecognised " +:+ kind +:+ " type '" +:+ t +:+ "'")).
Proof.
  induction pre as [|t' pre IH]; intros lst Hall Ht.
  - simpl. by rewrite Ht.
  - inversion Hall as [|? ? Ht' Hall']; subst. simpl. rewrite Ht'.
    by apply IH.
Qed.

Lemma setComponent_Ok exists_ kind key plural types conf :
  Forall (λ t, exists_ t = true) types →
  setComponent exists_ kind key plural types conf
  = Ok match types with
       | [] => conf
       | _ => <[key := component plural types]> conf
       end.
Proof.
  intros Hall. destruct types as [|t [|t' types]]; [done| |].
  - inversion Hall as [|? ? Ht _]; subst. simpl. by rewrite Ht.
  - unfold setComponent. rewrite typesList_Ok by done. done.
Qed.

Lemma setComponent_Err exists_ kind key plural pre t post conf :
  Forall (λ t, exists_ t = true) pre → exists_ t = false →
  setComponent exists_ kind key plural (pre ++ t :: post) conf
  = Err (Errorf ("unrecognised " +:+ kind +:+ " type '" +:+ t +:+ "'")).
Proof.
  intros Hall Ht. unfold setComponent.
  destruct (pre ++ t :: post) as [|t0 [|t1 l]] eqn:Hl.
  - by destruct pre.
  - destruct pre as [|t' [|t'' pre]]; [|done|done].
    injection Hl as <-. by rewrite Ht.
  - rewrite <- Hl. by rewrite typesList_Err.
Qed.

Lemma setPipeline_Ok types conf :
  Forall (λ t, processorExists t = true) types →
  setPipeline processorExists types conf = Ok (withPipeline types conf).
Proof.
  intros Hall. destruct types as [|t types]; [done|].
  unfold setPipeline. rewrite typesList_Ok by done. done.
Qed.

Lemma setPipeline_Err pre t post conf :
  Forall (λ t, processorExists t = true) pre → processorExists t = false →
  setPipeline processorExists (pre ++ t :: post) conf
  = Err (Errorf ("unrecognised processor type '" +:+ t +:+ "'")).
Proof.
  intros Hall Ht. unfold setPipeline.
  destruct (pre ++ t :: post) as [|t0 l] eqn:Hl; [by destruct pre|].
  rewrite <- Hl. by rewrite typesList_Err.
Qed.

End addExpression.
End cli_facts.

(** ** The loop of the batcher *)

Module batcher_facts.
Import message batcher.

Section loop.
Context {Policy : Type}.
Variable Add : Part → Policy → Policy * bool.
Variable Flush : nat → Policy → Policy * option Batch.
Variable Count : Policy → nat.
Variable UntilNext : nat → Policy → Duration.
Variable Message : Transaction → Batch.

Local Abbreviation Vars := (Vars (Policy := Policy)).
Local Abbreviation sent := (sent (Policy := Policy)).
Local Abbreviation partsBy := (partsBy Message).
Local Abbreviation flushAndSend := (flushAndSend Flush).
Local Abbreviation iteration := (iteration Add Flush Count UntilNext Message).
Local Abbreviation iterations :=
  (iterations Add Flush Count UntilNext Message).

Lemma received_cons c cs : received (c :: cs) = receivedBy c ++ received cs.
Proof. unfold received, receivedBy. simpl. by destruct (wake c). Qed.

Lemma received_app cs1 cs2 :
  received (cs1 ++ cs2) = received cs1 ++ received cs2.
Proof. unfold received. apply omap_app. Qed.

Lemma flushAndSend_ledger k c f v :
  ledger (vars (flushAndSend k c f v)) = ledger v.
Proof.
  unfold batcher.flushAndSend. destruct (negb f); [done|].
  destruct (Flush k (policy v)) as [b [sendMsg|]]; [|done].
  destruct (sendStopped c); [done|].
  unfold batcher.ledger. cbn [vars events pendingTrans].
  rewrite fmap_app, concat_app. simpl. by rewrite !app_nil_r.
Qed.

Lemma iteration_ledger k c v s :
  iteration k c v = Some s → ledger (vars s) = ledger v ++ receivedBy c.
Proof.
  unfold batcher.iteration, receivedBy. cbv zeta.
  destruct (wake c) as [tran|wt| |].
  - destruct (addAll Add (Message tran) _) as [b f]. intros [= <-].
    rewrite flushAndSend_ledger. unfold batcher.ledger. simpl. by rewrite app_assoc.
  - cbn [policy]. destruct (0 <? Count (policy v))%nat; intros [= <-].
    + rewrite flushAndSend_ledger. unfold batcher.ledger. simpl. by rewrite app_nil_r.
    + unfold batcher.ledger. simpl. by rewrite app_nil_r.
  - destruct (if nextTimedBatchChan v then _ else _); [|done]. intros [= <-].
    rewrite flushAndSend_ledger. unfold batcher.ledger. simpl. by rewrite app_nil_r.
  - intros [= <-].
    rewrite flushAndSend_ledger. unfold batcher.ledger. simpl. by rewrite app_nil_r.
Qed.

Lemma deferred_ledger (v : Vars) : ledger (deferred v) = ledger v.
Proof.
  unfold batcher.ledger, batcher.deferred. cbn [events pendingTrans].
  rewrite fmap_app, concat_app. simpl. by rewrite app_nil_r.
Qed.

Lemma iterations_ledger cs : ∀ k v v' exited,
  iterations k cs v = Some (v', exited) →
  ∃ cs1, cs1 `prefix_of` cs ∧ (exited = false → cs1 = cs)
         ∧ ledger v' = ledger v ++ received cs1.
Proof.
  induction cs as [|c cs IH]; intros k v v' exited H.
  - injection H as <- <-. exists []. split; [done|]. split; [done|].
    by rewrite app_nil_r.
  - cbn [batcher.iterations] in H. destruct (stopSignalled c).
    + injection H as <- <-. exists []. split; [apply prefix_nil|].
      split; [done|]. by rewrite deferred_ledger, app_nil_r.
    + destruct (iteration k c v) as [[v1|v1]|] eqn:Hit; [| |done].
      * apply iteration_ledger in Hit. simpl in Hit.
        destruct (IH _ _ _ _ H) as (cs1 & Hpre & Hex & Hl).
        exists (c :: cs1). split; [by apply prefix_cons|].
        split; [intros He; by rewrite Hex|].
        by rewrite Hl, Hit, received_cons, app_assoc.
      * apply iteration_ledger in Hit. simpl in Hit.
        injection H as <- <-. exists [c].
        split; [apply prefix_cons, prefix_nil|]. split; [done|].
        by rewrite deferred_ledger, Hit, received_cons, app_nil_r.
Qed.

(** *** A policy that keeps the parts added and flushes them all *)

Variable contents : Policy → Batch.
Hypothesis Add_contents : ∀ p b, contents (Add p b).1 = contents b ++ [p].
Hypothesis Flush_contents : ∀ k b,
  contents (Flush k b).1 = []
  ∧ (Flush k b).2 = match contents b with
                    | [] => None
                    | _ => Some (contents b)
                    end.

Lemma addAll_contents parts : ∀ b,
  contents (addAll Add parts b).1 = contents b ++ parts.
Proof.
  unfold addAll.
  assert (∀ s, contents (foldl (λ s p, let '(b', flushNow) := Add p s.1 in
                                       (b', s.2 || flushNow)) s parts).1
               = contents s.1 ++ parts) as H.
  { induction parts as [|p parts IH]; intros s; simpl.
    - by rewrite app_nil_r.
    - rewrite IH. pose proof (Add_contents p s.1) as Ha.
      destruct (Add p s.1) as [b' f]. simpl in *.
      by rewrite Ha, <- app_assoc. }
  intros b. apply (H (b, false)).
Qed.

(** What a step does to the parts sent and to the parts kept: while the
    loop goes on nothing is lost, and a step that leaves the loop sends
    nothing. *)
Lemma flushAndSend_parts k c f v :
  match flushAndSend k c f v with
  | Continue v' => sent v' ++ contents (policy v') = sent v ++ contents (policy v)
  | Return v' => sent v' = sent v
  end.
Proof.
  unfold batcher.flushAndSend. destruct (negb f); [done|].
  destruct (Flush_contents k (policy v)) as [H1 H2].
  destruct (Flush k (policy v)) as [b sendMsg]. simpl in H1, H2.
  destruct (contents (policy v)) as [|p ps] eqn:Hc; subst sendMsg.
  - cbn [policy]. by rewrite H1.
  - destruct (sendStopped c); [done|].
    unfold batcher.sent. cbn [events policy]. rewrite fmap_app, concat_app. simpl.
    by rewrite H1, !app_nil_r.
Qed.

Lemma iteration_parts k c v s :
  iteration k c v = Some s →
  match s with
  | Continue v' =>
      sent v' ++ contents (policy v')
      = sent v ++ contents (policy v) ++ partsBy c
  | Return v' => sent v' = sent v
  end.
Proof.
  unfold batcher.iteration, batcher.partsBy, receivedBy. cbv zeta.
  destruct (wake c) as [tran|wt| |].
  - pose proof (addAll_contents (Message tran) (policy v)) as Ha.
    cbn [policy]. destruct (addAll Add (Message tran) _) as [b f].
    simpl in Ha. intros [= <-].
    match goal with |- context [flushAndSend k c f ?v0] =>
      pose proof (flushAndSend_parts k c f v0) as Hf;
      destruct (flushAndSend k c f v0) end.
    + rewrite Hf. cbn [policy]. unfold batcher.sent. cbn [events].
      rewrite Ha. simpl. by rewrite app_nil_r.
    + done.
  - cbn [policy]. destruct (0 <? Count (policy v))%nat; intros [= <-]; [|done].
    match goal with |- context [flushAndSend k c true ?v0] =>
      pose proof (flushAndSend_parts k c true v0) as Hf;
      destruct (flushAndSend k c true v0) end.
    + rewrite Hf. simpl. by rewrite app_nil_r.
    + done.
  - destruct (if nextTimedBatchChan v then _ else _); [|done]. intros [= <-].
    match goal with |- context [flushAndSend k c true ?v0] =>
      pose proof (flushAndSend_parts k c true v0) as Hf;
      destruct (flushAndSend k c true v0) end.
    + rewrite Hf. simpl. by rewrite app_nil_r.
    + done.
  - intros [= <-].
    match goal with |- context [flushAndSend k c true ?v0] =>
      pose proof (flushAndSend_parts k c true v0) as Hf;
      destruct (flushAndSend k c true v0) end.
    + rewrite Hf. simpl. by rewrite app_nil_r.
    + done.
Qed.

Lemma sent_deferred (v : Vars) : sent (deferred v) = sent v.
Proof.
  unfold batcher.sent, batcher.deferred. cbn [events].
  rewrite fmap_app, concat_app. simpl. by rewrite app_nil_r.
Qed.

Lemma partsBy_received c cs :
  concat (Message <$> received (c :: cs))
  = partsBy c ++ concat (Message <$> received cs).
Proof.
  rewrite received_cons. unfold batcher.partsBy. by rewrite fmap_app, concat_app.
Qed.

Lemma iterations_parts cs : ∀ k v v' exited,
  iterations k cs v = Some (v', exited) →
  if exited
  then ∃ more, sent v' ++ more
               = sent v ++ contents (policy v) ++ concat (Message <$> received cs)
  else sent v' ++ contents (policy v')
       = sent v ++ contents (policy v) ++ concat (Message <$> received cs).
Proof.
  induction cs as [|c cs IH]; intros k v v' exited H.
  - injection H as <- <-. simpl. by rewrite app_nil_r.
  - cbn [batcher.iterations] in H. destruct (stopSignalled c).
    + injection H as <- <-. rewrite sent_deferred. eauto.
    + destruct (iteration k c v) as [[v1|v1]|] eqn:Hit; [| |done].
      * apply iteration_parts in Hit.
        specialize (IH _ _ _ _ H). rewrite partsBy_received.
        destruct exited.
        -- destruct IH as [more IH]. exists more.
           by rewrite IH, app_assoc, Hit, <- !app_assoc.
        -- by rewrite IH, app_assoc, Hit, <- !app_assoc.
      * apply iteration_parts in Hit. injection H as <- <-.
        rewrite sent_deferred, Hit. eauto.
Qed.

End loop.

(** *** [Consume] *)

Lemma Consume_loops childConsume msgs m :
  is_Some msgs →
  (is_Some (messagesIn m) ↔ loops m = 1%nat) → (loops m ≤ 1)%nat →
  (is_Some (messagesIn (Consume childConsume msgs m).1)
   ↔ loops (Consume childConsume msgs m).1 = 1%nat)
  ∧ (loops (Consume childConsume msgs m).1 ≤ 1)%nat.
Proof.
  intros [ch ->] Hiff Hle. unfold Consume.
  destruct (messagesIn m) as [c|] eqn:Hm; [simpl; by rewrite Hm|].
  assert (loops m = 0%nat) as H0.
  { destruct (loops m) as [|[|n]] eqn:Hl; [done| |lia].
    destruct (proj2 Hiff eq_refl) as [? ?]. done. }
  destruct (childConsume (childConsumed m)); cbn [fst messagesIn loops].
  - split; [|lia]. rewrite H0. split; [intros [? ?]; done|lia].
  - rewrite H0. split; [|lia]. split; [done|eauto].
Qed.

Lemma Consumes_loops childConsume msgss : ∀ m,
  Forall is_Some msgss →
  (is_Some (messagesIn m) ↔ loops m = 1%nat) → (loops m ≤ 1)%nat →
  (is_Some (messagesIn (Consumes childConsume msgss m))
   ↔ loops (Consumes childConsume msgss m) = 1%nat)
  ∧ (loops (Consumes childConsume msgss m) ≤ 1)%nat.
Proof.
  induction msgss as [|msgs msgss IH]; intros m Hall Hiff Hle; [done|].
  inversion Hall as [|? ? Hs Hall']; subst. cbn [Consumes].
  destruct (Consume_loops childConsume msgs m Hs Hiff Hle)
    as [Hiff' Hle'].
  by apply IH.
Qed.

End batcher_facts.

(** * The claims of the specification *)

(** ** Retry processor *)

Module retry_claims.
Import message processor retry scenarios.
Import message_facts processor_facts retry_facts confined_facts
  retry_exit_facts.

(** C1.  Every execution of the child processors works on a fresh shallow
    copy of the input part, and the payload of the result owes nothing to
    what the children did in the executions that failed.  Let [p] be a part
    the children hold no pointer to, isolated in the store, showing [v] when
    it enters [dispatchMessage].  Whenever the loop gets to an iteration [k]
    - after [k] failed executions in which the children did what they liked
    to the parts they hold:

    - [p] still shows [v] with the error tag cleared; the copy [c] made for
      this execution is an address that was not in the table, it differs
      from [p], and it shows exactly what [p] showed on entry: payload,
      metadata and no error tag;
    - that copy is what the children are handed: the execution of iteration
      [k] is the run of the children on the batch [[c]] in the store just
      described;
    - when that run comes back without a tagged part, [dispatchMessage]
      returns its result with a nil error (any fuel above [k] is enough),
      and the payload of every part is the one that run left;
    - that run depends on the store through what [c] shows only: for
      children confined to the part they are handed, their result and what
      [c] shows in the end are those they give, in the state they are in, in
      any store where [c] shows the part as it entered - whatever the failed
      executions wrote on their own copies.

    And whatever [dispatchMessage] returns is what its last iteration
    returned. *)
Theorem retry_attempts_run_on_fresh_copy {ChildSt : Type}
    (ExecuteAll : ChildSt → Batch → Prog (ChildSt * result (list Batch)))
    (maxRetries : Z) (NextBackOff : nat → Duration)
    (ctxDone : nat → option error)
    (p : Part) (w : World) (v : View) :
  p ∉ held (heap w) →
  isolated (store (heap w)) p →
  observe (store (heap w)) p = Some v →
  (∀ k vars,
     varsAt ExecuteAll maxRetries NextBackOff ctxDone p k (enter p w) = Some vars →
     let st := store (heap (world vars)) in
     let c := (ShallowCopy p st).1 in
     let st' := (ShallowCopy p st).2 in
     let prog := ExecuteAll (children (world vars)) [c] in
     let out :=
       run prog (hand c {| store := st'; held := held (heap (world vars)) |}) in
     observe st p = Some (cleared v)
     ∧ parts st !! c = None
     ∧ c ≠ p
     ∧ observe st' c = Some (cleared v)
     ∧ observe st' p = Some (cleared v)
     ∧ executeChildren ExecuteAll p (world vars)
       = ({| heap := out.2; children := out.1.1; log := log (world vars) |},
          out.1.2)
     ∧ (∀ res,
          out.1.2 = Ok res →
          hasFailed (store out.2) res = false →
          ∀ fuel, (k < fuel)%nat →
            ∃ w', dispatchMessage ExecuteAll maxRetries NextBackOff ctxDone
                    fuel p w
                  = Some (w', res, None)
                  ∧ ∀ m, AsBytes m (store (heap w')) = AsBytes m (store out.2))
     ∧ (wellFormed (store (heap w)) →
        confined c prog →
        ∀ h2, c ∈ held h2 →
              wellFormed (store h2) →
              isolated (store h2) c →
              observe (store h2) c = Some (cleared v) →
              (run prog h2).1 = out.1
              ∧ observe (store (run prog h2).2) c = observe (store out.2) c))
  ∧ (∀ fuel w' res err,
       dispatchMessage ExecuteAll maxRetries NextBackOff ctxDone fuel p w
         = Some (w', res, err) →
       ∃ k vars vr,
         varsAt ExecuteAll maxRetries NextBackOff ctxDone p k (enter p w) = Some vars
         ∧ iteration ExecuteAll maxRetries NextBackOff ctxDone p k vars
           = Return vr res err).
Proof.
  intros Hheld Hiso Hobs.
  assert (untouched p (cleared v) (world (enter p w))) as Hu0.
  { apply (enter_untouched p v w). split; [done|]. split; done. }
  split.
  - intros k vars Hv st c st' prog out.
    pose proof (varsAt_untouched _ _ _ _ _ _ _ _ _ Hv Hu0) as (Hh & Hi & Ho).
    fold st in Hi, Ho.
    pose proof Hi as (d & Hp & Hi').
    destruct (ShallowCopy_fresh p st d Hp) as (_ & Hnone & Hne & Hcopy).
    destruct (keeps_ShallowCopy p p st (cleared v) Hi Ho) as (_ & Ho' & _).
    fold c in Hnone, Hne, Hcopy. fold st' in Hcopy, Ho'.
    assert (executeChildren ExecuteAll p (world vars)
            = ({| heap := out.2; children := out.1.1;
                  log := log (world vars) |}, out.1.2)) as Hexec.
    { unfold executeChildren. subst out prog c st'. fold st.
      destruct (ShallowCopy p st) as [c0 st0]. cbn [fst snd].
      destruct (run _ _) as [[cs res] h']. done. }
    split; [done|]. split; [done|]. split; [done|].
    split; [by rewrite Hcopy|]. split; [done|]. split; [done|]. split.
    + intros res Hres Hf fuel Hlt.
      destruct (dispatch_stamps_on_success ExecuteAll maxRetries NextBackOff
                  ctxDone p w k vars res fuel Hv)
        as (w' & Hd & Hst); [by rewrite Hexec|by rewrite Hexec|done|].
      exists w'. split; [done|]. intros m.
      rewrite Hst, stamp_AsBytes, Hexec. done.
    + intros Hwf Hconf h2 Hh2 Hwf2 Hi2 Ho2.
      assert (wellFormed st) as Hwfst.
      { eapply varsAt_wellFormed; [exact Hv|]. simpl.
        by apply ErrorSet_wellFormed. }
      apply (run_confined c prog Hconf h2 _ (cleared v)); try done.
      * simpl. apply list_elem_of_here.
      * simpl. by apply ShallowCopy_wellFormed.
      * simpl. by apply ShallowCopy_copy_isolated.
      * simpl. by rewrite Hcopy.
  - intros fuel w' res err Hd. unfold dispatchMessage in Hd.
    destruct (loop _ _ _ _ fuel p 0 (enter p w)) as [r|] eqn:Hl; [|done].
    destruct (loop_last _ _ _ _ p fuel 0 (enter p w) (enter p w) r eq_refl Hl)
      as (k & vars & vr & res' & err' & _ & Hv & Hit & ->).
    injection Hd as _ <- <-. eauto.
Qed.

(** Scenario S2: the children overwrite payload and metadata and tag the part
    twice, then append "!" to the payload.  The copy of the first execution
    is left scribbled; the copy of the third execution shows payload "x", no
    metadata and no error tag; the part returned has payload "x!", not a
    payload built on "junk"; and the third execution leaves its copy as it
    would in a store that no failed execution has written to. *)
Lemma retry_attempts_run_on_fresh_copy_witness :
  ∃ vars w',
    varsAt flaky 0 backoff_100ms neverDone 0 2 (enter 0 world_x) = Some vars
    ∧ observe (store (heap (world vars))) 1
      = Some {| v_bytes := bytes "junk";
                v_meta := {[ "attempt" := VInt 0 ]};
                v_err := Some (Errorf "request failed") |}
    ∧ (let st := store (heap (world vars)) in
       observe (ShallowCopy 0 st).2 (ShallowCopy 0 st).1
       = Some {| v_bytes := bytes "x"; v_meta := ∅; v_err := None |})
    ∧ dispatchMessage flaky 0 backoff_100ms neverDone 3 0 world_x
      = Some (w', [[3%nat]], None)
    ∧ AsBytes 3 (store (heap w')) = bytes "x!"
    ∧ observe (store (run (flaky 2 [3%nat]) heap_clean).2) 3
      = Some {| v_bytes := bytes "x!"; v_meta := ∅; v_err := None |}.
Proof.
  assert (isolated store_x 0) as Hiso.
  { eexists. split; [reflexivity|]. split; [simpl; lia|].
    intros [|[|q]] d' Hne Hq;
      [exfalso; apply Hne; reflexivity|discriminate Hq|discriminate Hq]. }
  assert (wellFormed store_x) as Hwf.
  { intros [|[|q]] d Hq; [|discriminate Hq|discriminate Hq].
    injection Hq as <-. simpl. lia. }
  destruct (retry_attempts_run_on_fresh_copy flaky 0 backoff_100ms neverDone
              0%nat world_x _ (not_elem_of_nil _) Hiso eq_refl) as [H _].
  pose (vars := default (enter 0 world_x)
                  (varsAt flaky 0 backoff_100ms neverDone 0 2
                     (enter 0 world_x))).
  destruct (H 2%nat vars) as (_ & _ & _ & Hc & _ & _ & Hsucc & Hind);
    [vm_compute; reflexivity|].
  destruct (Hsucc [[3%nat]]) with (fuel := 3%nat) as (w' & Hd & Hb);
    [vm_compute; reflexivity|vm_compute; reflexivity|lia|].
  destruct (Hind Hwf) with (h2 := heap_clean) as [_ Hsame].
  { vm_compute. apply cf_AsBytes. intros bs. apply cf_SetBytes. apply cf_Ret. }
  { apply list_elem_of_here. }
  { intros [|[|[|[|q]]]] d Hq; try discriminate Hq;
      injection Hq as <-; simpl; lia. }
  { eexists. split; [reflexivity|]. split; [simpl; lia|].
    intros [|[|[|[|q]]]] d' Hne Hq Hm; try discriminate Hq;
      try (injection Hq as <-; discriminate Hm).
    exfalso. apply Hne. reflexivity. }
  { reflexivity. }
  exists vars, w'. split; [vm_compute; reflexivity|].
  split; [vm_compute; reflexivity|]. split; [exact Hc|]. split; [exact Hd|].
  split; [rewrite Hb; vm_compute; reflexivity|].
  etrans; [exact Hsame|]. vm_compute. reflexivity.
Defined.

(** C2.  When the retry budget is exhausted, [dispatchMessage] returns the
    last result of the children, still tagged, with a nil error.  First
    part: if the loop gets to iteration [k], the children come back there
    with a tagged part, and either the incremented retry counter equals
    [maxRetries] or [NextBackOff] returns [Stop], then with enough fuel
    [dispatchMessage] returns that result and a nil error, and the result
    still carries an error tag after the deferred stamping.  Second part
    (scenario S3): with children that always come back with a tagged part,
    [max_retries = 2], a first backoff interval other than [Stop] and no
    cancellation during the first sleep, [dispatchMessage] returns a tagged
    result with a nil error, and every part of the result carries
    [retry_count = 2]. *)
Theorem retry_exhaustion_returns_tagged_result {ChildSt : Type}
    (ExecuteAll : ChildSt → Batch → Prog (ChildSt * result (list Batch)))
    (NextBackOff : nat → Duration) (ctxDone : nat → option error)
    (p : Part) (w : World) :
  (∀ maxRetries k vars res,
     varsAt ExecuteAll maxRetries NextBackOff ctxDone p k (enter p w) = Some vars →
     (executeChildren ExecuteAll p (world vars)).2 = Ok res →
     hasFailed (store (heap (executeChildren ExecuteAll p (world vars)).1)) res
       = true →
     wrap64 (retries vars + 1) = maxRetries ∨ NextBackOff k = Stop →
     ∀ fuel, (k < fuel)%nat →
       ∃ w', dispatchMessage ExecuteAll maxRetries NextBackOff ctxDone fuel p w
             = Some (w', res, None)
             ∧ hasFailed (store (heap w')) res = true)
  ∧ (alwaysErrors ExecuteAll →
     wellFormed (store (heap w)) →
     is_Some (parts (store (heap w)) !! p) →
     NextBackOff 0%nat ≠ Stop →
     ctxDone 0%nat = None →
     ∀ fuel, (2 ≤ fuel)%nat →
       ∃ w' res, dispatchMessage ExecuteAll 2 NextBackOff ctxDone fuel p w
                 = Some (w', res, None)
                 ∧ hasFailed (store (heap w')) res = true
                 ∧ ∀ b m, b ∈ res → m ∈ b →
                     is_Some (parts (store (heap w')) !! m) →
                     MetaGetMut m "retry_count" (store (heap w'))
                     = Some (VInt 2)).
Proof.
  split.
  - intros maxRetries k vars res Hv Hres Hf Hex fuel Hlt.
    pose proof (iteration_failed ExecuteAll maxRetries NextBackOff ctxDone
                  p k vars res Hres Hf) as Hit. simpl in Hit.
    assert (∃ vr, iteration ExecuteAll maxRetries NextBackOff ctxDone p k vars
                  = Return vr res None
                  ∧ heap (world vr)
                    = heap (executeChildren ExecuteAll p (world vars)).1)
      as (vr & Hret & Hheap).
    { destruct (wrap64 (retries vars + 1) =? maxRetries) eqn:Hm.
      - eexists. split; [exact Hit|done].
      - destruct Hex as [Hex|Hex]; [apply Z.eqb_neq in Hm; done|].
        rewrite Hex, Z.eqb_refl in Hit. eexists. split; [exact Hit|done]. }
    unfold dispatchMessage.
    rewrite (loop_Return _ _ _ _ p k (enter p w) vars vr res None fuel Hv Hret Hlt).
    eexists. split; [reflexivity|]. simpl.
    rewrite stamp_hasFailed, Hheap. done.
  - intros Hall Hwf Hp Hns Hctx fuel Hfuel.
    set (v0 := enter p w).
    assert (is_Some (parts (store (heap (world v0))) !! p)) as Hp0.
    { subst v0. simpl. apply lookup_lt_is_Some. rewrite ErrorSet_length.
      by apply lookup_lt_is_Some. }
    assert (wellFormed (store (heap (world v0)))) as Hwf0.
    { subst v0. simpl. by apply ErrorSet_wellFormed. }
    destruct (executeChildren_alwaysErrors ExecuteAll p (world v0) Hall Hp0)
      as (res0 & Hres0 & Hf0).
    pose proof (iteration_failed ExecuteAll 2 NextBackOff ctxDone
                  p 0 v0 res0 Hres0 Hf0) as Hit0. cbv zeta in Hit0.
    change (wrap64 (retries v0 + 1) =? 2) with false in Hit0.
    rewrite (proj2 (Z.eqb_neq _ _) Hns), Hctx in Hit0.
    set (w1 := (executeChildren ExecuteAll p (world v0)).1) in *.
    set (v1 := {| world := logDebug "Error occurred, sleeping for next backoff period." w1;
                  retries := wrap64 (retries v0 + 1);
                  backoffDuration := wrap64 (backoffDuration v0 + NextBackOff 0%nat) |})
      in *.
    assert (varsAt ExecuteAll 2 NextBackOff ctxDone p 1 v0 = Some v1) as Hv1.
    { simpl. rewrite Hit0. done. }
    assert (wellFormed (store (heap (world v1)))) as Hwf1.
    { subst v1 w1. simpl. by apply executeChildren_wellFormed. }
    assert (is_Some (parts (store (heap (world v1))) !! p)) as Hp1.
    { subst v1 w1. simpl. apply lookup_lt_is_Some.
      eapply Nat.lt_le_trans; [|apply executeChildren_length].
      by apply lookup_lt_is_Some. }
    destruct (executeChildren_alwaysErrors ExecuteAll p (world v1) Hall Hp1)
      as (res1 & Hres1 & Hf1).
    pose proof (iteration_failed ExecuteAll 2 NextBackOff ctxDone
                  p 1 v1 res1 Hres1 Hf1) as Hit1. cbv zeta in Hit1.
    change (wrap64 (retries v1 + 1) =? 2) with true in Hit1.
    cbv iota in Hit1.
    unfold dispatchMessage. fold v0.
    rewrite (loop_Return _ _ _ _ p 1 v0 v1 _ res1 None fuel Hv1 Hit1) by lia.
    eexists _, res1. split; [reflexivity|]. simpl.
    rewrite stamp_hasFailed. split; [done|].
    intros b m Hb Hm Hvalid.
    eapply stamp_stamps; eauto.
    + by apply executeChildren_wellFormed.
    + apply lookup_lt_is_Some. apply lookup_lt_is_Some in Hvalid.
      by rewrite stamp_length in Hvalid.
Qed.

(** Scenario S3 on the part "x": the second copy comes back tagged, with
    [retry_count = 2] and a nil error. *)
Lemma retry_exhaustion_returns_tagged_result_witness :
  ∃ w', dispatchMessage alwaysFail 2 backoff_100ms neverDone 2 0 world_x
        = Some (w', [[2%nat]], None)
        ∧ hasFailed (store (heap w')) [[2%nat]] = true
        ∧ MetaGetMut 2 "retry_count" (store (heap w')) = Some (VInt 2).
Proof.
  destruct (retry_exhaustion_returns_tagged_result alwaysFail backoff_100ms
              neverDone 0%nat world_x) as [_ H].
  destruct (H alwaysFail_alwaysErrors) with (fuel := 2%nat)
    as (w' & res & Hd & Hf & Hm).
  - intros [|[|q]] d Hq; [|discriminate Hq|discriminate Hq].
    injection Hq as <-. simpl. lia.
  - eexists. reflexivity.
  - vm_compute. discriminate.
  - reflexivity.
  - lia.
  - assert (res = [[2%nat]]) as ->.
    { vm_compute in Hd. injection Hd as _ <-. reflexivity. }
    exists w'. split; [exact Hd|]. split; [exact Hf|].
    apply (Hm [2%nat] 2%nat); [apply list_elem_of_here|apply list_elem_of_here|].
    vm_compute in Hd. injection Hd as <-. vm_compute. eexists. reflexivity.
Defined.

(** C3, at the input where the code departs from it.  The children always
    tag the part, [max_retries] is 0 (unbounded) and the first call of
    [NextBackOff] returns [Stop].  [dispatchMessage] returns the tagged part
    after one execution and no sleep at all - the only log entry is the one
    of the [Stop] exit and no backoff period was slept - yet the part is
    stamped with [backoff_duration = -1ns]: [Stop] itself was added to the
    duration before it was compared with [nextSleep].  [retry_count] is 1,
    the number of failed executions. *)
Theorem retry_backoff_duration_includes_stop :
  ∃ w', dispatchMessage alwaysFail 0 (λ _, Stop) neverDone 1 0 world_x
        = Some (w', [[1%nat]], None)
        ∧ log w'
          = [(DEBUG, "Error occurred and maximum wait period was reached.")]
        ∧ slept (λ _, Stop) 0 = 0
        ∧ MetaGetMut 1 "retry_count" (store (heap w')) = Some (VInt 1)
        ∧ MetaGetMut 1 "backoff_duration" (store (heap w'))
          = Some (VDuration (-1)).
Proof.
  eexists. split; [vm_compute; reflexivity|].
  repeat split; vm_compute; reflexivity.
Qed.

(** C7.  The error tag of every input part is cleared before the first
    execution of the children.  For a part [p] of the table, whatever its
    error tag: on entry [p] carries no error tag, and neither does the copy
    handed to the first execution; so with children that hand the batch on
    as it is, [dispatchMessage] returns the copy after one execution, with a
    nil error, nothing logged and no error tag - the tag the part came in
    with is not taken for a failed attempt.  And for a whole batch of parts
    of the table, tagged or not, [ProcessBatch] with such children returns
    one batch of as many parts, none of them tagged, with nothing logged. *)
Theorem retry_clears_error_on_entry {ChildSt : Type}
    (maxRetries : Z) (NextBackOff : nat → Duration)
    (ctxDone : nat → option error) (fuel : nat)
    (w : World (ChildSt := ChildSt)) :
  (∀ p d,
     parts (store (heap w)) !! p = Some d →
     let st := store (heap (world (enter p w))) in
     let c := (ShallowCopy p st).1 in
     ErrorGet p st = None
     ∧ ErrorGet c (ShallowCopy p st).2 = None
     ∧ ∃ w', dispatchMessage passThrough maxRetries NextBackOff ctxDone
               (S fuel) p w
             = Some (w', [[c]], None)
             ∧ log w' = log w
             ∧ ErrorGet c (store (heap w')) = None)
  ∧ (∀ msgs,
       Forall (λ p, is_Some (parts (store (heap w)) !! p)) msgs →
       ∃ w' out,
         ProcessBatch passThrough maxRetries NextBackOff ctxDone (S fuel) msgs w
         = Some (w', Ok [out])
         ∧ length out = length msgs
         ∧ log w' = log w
         ∧ Forall (λ c, ErrorGet c (store (heap w')) = None) out).
Proof.
  split.
  - intros p d Hp st c.
    assert (is_Some (parts st !! p)) as [d0 Hp0].
    { apply lookup_lt_is_Some. subst st. simpl. rewrite ErrorSet_length.
      eapply lookup_lt_Some; eauto. }
    destruct (ShallowCopy_fresh p st d0 Hp0) as (Hc & _ & _ & Hobs).
    assert (c = length (parts (store (heap w)))) as Hc'.
    { subst c. rewrite Hc. subst st. simpl. apply ErrorSet_length. }
    assert (ErrorGet p st = None) as Hep.
    { subst st. simpl. apply ErrorSet_ErrorGet_eq. eauto. }
    split; [done|]. split.
    + fold c in Hobs. rewrite !observe_unfold in Hobs.
      rewrite ErrorGet_unfold in Hep |- *. rewrite Hp0 in Hobs, Hep.
      destruct (parts (ShallowCopy p st).2 !! c) as [dc|]; [|done].
      injection Hobs as _ _ ->. done.
    + destruct (dispatch_passThrough p w d maxRetries NextBackOff ctxDone fuel Hp)
        as (w' & Hd & Hlog & _ & Hec & _).
      exists w'. rewrite Hc'. done.
  - intros msgs Hmsgs.
    destruct (processSerial_passThrough maxRetries NextBackOff ctxDone fuel
                msgs [] w Hmsgs (Forall_nil_2 _))
      as (w' & out & Hps & Hlen & Hlog & Htags).
    exists w', out. done.
Qed.

(** The part "x" comes in tagged by an upstream error and leaves the retry
    processor after one execution, untagged; so does the batch made of that
    part twice. *)
Lemma retry_clears_error_on_entry_witness :
  ErrorGet 0 store_x = Some (Errorf "upstream")
  ∧ (∃ w', dispatchMessage passThrough 0 backoff_100ms neverDone 1 0 world_x
           = Some (w', [[1%nat]], None)
           ∧ log w' = []
           ∧ ErrorGet 1 (store (heap w')) = None)
  ∧ ∃ w' out,
      ProcessBatch passThrough 0 backoff_100ms neverDone 1 [0; 0]%nat world_x
      = Some (w', Ok [out])
      ∧ length out = 2%nat
      ∧ log w' = []
      ∧ Forall (λ c, ErrorGet c (store (heap w')) = None) out.
Proof.
  destruct (retry_clears_error_on_entry 0 backoff_100ms neverDone 0%nat world_x)
    as [Hone Hall].
  split; [reflexivity|]. split.
  - exact (proj2 (proj2 (Hone 0%nat _ eq_refl))).
  - apply Hall. repeat constructor; eexists; reflexivity.
Defined.

End retry_claims.

(** ** Rate-limit processor *)

Module rate_limit_claims.
Import rate_limit scenarios.

(** C4, at the input where the code departs from it.  The context is
    cancelled while the rate limit is accessed ([ctx.Err()] is
    [context.Canceled] right after the access) and [Access] itself returned
    no error.  [Process] returns a nil part list and a nil error - the error
    of the access - and not [ctx.Err()]. *)
Theorem rate_limit_cancel_returns_access_error :
  ctxErr cancelledDuringAccess 0 = Some Canceled
  ∧ ∀ fuel msg log,
      Process cancelledDuringAccess (S fuel) msg log = Some ([], None, log).
Proof. split; [reflexivity|]. intros fuel msg log. reflexivity. Qed.

(** The sibling path: when the context is done during the sleep, the
    [select] returns [ctx.Err()]. *)
Lemma rate_limit_select_returns_ctx_err env fuel k msg log d e :
  access env k = {| accessed := Some (d, None); rerr := None |} →
  ctxErr env k = None → d ≠ 0 →
  selected env k = CtxDone e →
  ProcessFrom env (S fuel) k msg log = Some ([], Some e, log).
Proof.
  intros Ha Hc Hd Hs. simpl. rewrite Ha, Hc, Hs. simpl.
  rewrite (proj2 (Z.eqb_neq _ _) Hd). done.
Qed.

End rate_limit_claims.

(** ** Mapping and mutation processors *)

Module mapper_claims.
Import message processor mapper scenarios.
Import mapper_facts.

(** C5.  For the mapping and the mutation processor, every batch [b] and
    every world: [ProcessBatch] returns a nil error; it returns no batch at
    all when the output batch is empty and the output batch alone otherwise;
    and for every part [msg] of [b], at index [i], for which the executor
    returns an error [e], [msg] itself is in the output batch, its error tag
    is [e] when the iteration ends, and - the executor never calling
    [ErrorSet] - it still carries an error tag when [ProcessBatch]
    returns. *)
Theorem mapper_keeps_failed_part_tagged {ExecSt : Type}
    (MapPart : ExecSt → nat → Batch → Prog (ExecSt * result (option Part)))
    (MapOnto : ExecSt → Part → nat → Batch → Prog (ExecSt * result (option Part)))
    (ctx : BatchProcContext) (b : Batch) (w : World) :
  keepsFailedParts (λ es _ i b, MapPart es i b) ctx b w
    (mappingProc.ProcessBatch MapPart ctx b w)
  ∧ keepsFailedParts (λ es msg i b, MapOnto es msg i b) ctx b w
      (mutationProc.ProcessBatch MapOnto ctx b w).
Proof. split; apply processBatch_keepsFailedParts. Qed.

(** A mapping that fails on the second of three parts: the batch comes out
    whole, the second part tagged, the error logged, no fatal error. *)
Lemma mapper_keeps_failed_part_tagged_witness :
  let out := mappingProc.ProcessBatch failsOnSecond noSpans [0; 1; 2]%nat
               world_abc in
  out.1.2 = [[0; 1; 2]%nat]
  ∧ out.2 = None
  ∧ ErrorGet 1 (store (heap out.1.1)) ≠ None
  ∧ log out.1.1 = [(ERROR, "failed assignment (line 1)")].
Proof.
  destruct (mapper_keeps_failed_part_tagged failsOnSecond
              (λ es _ i b, failsOnSecond es i b) noSpans [0; 1; 2]%nat world_abc)
    as [(Herr & _ & _ & Hkept) _].
  split; [reflexivity|]. split; [exact Herr|]. split; [|reflexivity].
  destruct (Hkept 1%nat 1%nat tt (Errorf "failed assignment (line 1)")
              {| store := store_abc; held := [0; 1; 2]%nat |} eq_refl)
    as (_ & _ & Hfinal).
  - eexists. reflexivity.
  - reflexivity.
  - apply Hfinal. intros es m [|[|i]]; constructor.
Defined.

End mapper_claims.

(** ** Sync-response processor *)

Module sync_response_claims.
Import message sync_response.

(** C8.  For every batch, every world and whatever [SetAsResponse] does:
    [ProcessBatch] returns the input batch as the single output batch with a
    nil error, the store of parts is as it was, and the log gains one debug
    entry exactly when stamping failed. *)
Theorem sync_response_returns_input_batch {Tx : Type}
    (SetAsResponse : Batch → Store → Tx → Tx * option error)
    (msg : Batch) (w : World) :
  let out := ProcessBatch SetAsResponse msg w in
  out.1.2 = [msg]
  ∧ out.2 = None
  ∧ store out.1.1 = store w
  ∧ tx out.1.1 = (SetAsResponse msg (store w) (tx w)).1
  ∧ log out.1.1
    = match (SetAsResponse msg (store w) (tx w)).2 with
      | Some e =>
          log w ++ [(DEBUG, "Failed to store message as a sync response: "
                            +:+ processor.errorString e +:+ LF)]
      | None => log w
      end.
Proof.
  unfold ProcessBatch.
  destruct (SetAsResponse msg _ _) as [tx' [e|]]; simpl; done.
Qed.

End sync_response_claims.

(** ** Resource manager *)

Module manager_claims.
Import manager scenarios.
Import manager_facts.

(** C6.  Construction with two resources of one kind that share a label
    fails, and when no label is empty the diagnostic contains "collides";
    construction with a resource whose label is empty fails; storing a
    resource returns a nil error, makes it probe true in its kind and leaves
    the mappings of the other kinds as they are; and one label used once in
    each of the five kinds is accepted at construction and probes true in
    all five. *)
Theorem manager_label_uniqueness :
  (∀ conf k pre c1 mid c2 post,
     resourcesOf k conf = pre ++ c1 :: mid ++ c2 :: post →
     Label c1 = Label c2 →
     (∃ e, New conf = Err e)
     ∧ ((∀ k' c, c ∈ resourcesOf k' conf → Label c ≠ "") →
        ∃ msg, New conf = Err (Errorf msg) ∧ contains msg "collides"))
  ∧ (∀ conf k c,
       c ∈ resourcesOf k conf → Label c = "" → ∃ e, New conf = Err e)
  ∧ (∀ m k name c,
       (Store k name c m).2 = None
       ∧ Probe k name (Store k name c m).1 = true
       ∧ ∀ k', k' ≠ k → table k' (Store k name c m).1 = table k' m)
  ∧ (∀ c, Label c ≠ "" →
       ∃ m, New (everyKind c) = Ok m ∧ ∀ k, Probe k (Label c) m = true).
Proof.
  split; [|split; [|split]].
  - intros conf k pre c1 mid c2 post Hres Heq.
    assert (¬ accepted conf) as Hna.
    { intros Hacc. destruct (Hacc k) as [_ Hnd]. rewrite Hres in Hnd.
      rewrite fmap_app, fmap_cons, fmap_app, fmap_cons in Hnd.
      apply NoDup_app in Hnd as (_ & _ & Hnd).
      apply NoDup_cons in Hnd as [Hnin _]. apply Hnin.
      rewrite Heq. apply elem_of_app. right. apply list_elem_of_here. }
    destruct (New_rejects conf Hna) as [e He]. split; [eauto|].
    intros Hne.
    destruct (New_Err conf e He) as [(k' & c & Hc & Hl)|(msg & -> & Hm)].
    + exfalso. by apply (Hne k' c).
    + eauto.
  - intros conf k c Hc Hl. apply New_rejects. intros Hacc.
    destruct (Hacc k) as [Hall _].
    rewrite Forall_forall in Hall. by apply (Hall c).
  - intros m k name c. unfold Store, Probe. simpl. split; [done|]. split.
    + rewrite table_setTable. rewrite decide_True by done.
      rewrite lookup_insert_eq. apply bool_decide_eq_true_2. eauto.
    + intros k' Hne. rewrite table_setTable. by rewrite decide_False.
  - intros c Hne.
    destruct (proj2 (New_Ok_iff (everyKind c))) as [m Hm].
    { intros k. destruct k; simpl; (split; [by repeat constructor|]);
        (apply NoDup_singleton). }
    exists m. split; [done|]. intros k. unfold Probe.
    apply bool_decide_eq_true_2.
    apply (addResources_lookup k (resourcesOf k (everyKind c)) ∅).
    + by apply New_tables.
    + destruct k; apply list_elem_of_here.
Qed.

(** The inputs of [TestManagerCacheListErrors], and the label "foo" in every
    kind. *)
Lemma manager_label_uniqueness_witness :
  New (onlyCaches [labelled "foo"; labelled "foo"])
  = Err (Errorf "cache resource label 'foo' collides with a previously defined resource")
  ∧ contains "cache resource label 'foo' collides with a previously defined resource"
             "collides"
  ∧ New (onlyCaches [labelled ""]) = Err (Errorf "cache resource has an empty label")
  ∧ ∃ m, New (everyKind (labelled "foo")) = Ok m
         ∧ ∀ k, Probe k "foo" m = true.
Proof.
  destruct manager_label_uniqueness as (Hdup & Hempty & _ & Hkinds).
  split; [reflexivity|]. split; [|split; [reflexivity|]].
  - destruct (Hdup (onlyCaches [labelled "foo"; labelled "foo"]) Cache
                [] (labelled "foo") [] (labelled "foo") [] eq_refl eq_refl)
      as [_ Hcol].
    destruct Hcol as (msg & Hmsg & Hcont).
    + intros k' c Hc. destruct k'; simpl in Hc;
        repeat (apply elem_of_cons in Hc as [->|Hc]; [discriminate|]);
        by apply not_elem_of_nil in Hc.
    + injection Hmsg as <-. exact Hcont.
  - apply (Hkinds (labelled "foo")). discriminate.
Defined.

End manager_claims.

(** * Further properties of the code *)

(** ** Retry processor *)

Module retry_properties.
Import message processor retry scenarios.
Import message_facts processor_facts retry_facts retry_exit_facts
  retry_run_facts.

Section exits.
Context {ChildSt : Type}.
Variable ExecuteAll : ChildSt → Batch → Prog (ChildSt * result (list Batch)).
Variable maxRetries : Z.
Variable NextBackOff : nat → Duration.
Variable ctxDone : nat → option error.

Local Abbreviation executeChildren := (executeChildren ExecuteAll).
Local Abbreviation varsAt := (varsAt ExecuteAll maxRetries NextBackOff ctxDone).
Local Abbreviation dispatchMessage :=
  (dispatchMessage ExecuteAll maxRetries NextBackOff ctxDone).
Local Abbreviation slept := (slept NextBackOff).

(** X1.  What the deferred function of [dispatchMessage] stamps when the loop
    is left with a result at its iteration [k] (counted from 0, so after [k]
    failed executions and [k] sleeps).  When the execution of iteration [k]
    comes back without a tagged part, the result is returned with a nil error
    and every part of it carries [retry_count = k] and [backoff_duration] the
    sum of the [k] backoff intervals slept.  When it comes back tagged and
    that was failure number [maxRetries], the result is returned with a nil
    error, [retry_count = maxRetries = k + 1], and [backoff_duration] is
    still the sum of the [k] intervals slept: the backoff is not asked for a
    further interval. *)
Theorem retry_stamps_failures_and_time_slept p w k vars res fuel :
  wellFormed (store (heap w)) →
  varsAt p k (enter p w) = Some vars →
  (executeChildren p (world vars)).2 = Ok res →
  (k < fuel)%nat →
  (hasFailed (store (heap (executeChildren p (world vars)).1)) res = false →
   ∃ w', dispatchMessage fuel p w = Some (w', res, None)
         ∧ ∀ b m, b ∈ res → m ∈ b → is_Some (parts (store (heap w')) !! m) →
             MetaGetMut m "retry_count" (store (heap w'))
             = Some (VInt (wrap64 (Z.of_nat k)))
             ∧ MetaGetMut m "backoff_duration" (store (heap w'))
               = Some (VDuration (wrap64 (slept k))))
  ∧ (hasFailed (store (heap (executeChildren p (world vars)).1)) res = true →
     wrap64 (Z.of_nat k + 1) = maxRetries →
     ∃ w', dispatchMessage fuel p w = Some (w', res, None)
           ∧ ∀ b m, b ∈ res → m ∈ b → is_Some (parts (store (heap w')) !! m) →
               MetaGetMut m "retry_count" (store (heap w'))
               = Some (VInt maxRetries)
               ∧ MetaGetMut m "backoff_duration" (store (heap w'))
                 = Some (VDuration (wrap64 (slept k)))).
Proof.
  intros Hwf Hv Hres Hlt.
  pose proof (varsAt_enter_wellFormed _ _ _ _ p w k vars Hwf Hv) as Hwf'.
  split.
  - intros Hf.
    destruct (dispatch_stamps_on_success ExecuteAll maxRetries NextBackOff
                ctxDone p w k vars res fuel Hv Hres Hf Hlt)
      as (w' & Hd & Hst).
    exists w'. split; [done|].
    intros b m Hb Hm Hvalid. rewrite Hst in Hvalid |- *.
    by apply (stamped_after (wrap64 (Z.of_nat k)) (wrap64 (slept k)) res _ b m).
  - intros Hf Hmax.
    destruct (varsAt_enter_counters _ _ _ _ _ _ _ _ Hv) as [Hr _].
    assert (wrap64 (retries vars + 1) = maxRetries) as Hmax'.
    { by rewrite Hr, wrap64_add_l. }
    destruct (dispatch_stamps_on_maxRetries ExecuteAll maxRetries NextBackOff
                ctxDone p w k vars res fuel Hv Hres Hf Hmax' Hlt)
      as (w' & Hd & Hst).
    exists w'. split; [done|].
    intros b m Hb Hm Hvalid. rewrite Hst in Hvalid |- *.
    by apply (stamped_after maxRetries (wrap64 (slept k)) res _ b m).
Qed.

(** X2.  The two exits of [dispatchMessage] with an error stamp nothing and
    return a nil result.  When the children end an execution with a fatal
    error, that error is returned, the store is as the children left it and
    nothing is logged.  When the context is done during the sleep that
    follows a failed execution, the context's error is returned, the store is
    as the children left it, and the only entry logged is the one that
    announces the sleep. *)
Theorem retry_error_exits_stamp_nothing p w k vars fuel :
  varsAt p k (enter p w) = Some vars →
  (k < fuel)%nat →
  (∀ e, (executeChildren p (world vars)).2 = Err e →
        ∃ w', dispatchMessage fuel p w = Some (w', [], Some e)
              ∧ heap w' = heap (executeChildren p (world vars)).1
              ∧ log w' = log (world vars))
  ∧ (∀ res e,
       (executeChildren p (world vars)).2 = Ok res →
       hasFailed (store (heap (executeChildren p (world vars)).1)) res = true →
       wrap64 (retries vars + 1) ≠ maxRetries →
       NextBackOff k ≠ Stop →
       ctxDone k = Some e →
       ∃ w', dispatchMessage fuel p w = Some (w', [], Some e)
             ∧ heap w' = heap (executeChildren p (world vars)).1
             ∧ log w'
               = log (world vars)
                 ++ [(DEBUG, "Error occurred, sleeping for next backoff period.")]).
Proof.
  intros Hv Hlt. split.
  - intros e He.
    assert (iteration ExecuteAll maxRetries NextBackOff ctxDone p k vars
            = Return {| world := (executeChildren p (world vars)).1;
                        retries := retries vars;
                        backoffDuration := backoffDuration vars |} [] (Some e))
      as Hit.
    { unfold retry.iteration.
      destruct (executeChildren p (world vars)) as [w1 r]. simpl in He.
      by subst r. }
    unfold retry.dispatchMessage.
    rewrite (loop_Return _ _ _ _ p k (enter p w) vars _ [] (Some e) fuel Hv Hit Hlt).
    eexists. split; [reflexivity|]. simpl.
    split; [by destruct (heap _)|]. apply executeChildren_log.
  - intros res e Hres Hf Hmax Hstop Hctx.
    pose proof (iteration_failed ExecuteAll maxRetries NextBackOff ctxDone
                  p k vars res Hres Hf) as Hit. cbv zeta in Hit.
    rewrite (proj2 (Z.eqb_neq _ _) Hmax), (proj2 (Z.eqb_neq _ _) Hstop), Hctx
      in Hit.
    unfold retry.dispatchMessage.
    rewrite (loop_Return _ _ _ _ p k (enter p w) vars _ [] (Some e) fuel Hv Hit Hlt).
    eexists. split; [reflexivity|]. simpl.
    split; [by destruct (heap _)|]. by rewrite executeChildren_log.
Qed.

End exits.

Section bounds.
Context {ChildSt : Type}.
Variable ExecuteAll : ChildSt → Batch → Prog (ChildSt * result (list Batch)).
Variable NextBackOff : nat → Duration.
Variable ctxDone : nat → option error.

(** X3.  With [0 < maxRetries], [dispatchMessage] returns after at most
    [maxRetries] executions of the children, whatever the children, the
    backoff and the context do. *)
Theorem retry_max_retries_bounds_executions (maxRetries : Z) (p : Part)
    (w : World) :
  0 < maxRetries < 2 ^ 63 →
  ∃ out, dispatchMessage ExecuteAll maxRetries NextBackOff ctxDone
           (Z.to_nat maxRetries) p w = Some out.
Proof.
  intros Hmax.
  destruct (dispatchMessage ExecuteAll maxRetries NextBackOff ctxDone
              (Z.to_nat maxRetries) p w) as [out|] eqn:Hd; [eauto|].
  exfalso. unfold dispatchMessage in Hd.
  destruct (loop ExecuteAll maxRetries NextBackOff ctxDone
              (Z.to_nat maxRetries) p 0 (enter p w)) as [r|] eqn:Hl.
  - destruct (loop_last _ _ _ _ p _ 0 (enter p w) (enter p w) r eq_refl Hl)
      as (k & v & vr & res & err & _ & _ & _ & ->). done.
  - apply loop_out_of_fuel in Hl as [v Hv].
    destruct (Z.to_nat maxRetries) as [|n] eqn:Hn; [lia|].
    simpl in Hv.
    destruct (varsAt ExecuteAll maxRetries NextBackOff ctxDone p n (enter p w))
      as [v1|] eqn:Hk; [|done].
    destruct (iteration ExecuteAll maxRetries NextBackOff ctxDone p n v1)
      as [v2|] eqn:Hit; [|done].
    apply iteration_Continue_below in Hit.
    destruct (varsAt_enter_counters _ _ _ _ _ _ _ _ Hk) as [Hr _].
    apply Hit. rewrite Hr, wrap64_add_l. rewrite wrap64_small; lia.
Qed.

(** X4.  With [maxRetries ≤ 0] the number of retries is not bounded: as long
    as the children fail, the backoff does not stop and the context is not
    done, the loop gets to every iteration [fuel] (below the 2^63 at which
    the counter wraps), with [retries = fuel] and one entry logged per
    failure, and [dispatchMessage] has not returned by then. *)
Theorem retry_without_max_retries_goes_on (maxRetries : Z) (p : Part)
    (w : World) (fuel : nat) :
  maxRetries ≤ 0 →
  alwaysErrors ExecuteAll →
  (∀ k, NextBackOff k ≠ Stop) →
  (∀ k, ctxDone k = None) →
  is_Some (parts (store (heap w)) !! p) →
  Z.of_nat fuel < 2 ^ 63 →
  dispatchMessage ExecuteAll maxRetries NextBackOff ctxDone fuel p w = None
  ∧ ∃ vars,
      varsAt ExecuteAll maxRetries NextBackOff ctxDone p fuel (enter p w)
      = Some vars
      ∧ retries vars = Z.of_nat fuel
      ∧ length (log (world vars)) = (length (log w) + fuel)%nat.
Proof.
  intros Hmax Hall Hns Hctx Hp Hfuel.
  assert (is_Some (parts (store (heap (world (enter p w)))) !! p)) as Hp0.
  { simpl. apply lookup_lt_is_Some. rewrite ErrorSet_length.
    by apply lookup_lt_is_Some. }
  assert (∀ k, Z.of_nat k < 2 ^ 63 →
            ∃ vars,
              varsAt ExecuteAll maxRetries NextBackOff ctxDone p k (enter p w)
              = Some vars
              ∧ length (log (world vars)) = (length (log w) + k)%nat) as Hreach.
  { induction k as [|k IH]; intros Hk.
    - exists (enter p w). split; [done|]. simpl. lia.
    - destruct IH as (v & Hv & Hlog); [lia|].
      pose proof (varsAt_valid ExecuteAll maxRetries NextBackOff ctxDone
                    p k _ _ p Hv Hp0) as Hpk.
      destruct (executeChildren_alwaysErrors ExecuteAll p (world v) Hall Hpk)
        as (res & Hres & Hf).
      pose proof (iteration_failed ExecuteAll maxRetries NextBackOff ctxDone
                    p k v res Hres Hf) as Hit. cbv zeta in Hit.
      destruct (varsAt_enter_counters _ _ _ _ _ _ _ _ Hv) as [Hr _].
      assert (wrap64 (retries v + 1) ≠ maxRetries) as Hne.
      { rewrite Hr, wrap64_add_l. rewrite wrap64_small; lia. }
      rewrite (proj2 (Z.eqb_neq _ _) Hne),
        (proj2 (Z.eqb_neq _ _) (Hns k)), Hctx in Hit.
      eexists. split; [simpl; rewrite Hv, Hit; reflexivity|].
      simpl. rewrite length_app, executeChildren_log, Hlog. simpl. lia. }
  destruct (Hreach fuel Hfuel) as (vars & Hv & Hlog).
  split.
  - unfold dispatchMessage.
    replace fuel with (fuel + 0)%nat at 1 by lia.
    rewrite (loop_varsAt _ _ _ _ p fuel (enter p w) vars 0 Hv). done.
  - exists vars. split; [done|]. split; [|done].
    destruct (varsAt_enter_counters _ _ _ _ _ _ _ _ Hv) as [Hr _].
    rewrite Hr. apply wrap64_small. lia.
Qed.

(** X5.  The part handed to [dispatchMessage] is worked on through copies
    only: when the children do not hold it and it is not in the result, then
    on return, with or without an error, it shows the payload and metadata
    it came with and a nil error tag, and the children still do not hold
    it. *)
Theorem retry_leaves_input_part_as_entered (maxRetries : Z) (p : Part)
    (w w' : World) (v : View) (fuel : nat) (res : list Batch)
    (err : option error) :
  p ∉ held (heap w) →
  isolated (store (heap w)) p →
  observe (store (heap w)) p = Some v →
  dispatchMessage ExecuteAll maxRetries NextBackOff ctxDone fuel p w
  = Some (w', res, err) →
  p ∉ concat res →
  observe (store (heap w')) p = Some (cleared v)
  ∧ p ∉ held (heap w').
Proof.
  intros Hheld Hiso Hobs Hd Hnin.
  assert (untouched p (cleared v) (world (enter p w))) as Hu0.
  { apply (enter_untouched p v w). split; [done|]. split; done. }
  unfold dispatchMessage in Hd.
  destruct (loop _ _ _ _ fuel p 0 (enter p w)) as [r|] eqn:Hl; [|done].
  destruct (loop_last _ _ _ _ p fuel 0 (enter p w) (enter p w) r eq_refl Hl)
    as (k & vars & vr & res' & err' & _ & Hv & Hit & ->).
  injection Hd as <- <- <-.
  pose proof (varsAt_untouched _ _ _ _ _ _ _ _ _ Hv Hu0) as Hu.
  destruct (executeChildren_untouched ExecuteAll p (cleared v) (world vars) Hu)
    as [(Hh1 & Hi1 & Ho1) _].
  pose proof (iteration_heap ExecuteAll maxRetries NextBackOff ctxDone p k vars)
    as Hheap.
  rewrite Hit in Hheap. simpl. rewrite Hheap. split; [|done].
  rewrite stamp_flat. by apply stamp_keeps_outsider.
Qed.

(** X6.  [ProcessBatch] without [parallel] dispatches the parts of the
    batch one after the other, each call of [dispatchMessage] starting from
    the world the call before it left.  It returns a result exactly when
    every call returned a nil error, and the result is then exactly one
    batch: what the calls returned, flattened, in the order of the input.  It
    returns an error exactly when the calls before some part returned nil
    errors and the call on that part returned that error; the world is then
    the one that call left, and the parts after it are not dispatched. *)
Theorem retry_serial_returns_one_flat_batch (maxRetries : Z) (fuel : nat)
    (msgs : Batch) (w w' : World) :
  (∀ res,
     ProcessBatch ExecuteAll maxRetries NextBackOff ctxDone fuel msgs w
     = Some (w', Ok res)
     ↔ ∃ tmps, res = [concat (@concat nat <$> tmps)]
               ∧ dispatched ExecuteAll maxRetries NextBackOff ctxDone
                   fuel w msgs tmps w')
  ∧ (∀ e,
       ProcessBatch ExecuteAll maxRetries NextBackOff ctxDone fuel msgs w
       = Some (w', Err e)
       ↔ ∃ pre p post tmps w1 tmp,
           msgs = pre ++ p :: post
           ∧ dispatched ExecuteAll maxRetries NextBackOff ctxDone
               fuel w pre tmps w1
           ∧ dispatchMessage ExecuteAll maxRetries NextBackOff ctxDone
               fuel p w1
             = Some (w', tmp, Some e)).
Proof.
  split.
  - intros res. unfold ProcessBatch. apply processSerial_Ok.
  - intros e. unfold ProcessBatch. apply processSerial_Err.
Qed.

End bounds.

Lemma store_x_wellFormed : wellFormed store_x.
Proof.
  intros [|[|q]] d Hq; [|discriminate Hq|discriminate Hq].
  injection Hq as <-. simpl. lia.
Qed.

(** The flaky child on the part "x": the third copy comes back untagged,
    after two failures and two sleeps of 100ms. *)
Lemma retry_stamps_failures_and_time_slept_witness :
  ∃ w', dispatchMessage flaky 5 backoff_100ms neverDone 3 0 world_x
        = Some (w', [[3%nat]], None)
        ∧ MetaGetMut 3 "retry_count" (store (heap w')) = Some (VInt 2)
        ∧ MetaGetMut 3 "backoff_duration" (store (heap w'))
          = Some (VDuration (200 * Millisecond)).
Proof.
  pose (vars := default (enter 0 world_x)
                  (varsAt flaky 5 backoff_100ms neverDone 0 2 (enter 0 world_x))).
  destruct (retry_stamps_failures_and_time_slept flaky 5 backoff_100ms
              neverDone 0%nat world_x 2%nat vars [[3%nat]] 3%nat) as [H _].
  - apply store_x_wellFormed.
  - vm_compute. reflexivity.
  - vm_compute. reflexivity.
  - lia.
  - destruct H as (w' & Hd & Hst); [vm_compute; reflexivity|].
    exists w'. split; [exact Hd|].
    apply (Hst [3%nat] 3%nat); [apply list_elem_of_here|apply list_elem_of_here|].
    vm_compute in Hd. injection Hd as <-. vm_compute. eexists. reflexivity.
Defined.

(** Children that break on the first execution, and children that fail
    while the context is cancelled during the first sleep. *)
Lemma retry_error_exits_stamp_nothing_witness :
  (∃ w', dispatchMessage brokenPipe 3 backoff_100ms neverDone 1 0 world_x
         = Some (w', [], Some (Errorf "broken pipe"))
         ∧ log w' = [])
  ∧ (∃ w', dispatchMessage alwaysFail 3 backoff_100ms cancelledWhileAsleep
             1 0 world_x
           = Some (w', [], Some Canceled)
           ∧ log w'
             = [(DEBUG, "Error occurred, sleeping for next backoff period.")]).
Proof.
  split.
  - destruct (retry_error_exits_stamp_nothing brokenPipe 3 backoff_100ms
                neverDone 0%nat world_x 0%nat (enter 0 world_x) 1%nat
                eq_refl) as [H _]; [lia|].
    destruct (H (Errorf "broken pipe") eq_refl) as (w' & Hd & _ & Hl).
    exists w'. split; [exact Hd|exact Hl].
  - destruct (retry_error_exits_stamp_nothing alwaysFail 3 backoff_100ms
                cancelledWhileAsleep 0%nat world_x 0%nat (enter 0 world_x)
                1%nat eq_refl) as [_ H]; [lia|].
    destruct (H [[1%nat]] Canceled) as (w' & Hd & _ & Hl).
    + reflexivity.
    + vm_compute. reflexivity.
    + vm_compute. discriminate.
    + vm_compute. discriminate.
    + reflexivity.
    + exists w'. split; [exact Hd|exact Hl].
Defined.

(** Children that always fail, [max_retries: 3]: three executions are
    enough. *)
Lemma retry_max_retries_bounds_executions_witness :
  ∃ out, dispatchMessage alwaysFail 3 backoff_100ms neverDone 3 0 world_x
         = Some out.
Proof.
  apply (retry_max_retries_bounds_executions alwaysFail backoff_100ms
           neverDone 3 0%nat world_x).
  lia.
Defined.

(** Children that always fail, [max_retries: 0]: four executions are not
    enough. *)
Lemma retry_without_max_retries_goes_on_witness :
  dispatchMessage alwaysFail 0 backoff_100ms neverDone 4 0 world_x = None
  ∧ ∃ vars, varsAt alwaysFail 0 backoff_100ms neverDone 0 4 (enter 0 world_x)
            = Some vars
            ∧ retries vars = 4
            ∧ length (log (world vars)) = 4%nat.
Proof.
  apply (retry_without_max_retries_goes_on alwaysFail backoff_100ms neverDone
           0 0%nat world_x 4%nat).
  - lia.
  - apply alwaysFail_alwaysErrors.
  - intros [|[|k]]; vm_compute; discriminate.
  - reflexivity.
  - eexists. reflexivity.
  - vm_compute. reflexivity.
Defined.

(** The flaky child: the part "x" comes back as it was sent, less its error
    tag. *)
Lemma retry_leaves_input_part_as_entered_witness :
  ∃ w', dispatchMessage flaky 5 backoff_100ms neverDone 3 0 world_x
        = Some (w', [[3%nat]], None)
        ∧ observe (store (heap w')) 0
          = Some {| v_bytes := bytes "x"; v_meta := ∅; v_err := None |}.
Proof.
  destruct (dispatchMessage flaky 5 backoff_100ms neverDone 3 0 world_x)
    as [[[w' res] err]|] eqn:Hd; [|vm_compute in Hd; discriminate].
  assert (res = [[3%nat]] ∧ err = None) as [-> ->].
  { vm_compute in Hd. injection Hd as _ <- <-. done. }
  exists w'. split; [reflexivity|].
  apply (retry_leaves_input_part_as_entered flaky backoff_100ms neverDone 5
           0%nat world_x w'
           {| v_bytes := bytes "x"; v_meta := ∅;
              v_err := Some (Errorf "upstream") |} 3%nat [[3%nat]] None).
  - vm_compute. intros H. inversion H.
  - eexists. split; [reflexivity|]. split; [simpl; lia|].
    intros [|q] d' Hne Hq; [exfalso; apply Hne; reflexivity|discriminate Hq].
  - reflexivity.
  - exact Hd.
  - simpl. intros H. apply list_elem_of_In in H. simpl in H.
    destruct H as [H|H]; [discriminate H|done].
Defined.

(** Two parts through children that hand the batch on: the second call
    starts from the world the first left, so its copy is part 3, and the two
    copies come back in the one batch of the result. *)
Lemma retry_serial_returns_one_flat_batch_witness :
  ∃ w' w1,
    ProcessBatch passThrough 3 backoff_100ms neverDone 1 [0%nat; 1%nat]
      world_xy
    = Some (w', Ok [[2%nat; 3%nat]])
    ∧ dispatchMessage passThrough 3 backoff_100ms neverDone 1 0 world_xy
      = Some (w1, [[2%nat]], None)
    ∧ dispatchMessage passThrough 3 backoff_100ms neverDone 1 1 w1
      = Some (w', [[3%nat]], None).
Proof.
  destruct (ProcessBatch passThrough 3 backoff_100ms neverDone 1
              [0%nat; 1%nat] world_xy) as [[w' [res|e]]|] eqn:Hp;
    [|vm_compute in Hp; discriminate|vm_compute in Hp; discriminate].
  assert (res = [[2%nat; 3%nat]]) as ->.
  { pose proof Hp as Hp'. vm_compute in Hp'. by injection Hp' as _ <-. }
  destruct (retry_serial_returns_one_flat_batch passThrough backoff_100ms
              neverDone 3 1%nat [0%nat; 1%nat] world_xy w') as [H _].
  destruct (proj1 (H _) Hp) as (tmps & _ & Hd).
  destruct tmps as [|tmp0 [|tmp1 [|tmp2 tmps]]]; try done.
  - destruct Hd as (w1 & _ & Hf). destruct Hf.
  - destruct Hd as (w1 & H0 & w2 & H1 & Hw). simpl in Hw. subst w2.
    exists w', w1. split; [reflexivity|].
    assert (tmp0 = [[2%nat]]) as ->.
    { pose proof H0 as H0'. vm_compute in H0'. by injection H0' as _ <-. }
    split; [exact H0|].
    assert (tmp1 = [[3%nat]]) as ->; [|exact H1].
    pose proof H0 as H0'. vm_compute in H0'. injection H0' as <-.
    pose proof H1 as H1'. vm_compute in H1'. by injection H1' as _ <-.
  - destruct Hd as (w1 & _ & w2 & _ & Hf). destruct Hf.
Defined.

End retry_properties.

(** ** Rate-limit processor *)

Module rate_limit_properties.
Import message rate_limit scenarios.
Import rate_limit_facts.

(** X7.  [Process] waits until the rate limit admits the part.  When the
    first [k] accesses each ask for a wait (a failed access asks for one
    second) and each wait ends with the timer, and access [k] succeeds with
    no wait while the context is not done, [Process] returns the part it was
    given and a nil error after [k + 1] accesses, and has logged one ERROR
    entry for each access that failed, in order. *)
Theorem rate_limit_admits_after_waiting (env : Env) (k fuel : nat)
    (msg : Part) (log : list LogEntry) :
  (∀ j, (j < k)%nat →
        ctxErr env j = None ∧ waitFor (access env j) ≠ 0
        ∧ selected env j = TimeAfter) →
  ctxErr env k = None →
  waitFor (access env k) = 0 →
  (k < fuel)%nat →
  Process env fuel msg log = Some ([msg], None, log ++ failures env k).
Proof.
  intros Hpre Hc Hw Hlt. rewrite Process_from_0.
  replace fuel with (k + S (fuel - S k))%nat by lia.
  rewrite ProcessFrom_waits by (intros j Hj; apply Hpre; lia).
  cbn [Nat.add]. rewrite ProcessFrom_S, Hc.
  rewrite bool_decide_false by (intros ?; done).
  cbv zeta. rewrite Hw, (waitFor_0_accessErr _ Hw), app_nil_r. done.
Qed.

Lemma rate_limit_admits_after_waiting_witness :
  Process admitsOnThird 3 0 []
  = Some ([0%nat], None,
          [(ERROR, "Failed to access rate limit: not found")]).
Proof.
  apply (rate_limit_admits_after_waiting admitsOnThird 2 3 0%nat []).
  - intros [|[|j]] Hj; [| |lia]; repeat split; vm_compute; discriminate.
  - reflexivity.
  - reflexivity.
  - lia.
Defined.

(** X8.  The exits of [Process].  A call that returns does so at some access
    [k], every earlier access having asked for a wait that ended with the
    timer, in one of four ways: the context was done after access [k], and
    nothing is returned but the error of that access, nil if it succeeded;
    access [k] succeeded with no wait, and the part given is returned alone
    with a nil error; or the wait after access [k] ended with the context
    done or with the processor closed, and nothing is returned but the
    context's error or [ErrTypeClosed].  The log has gained the entries of
    the failed accesses and nothing else; a failed access is never an
    admission. *)
Theorem rate_limit_exits (env : Env) (fuel : nat) (msg : Part)
    (log log' : list LogEntry) (ps : list Part) (err : option error) :
  Process env fuel msg log = Some (ps, err, log') →
  ∃ k, (k < fuel)%nat
    ∧ (∀ j, (j < k)%nat →
            ctxErr env j = None ∧ waitFor (access env j) ≠ 0
            ∧ selected env j = TimeAfter)
    ∧ ((ctxErr env k ≠ None ∧ ps = [] ∧ err = accessErr (access env k)
        ∧ log' = log ++ failures env k)
       ∨ (ctxErr env k = None ∧ accessErr (access env k) = None
          ∧ waitFor (access env k) = 0
          ∧ ps = [msg] ∧ err = None ∧ log' = log ++ failures env k)
       ∨ (ctxErr env k = None ∧ waitFor (access env k) ≠ 0
          ∧ ps = [] ∧ log' = log ++ failures env (S k)
          ∧ ((∃ e, selected env k = CtxDone e ∧ err = Some e)
             ∨ (selected env k = CloseChan ∧ err = Some ErrTypeClosed)))).
Proof.
  intros H. rewrite Process_from_0 in H.
  apply ProcessFrom_exit in H as (k & Hk & Hpre & Hex).
  exists k. split; [lia|]. split; [intros j Hj; apply Hpre; lia|].
  destruct Hex as [H|[(Hc & Hw & H)|H]]; [by left| |by right; right].
  right. left. split; [done|]. split; [|done].
  by apply waitFor_0_accessErr.
Qed.

Lemma rate_limit_exits_witness :
  ∃ k, (k < 3)%nat
       ∧ ctxErr admitsOnThird k = None
       ∧ waitFor (access admitsOnThird k) = 0.
Proof.
  destruct (rate_limit_exits admitsOnThird 3 0%nat [] _ _ _ eq_refl)
    as (k & Hk & _ & [(Hc & _)|[(Hc & _ & Hw & _)|(_ & _ & Hps & _)]]).
  - exfalso. apply Hc. reflexivity.
  - exists k. done.
  - discriminate Hps.
Defined.

End rate_limit_properties.

(** ** Error marking *)

Module MarkErr_properties.
Import message processor.
Import message_facts frame_facts.

(** X9.  [MarkErr] writes nothing but the error tag of the part it is given.
    With a nil error it does nothing at all, and with a nil part the store
    is left as it is.  Otherwise the part carries the error afterwards, every
    other part shows what it showed before, and no payload and no metadata
    of any part has changed.  The events go to the span given, and to the
    active span of the part only when no span is given. *)
Theorem MarkErr_writes_only_the_error_tag (active : Part → option nat)
    (part : option Part) (span : option nat) (err : option error)
    (st : Store) :
  (err = None → MarkErr active part span err st = (st, []))
  ∧ (part = None → (MarkErr active part span err st).1 = st)
  ∧ (∀ p e, part = Some p → err = Some e →
       (is_Some (parts st !! p) →
        ErrorGet p (MarkErr active part span err st).1 = Some e)
       ∧ (∀ q, q ≠ p →
            observe (MarkErr active part span err st).1 q = observe st q)
       ∧ (∀ q, AsBytes q (MarkErr active part span err st).1 = AsBytes q st)
       ∧ (∀ q k, MetaGetMut q k (MarkErr active part span err st).1
                 = MetaGetMut q k st))
  ∧ (∀ e, err = Some e →
       (MarkErr active part span err st).2
       = match (match span with
                | Some s => Some s
                | None => part ≫= active
                end) with
         | Some s => [SetTag s "error" "true";
                      LogKV s [("event", "error"); ("type", errorString e)]]
         | None => []
         end).
Proof.
  split; [by intros ->|]. split; [|split].
  - intros ->. unfold MarkErr. destruct err as [e|]; [|done].
    destruct span; done.
  - intros p e -> ->.
    assert ((MarkErr active (Some p) span (Some e) st).1
            = ErrorSet p (Some e) st) as ->.
    { unfold MarkErr. destruct span; [done|]. destruct (active p); done. }
    split; [intros Hp; by apply ErrorSet_ErrorGet_eq|].
    split; [intros q Hq; by apply ErrorSet_observe_ne|].
    split; [intros q; apply ErrorSet_AsBytes|].
    intros q k. apply ErrorSet_MetaGetMut.
  - intros e ->. unfold MarkErr.
    destruct span as [s|]; [by destruct part|].
    destruct part as [p|]; [|done]. simpl. destruct (active p); done.
Qed.

(** The part "x" is marked: the new error replaces the one from upstream,
    and the payload stays. *)
Lemma MarkErr_writes_only_the_error_tag_witness :
  ErrorGet 0 (MarkErr (λ _, None) (Some 0%nat) None
                (Some (Errorf "failed")) scenarios.store_x).1
  = Some (Errorf "failed")
  ∧ AsBytes 0 (MarkErr (λ _, None) (Some 0%nat) None
                 (Some (Errorf "failed")) scenarios.store_x).1
    = scenarios.bytes "x".
Proof.
  destruct (MarkErr_writes_only_the_error_tag (λ _, None) (Some 0%nat) None
              (Some (Errorf "failed")) scenarios.store_x)
    as (_ & _ & H & _).
  destruct (H 0%nat (Errorf "failed") eq_refl eq_refl) as (He & _ & Hb & _).
  split; [apply He; eexists; reflexivity|]. rewrite Hb. reflexivity.
Defined.

End MarkErr_properties.

(** ** Compress processor *)

Module compress_properties.
Import message processor compress scenarios.
Import message_facts frame_facts.

(** X10.  [Process] of the compress processor replaces the payload of the
    part and nothing else.  When the compression fails, the error is
    returned with a nil result, the store is left as it is, and one ERROR
    entry is logged.  When it succeeds on a part of the table, the part is
    returned alone with a nil error, its payload is the compressed payload,
    its error tag and its metadata are those it had, every other part shows
    what it showed before, and nothing is logged. *)
Theorem compress_replaces_the_payload_only
    (comp : Z → list Byte.byte → result (list Byte.byte)) (level : Z)
    (msg : Part) (st : Store) (log : list LogEntry) :
  is_Some (parts st !! msg) →
  (∀ e, comp level (AsBytes msg st) = Err e →
        Process comp level msg st log
        = (st,
           log ++ [(ERROR, "Failed to compress message: "
                           +:+ errorString e +:+ LF)],
           ([], Some e)))
  ∧ (∀ newBytes, comp level (AsBytes msg st) = Ok newBytes →
       ∃ st', Process comp level msg st log = (st', log, ([msg], None))
              ∧ AsBytes msg st' = newBytes
              ∧ ErrorGet msg st' = ErrorGet msg st
              ∧ (∀ k, MetaGetMut msg k st' = MetaGetMut msg k st)
              ∧ (∀ q, q ≠ msg → observe st' q = observe st q)).
Proof.
  intros Hmsg. split.
  - intros e He. unfold Process. by rewrite He.
  - intros newBytes Hok. exists (SetBytes msg newBytes st).
    unfold Process. rewrite Hok. split; [done|].
    split; [by apply SetBytes_AsBytes_eq|].
    split; [apply SetBytes_ErrorGet|].
    split; [intros k; apply SetBytes_MetaGetMut|].
    intros q Hq. by apply SetBytes_observe_ne.
Qed.

(** The part "x", tagged upstream, through the doubling compression. *)
Lemma compress_replaces_the_payload_only_witness :
  ∃ st', Process doubling (-1) 0 store_x [] = (st', [], ([0%nat], None))
         ∧ AsBytes 0 st' = bytes "xx"
         ∧ ErrorGet 0 st' = Some (Errorf "upstream").
Proof.
  destruct (compress_replaces_the_payload_only doubling (-1) 0%nat store_x [])
    as [_ H]; [eexists; reflexivity|].
  destruct (H (bytes "xx") eq_refl) as (st' & Hp & Hb & He & _).
  exists st'. split; [exact Hp|]. split; [exact Hb|]. rewrite He. reflexivity.
Defined.

End compress_properties.

(** ** Mapping and mutation processors *)

Module mapper_properties.
Import message processor mapper.
Import message_facts mapper_facts mapper_order_facts.

(** X11.  [ProcessBatch] of the mapping and mutation processors goes through
    the batch in order and appends, for each part, the part itself when its
    mapping failed, the mapped part when there is one, and nothing when the
    mapping deleted it.  The error returned is always nil; the result is the
    one batch so built, which never has more parts than the input, or nil
    when nothing was appended; and the log gains one ERROR entry for each
    mapping that failed, in the order of the batch, and nothing else. *)
Theorem mapper_output_follows_the_batch {ExecSt : Type}
    (call : Call (ExecSt := ExecSt)) (ctx : BatchProcContext) (b : Batch)
    (w : World) :
  let out := processBatch call ctx b w in
  let newBatch := concat (imap (appended call ctx b w) b) in
  out.2 = None
  ∧ out.1.2 = (if decide (newBatch = []) then [] else [newBatch])
  ∧ (length newBatch ≤ length b)%nat
  ∧ log out.1.1 = log w ++ concat (imap (logged call ctx b w) b).
Proof.
  cbv zeta. rewrite processBatch_final. cbv zeta. cbn [fst snd].
  destruct (stateAt_imap call ctx b w (length b)) as [Hb Hl]; [done|].
  rewrite firstn_all in Hb, Hl. rewrite Hb, Hl.
  split; [done|]. split; [done|]. split; [|done].
  apply concat_imap_length. apply appended_length.
Qed.

(** Three parts, of which the mapping of the second fails: the batch comes
    back whole and in order, with one entry logged. *)
Lemma mapper_output_follows_the_batch_witness :
  (processBatch (λ es _ i b, scenarios.failsOnSecond es i b)
     scenarios.noSpans [0%nat; 1%nat; 2%nat] scenarios.world_abc).1.2
  = [[0%nat; 1%nat; 2%nat]]
  ∧ log (processBatch (λ es _ i b, scenarios.failsOnSecond es i b)
           scenarios.noSpans [0%nat; 1%nat; 2%nat] scenarios.world_abc).1.1
    = [(ERROR, "failed assignment (line 1)")].
Proof.
  destruct (mapper_output_follows_the_batch
              (λ es _ i b, scenarios.failsOnSecond es i b)
              scenarios.noSpans [0%nat; 1%nat; 2%nat] scenarios.world_abc)
    as (_ & Hb & _ & Hl).
  rewrite Hb, Hl. split; vm_compute; reflexivity.
Defined.

End mapper_properties.

(** ** Websocket output *)

Module websocket_properties.
Import message websocket scenarios.
Import websocket_facts.

(** X12.  Whatever methods of a new writer are called, whenever the
    goroutines started by [Connect] see their read fail, and whatever the
    signer, the dialer and the connections answer: the client of the writer
    is the connection of the last dial that succeeded, or nil when [Close]
    was called or a write to it failed since; every batch is written to the
    connection that is the client at that moment, and [Close] closes that
    connection; the dialer is called only while there is no client; and a
    goroutine closes its connection only once it was started, and once.
    The close of a goroutine leaves the client as it is: the writer goes on
    writing to that connection until a write fails or [Close] is called,
    and a connection may be closed by its goroutine after [Close] or a
    failed write. *)
Theorem websocket_writes_to_the_client_connection (env : Env) (url : string)
    (proxy : option string) (tls : bool) (ss : list Step) :
  let w := steps env ss (newWriter url proxy tls) in
  client w = clientAfter env 0 None (trace w)
  ∧ (∀ pre ev post, trace w = pre ++ ev :: post →
       match ev with
       | EvIter c _ | EvClose c => clientAfter env 0 None pre = Some c
       | EvDial _ _ _ => clientAfter env 0 None pre = None
       | EvReaderClose c => c ∈ readersAfter [] pre
       | _ => True
       end)
  ∧ (∀ c, client (readFailed c w) = client w).
Proof.
  cbv zeta.
  destruct (steps_inOrder env ss (newWriter url proxy tls)) as [Hc Ha];
    [done|].
  split; [done|]. split; [|intros c; apply readFailed_client].
  intros pre ev post Ht. rewrite Ht in Ha.
  apply allFit_at in Ha. by destruct ev.
Qed.

(** Connect; the goroutine of connection 1 sees its read fail and closes it;
    a write, still made to connection 1, fails; connect again; close; the
    goroutine of connection 7 closes it once more and ends. *)
Lemma websocket_writes_to_the_client_connection_witness :
  let w := steps closingPeer
             [Called OpConnect; ReadFailed 1; Called (OpWriteBatch [0%nat]);
              Called OpConnect; Called OpClose; ReadFailed 7; ReadFailed 7]
             (newWriter "ws://localhost" None false) in
  client w = None
  ∧ trace w
    = [EvSign; EvDial "ws://localhost" None false; EvReader 1; EvBodyClose;
       EvReaderClose 1; EvIter 1 [0%nat];
       EvSign; EvDial "ws://localhost" None false; EvReader 7; EvBodyClose;
       EvClose 7; EvReaderClose 7]
  ∧ clientAfter closingPeer 0 None (trace w) = None.
Proof.
  cbv zeta.
  destruct (websocket_writes_to_the_client_connection closingPeer
              "ws://localhost" None false
              [Called OpConnect; ReadFailed 1; Called (OpWriteBatch [0%nat]);
               Called OpConnect; Called OpClose; ReadFailed 7; ReadFailed 7])
    as [Hc _].
  split; [vm_compute; reflexivity|]. split; [vm_compute; reflexivity|].
  rewrite <- Hc. vm_compute. reflexivity.
Defined.

(** X13.  A batch that could not be written disconnects the writer.  When
    [WriteBatch] returns an error, that error is not [ErrCloseSent] nor an
    error that wraps it ([ErrNotConnected] is returned in its place), the
    writer has no client, and the connection was not closed: the only event,
    if any, is the write that failed.  From then on, and until [Connect] is
    called, every [WriteBatch] returns [ErrNotConnected] and [Close] returns
    nil, without anything being written, closed or dialled. *)
Theorem websocket_failed_write_disconnects (env : Env) (msg : Batch)
    (w w1 : websocketWriter) (e : neterror) :
  WriteBatch env msg w = (w1, Some e) →
  isCloseSent e = false
  ∧ client w1 = None
  ∧ (trace w1 = trace w
     ∨ ∃ c, client w = Some c ∧ trace w1 = trace w ++ [EvIter c msg])
  ∧ (∀ msgs, calls env (OpWriteBatch <$> msgs) w1
             = (w1, (λ _, Some ErrNotConnected) <$> msgs))
  ∧ Close env w1 = (w1, None).
Proof.
  unfold WriteBatch. intros H.
  assert (isCloseSent e = false ∧ client w1 = None
          ∧ (trace w1 = trace w
             ∨ ∃ c, client w = Some c ∧ trace w1 = trace w ++ [EvIter c msg]))
    as (He & Hc & Ht).
  { destruct (client w) as [c|] eqn:Hcl.
    - destruct (Iter env (length (trace w)) c msg) as [e0|]; [|done].
      injection H as <- <-. split; [by destruct (isCloseSent e0) eqn:?|].
      split; [done|]. right. exists c. done.
    - injection H as <- <-. split; [done|]. split; [done|]. by left. }
  split; [done|]. split; [done|]. split; [done|]. split.
  - intros msgs. by apply calls_WriteBatch_unconnected.
  - unfold Close. by rewrite Hc.
Qed.

(** A writer that connects, then writes to a peer that has sent its close
    frame: [ErrNotConnected] is returned, and the next write reaches no
    connection. *)
Lemma websocket_failed_write_disconnects_witness :
  ∃ w w1,
    (calls closingPeer [OpConnect] (newWriter "ws://localhost" None false)).1
    = w
    ∧ WriteBatch closingPeer [0%nat] w = (w1, Some ErrNotConnected)
    ∧ client w = Some 1%nat
    ∧ client w1 = None
    ∧ calls closingPeer [OpWriteBatch [0%nat]] w1
      = (w1, [Some ErrNotConnected]).
Proof.
  eexists. eexists. split; [reflexivity|].
  split; [vm_compute; reflexivity|].
  split; [reflexivity|].
  destruct (websocket_failed_write_disconnects closingPeer [0%nat]
              (calls closingPeer [OpConnect]
                 (newWriter "ws://localhost" None false)).1
              _ ErrNotConnected ltac:(vm_compute; reflexivity))
    as (_ & Hc & _ & Hw & _).
  split; [exact Hc|]. exact (Hw [[0%nat]]).
Defined.

End websocket_properties.

(** ** The create command *)

Module cli_properties.
Import cli scenarios.
Import cli_facts.

Section addExpression.
Variable TrimSpace : string → string.
Variable inputExists : string → bool.
Variable processorExists : string → bool.
Variable outputExists : string → bool.

Local Abbreviation addExpression :=
  (addExpression TrimSpace inputExists processorExists outputExists).
Local Abbreviation typesAt := (typesAt TrimSpace).

(** X14.  An expression with a type in a fourth or later list is refused:
    [addExpression] returns "more component separators than expected" and
    leaves [conf] as it is, whether or not the types of the first three
    lists are recognised.  (Further separators after which there is no type,
    as in "a/b/c/", are accepted: see the next property.) *)
Theorem addExpression_refuses_a_fourth_list (conf : gmap string any)
    (expression : string) (i : nat) :
  (3 ≤ i)%nat →
  typesAt i expression ≠ [] →
  addExpression conf expression
  = (conf, Some (Errorf "more component separators than expected")).
Proof.
  intros Hi Hne. unfold cli.addExpression.
  by rewrite (rangeComponents_Err TrimSpace expression i Hi Hne).
Qed.

(** X15.  What [addExpression] builds.  When no list after the third holds a
    type and every type is recognised as a component of its kind, the error
    is nil and [conf] has gained: under "input", the component of the one
    input type, or a broker of the components of the several input types,
    in their order; under "pipeline", the processors of the processor
    types, in their order; under "output", what "input" has, for the output
    types.  A list without a type leaves its key as it was, and no other
    key is touched. *)
Theorem addExpression_builds_the_sections (conf : gmap string any)
    (expression : string) :
  threeLists TrimSpace expression →
  Forall (λ t, inputExists t = true) (typesAt 0 expression) →
  Forall (λ t, processorExists t = true) (typesAt 1 expression) →
  Forall (λ t, outputExists t = true) (typesAt 2 expression) →
  addExpression conf expression
  = (withOutput (typesAt 2 expression)
       (withPipeline (typesAt 1 expression)
          (withInput (typesAt 0 expression) conf)),
     None)
  ∧ ∀ key, key ≠ "input" → key ≠ "pipeline" → key ≠ "output" →
      (addExpression conf expression).1 !! key = conf !! key.
Proof.
  intros H3 Hi Hp Ho.
  assert (addExpression conf expression
          = (withOutput (typesAt 2 expression)
               (withPipeline (typesAt 1 expression)
                  (withInput (typesAt 0 expression) conf)),
             None)) as ->.
  { unfold cli.addExpression.
    rewrite (rangeComponents_Ok TrimSpace expression H3). cbn [inputTypes processorTypes outputTypes].
    rewrite setComponent_Ok by done.
    rewrite setPipeline_Ok by done.
    rewrite setComponent_Ok by done. done. }
  split; [done|]. intros key H1 H2 H4. cbn [fst].
  unfold withOutput, withPipeline, withInput.
  destruct (typesAt 2 expression), (typesAt 1 expression),
    (typesAt 0 expression); rewrite ?lookup_insert_ne by done; done.
Qed.

(** X16.  [addExpression] stops at the first type that is not recognised,
    the inputs being looked at first, then the processors, then the
    outputs, and names it in the error.  What was set before stays set: an
    unrecognised processor leaves [conf] with the new "input", and an
    unrecognised output leaves it with the new "input" and "pipeline". *)
Theorem addExpression_stops_at_an_unrecognised_type (conf : gmap string any)
    (expression : string) (pre post : list string) (t : string) :
  threeLists TrimSpace expression →
  (typesAt 0 expression = pre ++ t :: post →
   Forall (λ t, inputExists t = true) pre → inputExists t = false →
   addExpression conf expression
   = (conf, Some (Errorf ("unrecognised input type '" +:+ t +:+ "'"))))
  ∧ (Forall (λ t, inputExists t = true) (typesAt 0 expression) →
     typesAt 1 expression = pre ++ t :: post →
     Forall (λ t, processorExists t = true) pre → processorExists t = false →
     addExpression conf expression
     = (withInput (typesAt 0 expression) conf,
        Some (Errorf ("unrecognised processor type '" +:+ t +:+ "'"))))
  ∧ (Forall (λ t, inputExists t = true) (typesAt 0 expression) →
     Forall (λ t, processorExists t = true) (typesAt 1 expression) →
     typesAt 2 expression = pre ++ t :: post →
     Forall (λ t, outputExists t = true) pre → outputExists t = false →
     addExpression conf expression
     = (withPipeline (typesAt 1 expression)
          (withInput (typesAt 0 expression) conf),
        Some (Errorf ("unrecognised output type '" +:+ t +:+ "'")))).
Proof.
  intros H3. unfold cli.addExpression.
  rewrite (rangeComponents_Ok TrimSpace expression H3).
  cbn [inputTypes processorTypes outputTypes].
  split; [|split].
  - intros -> Hpre Ht. by rewrite setComponent_Err.
  - intros Hi -> Hpre Ht. rewrite setComponent_Ok by done.
    by rewrite setPipeline_Err.
  - intros Hi Hp -> Hpre Ht. rewrite setComponent_Ok by done.
    rewrite setPipeline_Ok by done. by rewrite setComponent_Err.
Qed.

End addExpression.

Lemma addExpression_refuses_a_fourth_list_witness :
  addExpression trimSpaces someInputs someProcessors someOutputs ∅
    "stdin/awk/nats/file"
  = (∅, Some (Errorf "more component separators than expected")).
Proof.
  apply (addExpression_refuses_a_fourth_list trimSpaces someInputs
           someProcessors someOutputs ∅ "stdin/awk/nats/file" 3); [lia|].
  vm_compute. discriminate.
Defined.

Lemma threeLists_example :
  threeLists trimSpaces "stdin, file/bloblang,awk/nats/".
Proof.
  intros i Hi. destruct i as [|[|[|[|i]]]]; try lia; [reflexivity|].
  unfold typesAt. by destruct i.
Qed.

(** The expression of the help text of the command, with a second input and
    a separator at its end. *)
Lemma addExpression_builds_the_sections_witness :
  addExpression trimSpaces someInputs someProcessors someOutputs ∅
    "stdin, file/bloblang,awk/nats/"
  = ({[ "input" := AMap {["broker" :=
                     AMap {["inputs" := AList [typeMap "stdin";
                                               typeMap "file"]]}]};
        "pipeline" := AMap {["processors" := AList [typeMap "bloblang";
                                                    typeMap "awk"]]};
        "output" := typeMap "nats" ]},
     None).
Proof.
  destruct (addExpression_builds_the_sections trimSpaces someInputs
              someProcessors someOutputs ∅ "stdin, file/bloblang,awk/nats/")
    as [H _].
  - apply threeLists_example.
  - vm_compute. repeat constructor.
  - vm_compute. repeat constructor.
  - vm_compute. repeat constructor.
  - rewrite H. vm_compute. reflexivity.
Defined.

Lemma threeLists_example_2 : threeLists trimSpaces "stdin/bloblang,sed/nats".
Proof.
  intros i Hi. destruct i as [|[|[|i]]]; try lia.
  unfold typesAt. by destruct i.
Qed.

(** An unrecognised processor: the input is set all the same. *)
Lemma addExpression_stops_at_an_unrecognised_type_witness :
  addExpression trimSpaces someInputs someProcessors someOutputs ∅
    "stdin/bloblang,sed/nats"
  = ({[ "input" := typeMap "stdin" ]},
     Some (Errorf "unrecognised processor type 'sed'")).
Proof.
  destruct (addExpression_stops_at_an_unrecognised_type trimSpaces someInputs
              someProcessors someOutputs ∅ "stdin/bloblang,sed/nats"
              ["bloblang"] [] "sed" threeLists_example_2) as (_ & H & _).
  rewrite H.
  - vm_compute. reflexivity.
  - vm_compute. repeat constructor.
  - vm_compute. reflexivity.
  - vm_compute. repeat constructor.
  - vm_compute. reflexivity.
Defined.

End cli_properties.

(** ** Batcher *)

Module batcher_properties.
Import message batcher scenarios.
Import batcher_facts.

(** X17.  The loop of the batcher hands every transaction it receives to
    one goroutine that acknowledges, and to no other.  At any moment, and
    whatever the policy does, the transactions handed over with the batches
    sent so far, followed by the pending ones, are the transactions received
    so far, in the order received: the goroutine of a batch holds exactly
    the transactions received since the batch sent before it.  The
    transactions that are pending when the loop is left are handed to no
    one. *)
Theorem batcher_hands_each_transaction_over_once {Policy : Type}
    (Add : Part → Policy → Policy * bool)
    (Flush : nat → Policy → Policy * option Batch)
    (Count : Policy → nat) (UntilNext : nat → Policy → Duration)
    (Message : Transaction → Batch) (b : Policy) (cs : list Choice)
    (v : Vars) (exited : bool) :
  loop Add Flush Count UntilNext Message b cs = Some (v, exited) →
  ∃ cs1, cs1 `prefix_of` cs
         ∧ (exited = false → cs1 = cs)
         ∧ concat (upstream <$> events v) ++ pendingTrans v = received cs1.
Proof.
  unfold loop. intros H.
  apply iterations_ledger in H as (cs1 & Hpre & Hex & Hl).
  exists cs1. split; [done|]. split; [done|]. exact Hl.
Qed.

(** Two transactions, a batch of their three parts, then the input is
    closed: both transactions went with that batch. *)
Lemma batcher_hands_each_transaction_over_once_witness :
  ∃ v, loop addOfTwo flushAll length (λ _ _, 0) Payload [] twoTransactions
       = Some (v, true)
       ∧ events v
         = [Send [0%nat; 1%nat; 2%nat]
              [ {| Payload := [0%nat]; Ack := 0 |};
                {| Payload := [1%nat; 2%nat]; Ack := 1 |} ];
            CloseMessagesOut; ChildTriggerCloseNow; ChildWaitForClose;
            BatcherClose; TriggerHasStopped]
       ∧ ∃ cs1, cs1 `prefix_of` twoTransactions
                ∧ concat (upstream <$> events v) ++ pendingTrans v
                  = received cs1.
Proof.
  eexists. split; [vm_compute; reflexivity|]. split; [reflexivity|].
  destruct (batcher_hands_each_transaction_over_once addOfTwo flushAll length
              (λ _ _, 0) Payload [] twoTransactions _ true eq_refl)
    as (cs1 & Hpre & _ & H).
  exists cs1. split; [exact Hpre|exact H].
Defined.

(** X18.  With a policy that keeps the parts it is given in the order of
    [Add] and whose [Flush] returns them all (nil when there is none), the
    batcher sends the parts in the order they arrived, each at most once:
    while the loop runs, the parts sent so far followed by the parts the
    policy holds are the parts of the transactions received, in order; and
    when the loop is left, the parts sent are a prefix of them. *)
Theorem batcher_sends_parts_in_arrival_order {Policy : Type}
    (Add : Part → Policy → Policy * bool)
    (Flush : nat → Policy → Policy * option Batch)
    (Count : Policy → nat) (UntilNext : nat → Policy → Duration)
    (Message : Transaction → Batch) (contents : Policy → Batch)
    (b : Policy) (cs : list Choice) (v : Vars) (exited : bool) :
  (∀ p b, contents (Add p b).1 = contents b ++ [p]) →
  (∀ k b, contents (Flush k b).1 = []
          ∧ (Flush k b).2 = match contents b with
                            | [] => None
                            | _ => Some (contents b)
                            end) →
  contents b = [] →
  loop Add Flush Count UntilNext Message b cs = Some (v, exited) →
  if exited
  then sent v `prefix_of` concat (Message <$> received cs)
  else sent v ++ contents (policy v) = concat (Message <$> received cs).
Proof.
  intros HA HF Hb H. unfold loop in H.
  apply (iterations_parts Add Flush Count UntilNext Message contents HA HF)
    in H.
  cbn [policy events] in H. rewrite Hb in H. destruct exited.
  - destruct H as [more H]. exists more. by rewrite H.
  - exact H.
Qed.

Lemma batcher_sends_parts_in_arrival_order_witness :
  ∃ v, loop addOfTwo flushAll length (λ _ _, 0) Payload [] twoTransactions
       = Some (v, true)
       ∧ sent v `prefix_of` [0%nat; 1%nat; 2%nat].
Proof.
  eexists. split; [vm_compute; reflexivity|].
  apply (batcher_sends_parts_in_arrival_order addOfTwo flushAll length
           (λ _ _, 0) Payload (λ b, b) [] twoTransactions _ true).
  - reflexivity.
  - intros k [|p ps]; split; reflexivity.
  - reflexivity.
  - vm_compute. reflexivity.
Defined.

(** X19.  [Consume] starts the loop at most once.  Whatever calls of
    [Consume] a new batcher gets, each with a channel that is not nil, and
    whatever the child answers, there is at most one loop, and there is one
    exactly when [messagesIn] is set; a call of [Consume] then returns
    [ErrAlreadyStarted], without the child being called. *)
Theorem batcher_consume_starts_one_loop (childConsume : nat → option error)
    (msgss : list (option nat)) :
  Forall is_Some msgss →
  let m := Consumes childConsume msgss
             {| messagesIn := None; childConsumed := 0; loops := 0 |} in
  (loops m ≤ 1)%nat
  ∧ (is_Some (messagesIn m) ↔ loops m = 1%nat)
  ∧ (loops m = 1%nat →
     ∀ msgs, Consume childConsume msgs m = (m, Some ErrAlreadyStarted)).
Proof.
  intros Hall. cbv zeta.
  destruct (Consumes_loops childConsume msgss
              {| messagesIn := None; childConsumed := 0; loops := 0 |} Hall)
    as [Hiff Hle].
  - simpl. split; [intros [? ?]; done|lia].
  - simpl. lia.
  - split; [done|]. split; [done|]. intros H1 msgs.
    apply Hiff in H1 as [ch Hch]. unfold Consume. by rewrite Hch.
Qed.

(** A child that refuses the first call: the second call starts the loop and
    the third is turned away. *)
Lemma batcher_consume_starts_one_loop_witness :
  let childConsume := λ n, match n with
                           | 0%nat => Some (Errorf "not ready")
                           | _ => None
                           end in
  let m := Consumes childConsume [Some 7%nat; Some 7%nat; Some 8%nat]
             {| messagesIn := None; childConsumed := 0; loops := 0 |} in
  m = {| messagesIn := Some 7%nat; childConsumed := 2; loops := 1 |}
  ∧ (loops m ≤ 1)%nat
  ∧ Consume childConsume (Some 9%nat) m = (m, Some ErrAlreadyStarted).
Proof.
  cbv zeta.
  destruct (batcher_consume_starts_one_loop
              (λ n, match n with
                    | 0%nat => Some (Errorf "not ready")
                    | _ => None
                    end)
              [Some 7%nat; Some 7%nat; Some 8%nat]) as (Hle & _ & Hc).
  - repeat constructor; eexists; reflexivity.
  - split; [reflexivity|]. split; [exact Hle|]. apply Hc. reflexivity.
Defined.

End batcher_properties.
